(** * MorphIO: the Neurolucida ASC lexer and its lookahead cursor

    A shallow embedding of [morphio::readers::asc] (the token enumeration,
    the rule table of [build_lexer] and the class [NeurolucidaLexer]) and
    of the exception registrations of the Python bindings, with the
    properties of the specification stated and proved over it. *)

From Stdlib Require Import List Ascii String NArith ZArith Bool Arith Lia.
Import ListNotations.

Local Open Scope N_scope.

(** ** Machine integers *)

(** [std::size_t] is taken to be 64 bits wide; its arithmetic wraps. *)
Definition size_modulus : N := 2 ^ 64.
Definition wrap (n : N) : N := n mod size_modulus.

(** [lexertl]'s [npos], the id of a character no rule matches:
    [static_cast<std::size_t>(~0)]. *)
Definition npos : N := size_modulus - 1.

(** ** Tokens *)

Module Token.

Inductive Token : Set :=
| EOF_ | WS | NEWLINE | COMMENT | LPAREN | RPAREN | LSPINE | RSPINE
| COMMA | PIPE | WORD | STRING | NUMBER
(* neurite types *)
| AXON | APICAL | DENDRITE | CELLBODY
(* Special WORDS *)
| COLOR | FONT | MARKER | RGB
(* end of branch weirdness *)
| GENERATED | HIGH | INCOMPLETE | LOW | NORMAL | MIDPOINT | ORIGIN.

(** [operator+(Token)]: the enumerator's value as a [size_t]. *)
Definition to_id (t : Token) : N :=
  match t with
  | EOF_ => 0 | WS => 1 | NEWLINE => 2 | COMMENT => 3 | LPAREN => 4
  | RPAREN => 5 | LSPINE => 6 | RSPINE => 7 | COMMA => 8 | PIPE => 9
  | WORD => 10 | STRING => 11 | NUMBER => 12
  | AXON => 13 | APICAL => 14 | DENDRITE => 15 | CELLBODY => 16
  | COLOR => 101 | FONT => 102 | MARKER => 103 | RGB => 104
  | GENERATED => 105 | HIGH => 106 | INCOMPLETE => 107 | LOW => 108
  | NORMAL => 109 | MIDPOINT => 110 | ORIGIN => 111
  end.

Definition to_string (t : Token) : string :=
  match t with
  | EOF_ => "EOF_" | WS => "WS" | NEWLINE => "NEWLINE" | COMMENT => "COMMENT"
  | LPAREN => "LPAREN" | RPAREN => "RPAREN" | LSPINE => "LSPINE"
  | RSPINE => "RSPINE" | COMMA => "COMMA" | PIPE => "PIPE" | WORD => "WORD"
  | STRING => "STRING" | NUMBER => "NUMBER" | AXON => "AXON"
  | APICAL => "APICAL" | DENDRITE => "DENDRITE" | CELLBODY => "CELLBODY"
  | COLOR => "COLOR" | FONT => "FONT" | MARKER => "MARKER" | RGB => "RGB"
  | GENERATED => "GENERATED" | HIGH => "HIGH" | INCOMPLETE => "INCOMPLETE"
  | LOW => "LOW" | NORMAL => "NORMAL" | MIDPOINT => "MIDPOINT"
  | ORIGIN => "ORIGIN"
  end.

End Token.
Import Token.

(** ** Regular expressions of the rule table

    [lexertl] itself is a third-party library; only the patterns pushed by
    [build_lexer] are part of this program.  The patterns use literals,
    bracket expressions, concatenation, [?], [*], [+] and grouping; they are
    written below as terms of [regex], each next to its pattern. *)

Module Regex.

Inductive item : Set :=
| One (c : ascii)
| Rng (lo hi : ascii).

Inductive regex : Set :=
| Nul                                        (* matches nothing *)
| Eps                                        (* the empty string *)
| Sym (negated : bool) (items : list item)   (* [...] and [^...] *)
| Cat (r1 r2 : regex)
| Alt (r1 r2 : regex)
| Star (r : regex).

Definition item_mem (c : ascii) (i : item) : bool :=
  match i with
  | One d => Ascii.eqb c d
  | Rng lo hi => (N_of_ascii lo <=? N_of_ascii c) && (N_of_ascii c <=? N_of_ascii hi)
  end.

Definition sym_mem (c : ascii) (negated : bool) (items : list item) : bool :=
  xorb negated (existsb (item_mem c) items).

Fixpoint nullable (r : regex) : bool :=
  match r with
  | Nul => false
  | Eps => true
  | Sym _ _ => false
  | Cat r1 r2 => nullable r1 && nullable r2
  | Alt r1 r2 => nullable r1 || nullable r2
  | Star _ => true
  end.

Definition cat (r1 r2 : regex) : regex :=
  match r1, r2 with
  | Nul, _ => Nul
  | _, Nul => Nul
  | Eps, _ => r2
  | _, _ => Cat r1 r2
  end.

Definition alt (r1 r2 : regex) : regex :=
  match r1, r2 with
  | Nul, _ => r2
  | _, Nul => r1
  | _, _ => Alt r1 r2
  end.

(** The residual of [r] after reading [c]. *)
Fixpoint deriv (c : ascii) (r : regex) : regex :=
  match r with
  | Nul => Nul
  | Eps => Nul
  | Sym n l => if sym_mem c n l then Eps else Nul
  | Cat r1 r2 =>
      alt (cat (deriv c r1) r2) (if nullable r1 then deriv c r2 else Nul)
  | Alt r1 r2 => alt (deriv c r1) (deriv c r2)
  | Star r1 => cat (deriv c r1) (Star r1)
  end.

Definition derivs (s : list ascii) (r : regex) : regex :=
  fold_left (fun r c => deriv c r) s r.

(** Length of the longest prefix of [s] that [r] matches, if any. *)
Fixpoint longest (r : regex) (s : list ascii) : option nat :=
  match s with
  | [] => if nullable r then Some O else None
  | c :: s' =>
      match longest (deriv c r) s' with
      | Some n => Some (S n)
      | None => if nullable r then Some O else None
      end
  end.

(** The language of a regular expression, for reference. *)
Inductive matches : regex -> list ascii -> Prop :=
| m_eps : matches Eps []
| m_sym n l c : sym_mem c n l = true -> matches (Sym n l) [c]
| m_cat r1 r2 s1 s2 : matches r1 s1 -> matches r2 s2 -> matches (Cat r1 r2) (s1 ++ s2)
| m_alt_l r1 r2 s : matches r1 s -> matches (Alt r1 r2) s
| m_alt_r r1 r2 s : matches r2 s -> matches (Alt r1 r2) s
| m_star_nil r : matches (Star r) []
| m_star_cons r s1 s2 : matches r s1 -> matches (Star r) s2 -> matches (Star r) (s1 ++ s2).

(** Pattern syntax. *)
Definition chr (c : ascii) : regex := Sym false [One c].
Definition set (s : string) : regex := Sym false (map One (list_ascii_of_string s)).
Fixpoint lit_chars (s : list ascii) : regex :=
  match s with
  | [] => Eps
  | [c] => chr c
  | c :: s' => Cat (chr c) (lit_chars s')
  end.
Definition lit (s : string) : regex := lit_chars (list_ascii_of_string s).
Definition plus (r : regex) : regex := Cat r (Star r).
Definition opt (r : regex) : regex := Alt r Eps.
Fixpoint seqs (rs : list regex) : regex :=
  match rs with
  | [] => Eps
  | [r] => r
  | r :: rs' => Cat r (seqs rs')
  end.

End Regex.
Import Regex.

(** ** The rule table and the token stream *)

(** Characters that have no printable literal. *)
Definition LF : ascii := ascii_of_nat 10.
Definition TAB : ascii := ascii_of_nat 9.
Definition CR : ascii := ascii_of_nat 13.
Definition DQUOTE : ascii := ascii_of_nat 34.

Definition blank : regex := Sym false [One " "; One TAB; One CR].
Definition digit : regex := Sym false [Rng "0" "9"].
Definition sign : regex := Sym false [One "+"; One "-"].

(** A compiled [lexertl::state_machine] is represented by the rules it was
    generated from, in the order they were pushed, each with its token id;
    the empty machine is the empty list. *)
Definition state_machine : Set := list (regex * N).

Definition sm_empty (sm : state_machine) : bool :=
  match sm with [] => true | _ :: _ => false end.

(** A marker name followed by [[0-9]*]. *)
Definition marker (name : string) : regex * N :=
  (Cat (lit name) (Star digit), to_id MARKER).

(** The [rules_] built by [build_lexer], one entry per [rules_.push]. *)
Definition rules_ : list (regex * N) :=
  [ (chr LF, to_id NEWLINE);                                  (* \n *)
    (plus blank, to_id WS);                                   (* [ \t\r]+ *)
    (Cat (chr ";") (Star (Sym true [One LF])), to_id COMMENT); (* ;[^\n]* *)

    (chr "(", to_id LPAREN);                                  (* \( *)
    (chr ")", to_id RPAREN);                                  (* \) *)

    (seqs [chr "<"; Star blank; chr "("], to_id LSPINE);       (* <[ \t\r]*\( *)
    (lit ")>", to_id RSPINE);                                 (* \)> *)

    (chr ",", to_id COMMA);                                   (* , *)
    (chr "|", to_id PIPE);                                    (* \| *)

    (lit "Color", to_id COLOR);
    (lit "Font", to_id FONT);

    (Cat (set "Aa") (lit "xon"), to_id AXON);                 (* [Aa]xon *)
    (Cat (set "Aa") (lit "pical"), to_id APICAL);             (* [Aa]pical *)
    (Cat (set "Dd") (lit "endrite"), to_id DENDRITE);         (* [Dd]endrite *)
    (seqs [set "Cc"; lit "ell"; opt (chr " "); set "Bb"; lit "ody"],
     to_id CELLBODY);                                         (* [Cc]ell ?[Bb]ody *)

    marker "Dot";
    marker "Plus";
    marker "Cross";
    marker "Splat";
    marker "Flower";
    marker "Circle";
    marker "Flower";
    marker "TriStar";
    marker "OpenStar";
    marker "Asterisk";
    marker "SnowFlake";
    marker "OpenCircle";
    marker "ShadedStar";
    marker "FilledStar";
    marker "TexacoStar";
    marker "MoneyGreen";
    marker "DarkYellow";
    marker "OpenSquare";
    marker "OpenDiamond";
    marker "CircleArrow";
    marker "CircleCross";
    marker "OpenQuadStar";
    marker "DoubleCircle";
    marker "FilledSquare";
    marker "MalteseCross";
    marker "FilledCircle";
    marker "FilledDiamond";
    marker "FilledQuadStar";
    marker "OpenUpTriangle";
    marker "FilledUpTriangle";
    marker "OpenDownTriangle";
    marker "FilledDownTriangle";

    (lit "Generated", to_id GENERATED);
    (lit "High", to_id HIGH);
    (lit "Incomplete", to_id INCOMPLETE);
    (lit "Low", to_id LOW);
    (lit "Normal", to_id NORMAL);
    (lit "Midpoint", to_id MIDPOINT);
    (lit "Origin", to_id ORIGIN);

    (seqs [chr DQUOTE; Star (Sym true [One DQUOTE]); chr DQUOTE],
     to_id STRING);            (* a double quote, [^ double quote]*, a double quote *)

    (* [+-]?[0-9]+(\.[0-9]+)?([eE][+-]?[0-9]+)? *)
    (seqs [opt sign; plus digit;
          opt (Cat (chr ".") (plus digit));
          opt (seqs [set "eE"; opt sign; plus digit])],
     to_id NUMBER);
    (* [a-zA-Z][0-9a-zA-Z]+ *)
    (Cat (Sym false [Rng "a" "z"; Rng "A" "Z"])
         (plus (Sym false [Rng "0" "9"; Rng "a" "z"; Rng "A" "Z"])),
     to_id WORD) ].

(** [lexertl::generator::build]: the machine of a rule set.  The generated
    automaton accepts, for every rule, the language of its pattern. *)
Definition generator_build (rules : list (regex * N)) : state_machine := rules.

(** [state_machine::minimise] merges equivalent states and changes no
    language. *)
Definition minimise (sm : state_machine) : state_machine := sm.

(** [build_lexer].  Its function-local [static lexertl::state_machine sm]
    is threaded through: the argument is the static before the call; the
    result is the machine the returned reference denotes, the static after
    the call, and whether this call ran the generator. *)
Definition build_lexer (sm : state_machine)
  : state_machine * state_machine * bool :=
  if negb (sm_empty sm) then (sm, sm, false)
  else
    let sm := generator_build rules_ in
    let sm := minimise sm in
    (sm, sm, true).

(** [lexertl::match_results]: the id of the rule that matched and the
    matched text ([str()]). *)
Record match_results : Set := { id : N; str : list ascii }.

(** What a [lexertl] iterator shows once the input is exhausted. *)
Definition eoi_results : match_results := {| id := to_id EOF_; str := [] |}.

(** Modelled from the spec: the matching engine ([lexertl::lookup], a
    third-party library) is not part of the sources.  Rules are
    longest-match, with the declaration order as the priority for ties.
    The result is the length of the match and the id of the rule. *)
Fixpoint best_match (sm : state_machine) (s : list ascii) : option (nat * N) :=
  match sm with
  | [] => None
  | (r, i) :: sm' =>
      let here := match longest r s with
                  | Some (S n) => Some (S n, i)
                  | _ => None
                  end in
      match here, best_match sm' s with
      | Some (n, i), Some (m, j) =>
          if (n <? m)%nat then Some (m, j) else Some (n, i)
      | Some x, None => Some x
      | None, y => y
      end
  end.

(** One step of the iterator: the next token and the input left.  As in
    [lexertl], a character that no rule matches is skipped as a token of
    its own, with id [npos], and the token at the end of the input has the
    id 0. *)
Definition lookup (sm : state_machine) (s : list ascii)
  : match_results * list ascii :=
  match s with
  | [] => (eoi_results, [])
  | c :: s' =>
      match best_match sm s with
      | Some (n, i) => ({| id := i; str := firstn n s |}, skipn n s)
      | None => ({| id := npos; str := [c] |}, s')
      end
  end.

(** A [lexertl::siterator] is represented by the tokens it yields from its
    position on, the current one first; the end iterator (which a
    [lexertl] iterator becomes when its token starts at the end of the
    input) is the empty list.  [++iter] is the tail. *)
Definition siterator : Set := list match_results.

(** [operator->]: the results under the iterator. *)
Definition deref (it : siterator) : match_results :=
  match it with
  | [] => eoi_results
  | t :: _ => t
  end.

Fixpoint tokens_from (fuel : nat) (sm : state_machine) (s : list ascii)
  : siterator :=
  match fuel, s with
  | S f, _ :: _ => let (t, rest) := lookup sm s in t :: tokens_from f sm rest
  | _, _ => []
  end.

(** [lexertl::siterator(input.begin(), input.end(), sm)]. *)
Definition siterator_begin (sm : state_machine) (input : list ascii) : siterator :=
  tokens_from (List.length input) sm input.

Definition chars (s : string) : list ascii := list_ascii_of_string s.

(** ** Exceptions *)

(** The exception classes of the library, as the Python module names them. *)
Inductive exception_class : Set :=
| MorphioError | RawDataError | UnknownFileType | SomaError
| IDSequenceError | MultipleTrees | MissingParentError | SectionBuilderError.

(** [ErrorMessages] is constructed from the path of the file being read. *)
Record ErrorMessages : Set := { uri : string }.

(** The diagnostics the lexer asks [ErrorMessages] for.  The class renders
    them to text outside these sources; a diagnostic is kept here as the
    call that produces it, with its arguments. *)
Inductive diagnostic : Set :=
| ERROR_EOF_REACHED (err : ErrorMessages) (line : N)
| ERROR_UNEXPECTED_TOKEN (err : ErrorMessages) (line : N)
    (expected : string) (got : list ascii) (msg : string)
| ERROR_EOF_UNBALANCED_PARENS (err : ErrorMessages) (line : N).

(** A thrown exception: its class and what it carries. *)
Record exn : Set := throw { exn_class : exception_class; what : diagnostic }.

(** ** NeurolucidaLexer *)

(** One line written by [state()]. *)
Record debug_line : Set := {
  dl_id : N; dl_token : list ascii; dl_line : N;
  dl_next_id : N; dl_next_token : list ascii; dl_next_line : N
}.

Record NeurolucidaLexer : Set := mkLexer {
  debug_ : bool;
  err_ : ErrorMessages;
  current_ : siterator;
  next_ : siterator;
  current_line_num_ : N;
  next_line_num_ : N;
  (** what the lexer has written to [std::cout] *)
  cout : list debug_line
}.

(** The constructor: default-constructed iterators are end iterators, and
    both line counters start at 1. *)
Definition new_lexer (path : string) (debug : bool) : NeurolucidaLexer :=
  {| debug_ := debug; err_ := {| uri := path |};
     current_ := []; next_ := [];
     current_line_num_ := 1; next_line_num_ := 1; cout := [] |}.

(** A member function that may throw: the outcome and the object after the
    call (which is there also when the call throws). *)
Definition M (A : Type) : Type := NeurolucidaLexer -> (exn + A) * NeurolucidaLexer.

Definition line_num (l : NeurolucidaLexer) : N := current_line_num_ l.
Definition current (l : NeurolucidaLexer) : siterator := current_ l.
Definition peek (l : NeurolucidaLexer) : siterator := next_ l.

Definition is_end (it : siterator) : bool :=
  match it with [] => true | _ :: _ => false end.

(** [skip_whitespace(iter)]: the loop, with its local [endlines]. *)
Fixpoint skip_whitespace_loop (iter : siterator) (endlines : N) : N * siterator :=
  match iter with
  | [] => (endlines, iter)
  | t :: iter' =>
      if id t =? to_id NEWLINE then
        skip_whitespace_loop iter' (wrap (endlines + 1))
      else if (id t =? to_id WS) || (id t =? to_id COMMENT) then
        skip_whitespace_loop iter' endlines
      else (endlines, iter)
  end.

(** Returns the number of newlines skipped and the iterator advanced. *)
Definition skip_whitespace (iter : siterator) : N * siterator :=
  skip_whitespace_loop iter 0.

Definition ended (l : NeurolucidaLexer) : bool := is_end (current l).

Definition state (l : NeurolucidaLexer) : NeurolucidaLexer :=
  let line :=
    {| dl_id := id (deref (current_ l)); dl_token := str (deref (current_ l));
       dl_line := current_line_num_ l;
       dl_next_id := id (deref (next_ l)); dl_next_token := str (deref (next_ l));
       dl_next_line := next_line_num_ l |} in
  mkLexer (debug_ l) (err_ l) (current_ l) (next_ l)
          (current_line_num_ l) (next_line_num_ l) (cout l ++ [line]).

(** [consume()] *)
Definition consume : M siterator := fun l =>
  if ended l then
    (inl (throw RawDataError (ERROR_EOF_REACHED (err_ l) (line_num l))), l)
  else
    let current' := next_ l in
    let current_line' := next_line_num_ l in
    let '(next', next_line') :=
      match next_ l with
      | [] => (next_ l, next_line_num_ l)
      | _ :: incremented =>
          let '(n, it) := skip_whitespace incremented in
          (it, wrap (next_line_num_ l + n))
      end in
    let l1 := mkLexer (debug_ l) (err_ l) current' next'
                      current_line' next_line' (cout l) in
    let l2 := if debug_ l1 then state l1 else l1 in
    (inr (current_ l2), l2).

(** [expect(t, msg)] *)
Definition expect (t : Token) (msg : string) : M unit := fun l =>
  if negb (id (deref (current l)) =? to_id t) then
    (inl (throw RawDataError
            (ERROR_UNEXPECTED_TOKEN (err_ l) (line_num l) (to_string t)
                                    (str (deref (current l))) msg)), l)
  else (inr tt, l).

(** [consume(t, msg)], with [msg] defaulting to the empty string. *)
Definition consume_token (t : Token) (msg : string) : M siterator := fun l =>
  let '(r, l1) :=
    if negb (String.eqb msg "") then expect t msg l else expect t "Consume" l in
  match r with
  | inl e => (inl e, l1)
  | inr _ => consume l1
  end.

(** [start_parse(input)], with the static of [build_lexer] threaded. *)
Definition start_parse (input : list ascii) (static : state_machine)
    (l : NeurolucidaLexer) : (exn + unit) * NeurolucidaLexer * state_machine :=
  let '(sm, static', _) := build_lexer static in
  let begin := siterator_begin sm input in
  let '(n_skipped, current') := skip_whitespace begin in
  let l1 := mkLexer (debug_ l) (err_ l) current' begin
                    (wrap (current_line_num_ l + n_skipped))
                    (wrap (next_line_num_ l + n_skipped)) (cout l) in
  let '(r, l2) := consume l1 in
  (match r with inl e => inl e | inr _ => inr tt end, l2, static').

(** The loops below run on fuel; [None] is fuel exhausted.  Each is given
    enough fuel to finish (see [consume_until_returns] and
    [consume_until_balanced_paren_returns]). *)
Fixpoint consume_until_loop (fuel : nat) (endpoint : Token)
    (l : NeurolucidaLexer) : option ((exn + unit) * NeurolucidaLexer) :=
  match fuel with
  | O => None
  | S fuel' =>
      match consume l with
      | (inl e, l1) => Some (inl e, l1)
      | (inr it, l1) =>
          if negb (id (deref it) =? to_id endpoint)
          then consume_until_loop fuel' endpoint l1
          else Some (inr tt, l1)
      end
  end.

Definition loop_fuel (l : NeurolucidaLexer) : nat := 2 + List.length (next_ l).

(** [consume_until(endpoint)] *)
Definition consume_until (endpoint : Token) (l : NeurolucidaLexer)
  : option ((exn + unit) * NeurolucidaLexer) :=
  consume_until_loop (loop_fuel l) endpoint l.

(** [--opening_count] and [++opening_count] on a [size_t]. *)
Definition decr (n : N) : N := wrap (n + (size_modulus - 1)).
Definition incr (n : N) : N := wrap (n + 1).

(** The [while (opening_count != 0)] loop of
    [consume_until_balanced_paren]. *)
Fixpoint balanced_paren_loop (fuel : nat) (opening_count : N)
    (l : NeurolucidaLexer) : option ((exn + unit) * NeurolucidaLexer) :=
  if opening_count =? 0 then Some (inr tt, l)
  else
    match fuel with
    | O => None
    | S fuel' =>
        match consume l with
        | (inl e, l1) => Some (inl e, l1)
        | (inr it, l1) =>
            let id := id (deref it) in
            let opening_count :=
              if id =? to_id RPAREN then decr opening_count
              else if id =? to_id LPAREN then incr opening_count
              else opening_count in
            if ended l1 then
              Some (inl (throw RawDataError
                           (ERROR_EOF_UNBALANCED_PARENS (err_ l1) (line_num l1))),
                    l1)
            else balanced_paren_loop fuel' opening_count l1
        end
    end.

Definition balanced_paren_msg : string :=
  "consume_until_balanced_paren should end in RPAREN".

(** [consume_until_balanced_paren()]: advance until the s-expression is
    consumed, including the final parenthesis. *)
Definition consume_until_balanced_paren (l : NeurolucidaLexer)
  : option ((exn + unit) * NeurolucidaLexer) :=
  match balanced_paren_loop (loop_fuel l) 1 l with
  | None => None
  | Some (inl e, l1) => Some (inl e, l1)
  | Some (inr _, l1) =>
      match consume_token RPAREN balanced_paren_msg l1 with
      | (inl e, l2) => Some (inl e, l2)
      | (inr _, l2) => Some (inr tt, l2)
      end
  end.

(** The machine every call of [build_lexer] hands out (see
    [build_lexer_result]). *)
Definition compiled_table : state_machine := minimise (generator_build rules_).

(** The tokens of an input, as [start_parse] sees them. *)
Definition tokenize (input : list ascii) : siterator :=
  siterator_begin compiled_table input.

(** Character classes used in the statements. *)
Definition is_alpha (c : ascii) : bool :=
  sym_mem c false [Rng "a" "z"; Rng "A" "Z"].
Definition is_alnum (c : ascii) : bool :=
  sym_mem c false [Rng "0" "9"; Rng "a" "z"; Rng "A" "Z"].

Definition all_ascii : list ascii := map ascii_of_nat (List.seq 0 256).

(** Tokens the cursor never surfaces. *)
Definition is_trivia (t : match_results) : bool :=
  (id t =? to_id NEWLINE) || (id t =? to_id WS) || (id t =? to_id COMMENT).

(** ** Definitions for the statements *)

(** *** Tokens and the cursor *)

Definition is_None {A : Type} (o : option A) : bool :=
  match o with None => true | Some _ => false end.

Definition is_Nul (r : regex) : bool :=
  match r with Nul => true | _ => false end.

(** Every rule of the table is dead after [w] followed by [c]. *)
Definition dead_after (w : list ascii) (c : ascii) : bool :=
  forallb (fun ri => is_Nul (derivs (w ++ [c]) (fst ri))) compiled_table.

(** The text after a word: nothing, or something that does not start with
    a letter or a digit. *)
Definition delimited (rest : list ascii) : Prop :=
  match rest with
  | [] => True
  | c :: _ => is_alnum c = false
  end.

(** The spellings the rules for AXON, APICAL, DENDRITE and CELLBODY
    accept. *)
Definition neurite_spellings : list (list ascii * Token) :=
  [ (chars "axon", AXON); (chars "Axon", AXON);
    (chars "apical", APICAL); (chars "Apical", APICAL);
    (chars "dendrite", DENDRITE); (chars "Dendrite", DENDRITE);
    (chars "cellbody", CELLBODY); (chars "cellBody", CELLBODY);
    (chars "Cellbody", CELLBODY); (chars "CellBody", CELLBODY);
    (chars "cell body", CELLBODY); (chars "cell Body", CELLBODY);
    (chars "Cell body", CELLBODY); (chars "Cell Body", CELLBODY) ].

(** [A]..[Z] to lower case; other characters unchanged. *)
Definition to_lower (c : ascii) : ascii :=
  if (N_of_ascii "A" <=? N_of_ascii c) && (N_of_ascii c <=? N_of_ascii "Z")
  then ascii_of_N (N_of_ascii c + 32) else c.

(** The reading of "recognised case-insensitively": every spelling that
    differs from [word] in the case of letters only is one token, of kind
    [t]. *)
Definition recognised_ignoring_case (word : list ascii) (t : Token) : Prop :=
  forall w, map to_lower w = word ->
            tokenize w = [ {| id := to_id t; str := w |} ].

(** What a skip pass does, said without the loop: it drops the longest
    run of trivia at the front. *)
Fixpoint drop_trivia (it : siterator) : siterator :=
  match it with
  | [] => []
  | t :: it' => if is_trivia t then drop_trivia it' else it
  end.

Fixpoint leading_trivia (it : siterator) : list match_results :=
  match it with
  | [] => []
  | t :: it' => if is_trivia t then t :: leading_trivia it' else []
  end.

Definition is_newline (t : match_results) : bool := id t =? to_id NEWLINE.

Definition count_newlines (ts : list match_results) : nat :=
  List.length (filter is_newline ts).

(** The state [consume] leaves when the cursor has not ended. *)
Definition consumed (l : NeurolucidaLexer) : NeurolucidaLexer :=
  let l1 :=
    mkLexer (debug_ l) (err_ l) (next_ l) (drop_trivia (tl (next_ l)))
            (next_line_num_ l)
            (if is_end (next_ l) then next_line_num_ l
             else wrap (next_line_num_ l +
                        N.of_nat (count_newlines (leading_trivia (tl (next_ l))))))
            (cout l) in
  if debug_ l then state l1 else l1.

(** The tokens the cursor will surface, in order: the lookahead, then all
    that is not trivia after it. *)
Definition surfaced (l : NeurolucidaLexer) : list match_results :=
  match next_ l with
  | [] => []
  | t :: rest => t :: filter (fun t => negb (is_trivia t)) rest
  end.

(** The lexer after [n] calls of [consume()]. *)
Fixpoint advance (n : nat) (l : NeurolucidaLexer) : NeurolucidaLexer :=
  match n with
  | O => l
  | S n' => advance n' (snd (consume l))
  end.

(** The depth count in the words of the specification: up on [LPAREN],
    down on [RPAREN]. *)
Definition paren_step (depth : nat) (i : N) : nat :=
  if i =? to_id RPAREN then pred depth
  else if i =? to_id LPAREN then S depth
  else depth.

(** Index of the first token at which the depth reaches 0, if there is
    one. *)
Fixpoint closing_paren (depth : nat) (ids : list N) : option nat :=
  match ids with
  | [] => None
  | i :: ids' =>
      if (paren_step depth i =? 0)%nat then Some O
      else option_map S (closing_paren (paren_step depth i) ids')
  end.

(** A lexer in the middle of a parse, for the instances below: the cursor
    is on the opening parenthesis of a block to be skipped. *)
Definition lexer_on_block : NeurolucidaLexer :=
  snd (fst (start_parse (chars "(Color (RGB 1, 2, 3) Red) (Axon)") []
                        (new_lexer "cell.asc" false))).

(** The tokens of the stream [all] that come before the position of the
    iterator [it]. *)
Definition tokens_before (all it : siterator) : list match_results :=
  firstn (List.length all - List.length it) all.

(** The line a position is on: 1 plus the NEWLINE tokens before it. *)
Definition line_of (all it : siterator) : N :=
  1 + N.of_nat (count_newlines (tokens_before all it)).

(** The lexer a fresh [NeurolucidaLexer] becomes by [start_parse(input)]. *)
Definition started (path : string) (debug : bool) (input : list ascii)
  : NeurolucidaLexer :=
  snd (fst (start_parse input [] (new_lexer path debug))).

(** Both iterators are positions in [all], each line counter is the line
    of its iterator, and the lookahead is not on trivia. *)
Definition lines_in_step (all : siterator) (l : NeurolucidaLexer) : Prop :=
  exists pre_c pre_n,
    all = pre_c ++ current_ l /\
    all = pre_n ++ next_ l /\
    current_line_num_ l = wrap (1 + N.of_nat (count_newlines pre_c)) /\
    next_line_num_ l = wrap (1 + N.of_nat (count_newlines pre_n)) /\
    is_trivia (deref (next_ l)) = false.

(** *** Processes *)

(** What a process can do with a lexer. *)
Inductive operation : Set :=
| op_build_lexer
| op_start_parse (input : list ascii)
| op_consume
| op_consume_token (t : Token) (msg : string)
| op_expect (t : Token) (msg : string)
| op_consume_until (endpoint : Token)
| op_consume_until_balanced_paren.

(** A process: the static of [build_lexer], how often the generator has
    run so far (kept for the statements; the program has no such
    counter), and a lexer. *)
Record process : Set := {
  static_sm : state_machine;
  builds : nat;
  lexer : NeurolucidaLexer
}.

Definition fresh_process (path : string) (debug : bool) : process :=
  {| static_sm := []; builds := O; lexer := new_lexer path debug |}.

Definition after {A : Type} (l : NeurolucidaLexer)
    (r : option ((exn + A) * NeurolucidaLexer)) : NeurolucidaLexer :=
  match r with
  | Some (_, l') => l'
  | None => l
  end.

Definition with_lexer (p : process) (l : NeurolucidaLexer) : process :=
  {| static_sm := static_sm p; builds := builds p; lexer := l |}.

Definition with_build (p : process) (l : NeurolucidaLexer) : process :=
  let r := build_lexer (static_sm p) in
  {| static_sm := snd (fst r);
     builds := builds p + (if snd r then 1 else 0);
     lexer := l |}.

Definition run_operation (p : process) (o : operation) : process :=
  match o with
  | op_build_lexer => with_build p (lexer p)
  | op_start_parse input =>
      let r := start_parse input (static_sm p) (lexer p) in
      {| static_sm := snd r;
         builds := builds p + (if snd (build_lexer (static_sm p)) then 1 else 0);
         lexer := snd (fst r) |}
  | op_consume => with_lexer p (snd (consume (lexer p)))
  | op_consume_token t msg => with_lexer p (snd (consume_token t msg (lexer p)))
  | op_expect t msg => with_lexer p (snd (expect t msg (lexer p)))
  | op_consume_until t => with_lexer p (after (lexer p) (consume_until t (lexer p)))
  | op_consume_until_balanced_paren =>
      with_lexer p (after (lexer p) (consume_until_balanced_paren (lexer p)))
  end.

Definition run_operations (p : process) (ops : list operation) : process :=
  fold_left run_operation ops p.

(** *** Reading a file, and the exceptions of the Python module *)

(** Modelled from the spec: the ASC parser and the section builder are
    not part of these sources.  By the specification they consume the
    cursor that [start_parse] has set up and either produce a Canonical
    Properties value or fail with the first error met; tokenizing, parsing
    and flattening are one blocking call, and no state is shared across
    parses. *)
Definition parser_and_builder (CanonicalProperties : Type) : Type :=
  NeurolucidaLexer -> exn + CanonicalProperties.

(** The exception classes as the Python module registers them: one entry
    per [py::register_exception], with the base it is given ([None] when
    the call names no base). *)
Definition registered : list (exception_class * option exception_class) :=
  [ (MorphioError, None);
    (RawDataError, Some MorphioError);
    (UnknownFileType, Some MorphioError);
    (SomaError, Some MorphioError);
    (IDSequenceError, Some RawDataError);
    (MultipleTrees, Some RawDataError);
    (MissingParentError, Some RawDataError);
    (SectionBuilderError, Some RawDataError) ].

Definition exception_class_eqb (a b : exception_class) : bool :=
  match a, b with
  | MorphioError, MorphioError | RawDataError, RawDataError
  | UnknownFileType, UnknownFileType | SomaError, SomaError
  | IDSequenceError, IDSequenceError | MultipleTrees, MultipleTrees
  | MissingParentError, MissingParentError
  | SectionBuilderError, SectionBuilderError => true
  | _, _ => false
  end.

Fixpoint base_in (reg : list (exception_class * option exception_class))
    (c : exception_class) : option exception_class :=
  match reg with
  | [] => None
  | (c', b) :: reg' => if exception_class_eqb c c' then b else base_in reg' c
  end.

(** The base a class is registered with. *)
Definition base_of (c : exception_class) : option exception_class :=
  base_in registered c.

Fixpoint is_subclass_upto (fuel : nat) (c d : exception_class) : bool :=
  exception_class_eqb c d ||
  match fuel with
  | O => false
  | S fuel' =>
      match base_of c with
      | Some b => is_subclass_upto fuel' b d
      | None => false
      end
  end.

(** [c] is [d] or is derived from it, through the registered bases. *)
Definition is_subclass (c d : exception_class) : bool :=
  is_subclass_upto (List.length registered) c d.

Section ReadingModel.

Variable CanonicalProperties : Type.

Variable parse : parser_and_builder CanonicalProperties.

(** One read of a file in a process whose [build_lexer] static is
    [static]: a new lexer, [start_parse], then the parser and the builder.
    The result comes with the static after the read. *)
Definition read (static : state_machine) (path : string) (input : list ascii)
  : (exn + CanonicalProperties) * state_machine :=
  let r := start_parse input static (new_lexer path false) in
  (match fst (fst r) with
   | inl e => inl e
   | inr _ => parse (snd (fst r))
   end, snd r).

(** The tokens a read gets from the iterator it builds. *)
Definition tokens_of_read (static : state_machine) (input : list ascii)
  : siterator :=
  siterator_begin (fst (fst (build_lexer static))) input.

End ReadingModel.

Arguments read {CanonicalProperties} parse static path input.

(** ** Definitions for further properties *)

(** *** The cursor *)

(** The operations on a lexer that has been started. *)
Definition cursor_op (o : operation) : bool :=
  match o with
  | op_build_lexer | op_start_parse _ => false
  | _ => true
  end.

(** Position of the first [i] in [ids]. *)
Fixpoint first_index (i : N) (ids : list N) : option nat :=
  match ids with
  | [] => None
  | j :: ids' => if j =? i then Some O else option_map S (first_index i ids')
  end.

(** How many of [ids] are the id of [t]. *)
Definition count_id (t : Token) (ids : list N) : nat :=
  List.length (filter (fun i => i =? to_id t) ids).

(** The lexer with its debug flag set to [b]. *)
Definition set_debug (b : bool) (l : NeurolucidaLexer) : NeurolucidaLexer :=
  mkLexer b (err_ l) (current_ l) (next_ l)
          (current_line_num_ l) (next_line_num_ l) (cout l).

(** Two lexers that differ at most in the debug flag and in what they
    have printed. *)
Definition same_cursor (l1 l2 : NeurolucidaLexer) : Prop :=
  err_ l1 = err_ l2 /\ current_ l1 = current_ l2 /\ next_ l1 = next_ l2 /\
  current_line_num_ l1 = current_line_num_ l2 /\
  next_line_num_ l1 = next_line_num_ l2.

(** The lookahead is not trivia, and the current token is trivia only
    while it is still the first token of [toks]. *)
Definition trivia_only_first (toks : siterator) (l : NeurolucidaLexer) : Prop :=
  is_trivia (deref (peek l)) = false /\
  (is_trivia (deref (current l)) = false \/ current l = toks).

(** Two runs agree: both out of fuel, or the same outcome on lexers with
    the same cursor. *)
Definition same_run {A : Type}
    (r1 r2 : option ((exn + A) * NeurolucidaLexer)) : Prop :=
  match r1, r2 with
  | Some (o1, a1), Some (o2, a2) => o1 = o2 /\ same_cursor a1 a2
  | None, None => True
  | _, _ => False
  end.

(** Nothing is printed while the debug flag is off. *)
Definition quiet (l : NeurolucidaLexer) : Prop :=
  debug_ l = false /\ cout l = [].

(** *** Tokens and their text *)

(** The section types this file names (the enumeration itself is declared
    in a header outside these sources). *)
Inductive SectionType : Set :=
| SECTION_AXON | SECTION_APICAL_DENDRITE | SECTION_DENDRITE.

(** [TokenToSectionType(t)]; the error is the class thrown and its
    message. *)
Definition TokenToSectionType (t : Token)
  : (exception_class * string) + SectionType :=
  if to_id t =? to_id AXON then inr SECTION_AXON
  else if to_id t =? to_id APICAL then inr SECTION_APICAL_DENDRITE
  else if to_id t =? to_id DENDRITE then inr SECTION_DENDRITE
  else inl (RawDataError, "Could not convert token to sectin"%string).

(** The enumerators of [Token]. *)
Definition all_tokens : list Token :=
  [ EOF_; WS; NEWLINE; COMMENT; LPAREN; RPAREN; LSPINE; RSPINE; COMMA; PIPE;
    WORD; STRING; NUMBER; AXON; APICAL; DENDRITE; CELLBODY; COLOR; FONT;
    MARKER; RGB; GENERATED; HIGH; INCOMPLETE; LOW; NORMAL; MIDPOINT; ORIGIN ].

(** The strings of a pattern that has finitely many, listed; [None] for a
    pattern with a star, a range or a negated set. *)
Fixpoint words (r : regex) : option (list (list ascii)) :=
  match r with
  | Nul => Some []
  | Eps => Some [[]]
  | Sym false items =>
      if forallb (fun i => match i with One _ => true | Rng _ _ => false end) items
      then Some (flat_map (fun i => match i with
                                    | One c => [[c]]
                                    | Rng _ _ => []
                                    end) items)
      else None
  | Sym true _ => None
  | Cat r1 r2 =>
      match words r1, words r2 with
      | Some w1, Some w2 =>
          Some (flat_map (fun a => map (fun b => a ++ b) w2) w1)
      | _, _ => None
      end
  | Alt r1 r2 =>
      match words r1, words r2 with
      | Some w1, Some w2 => Some (w1 ++ w2)
      | _, _ => None
      end
  | Star _ => None
  end.

(** The strings of all rules of [sm] with the id [i], when every such rule
    has finitely many. *)
Fixpoint spellings (sm : state_machine) (i : N) : option (list (list ascii)) :=
  match sm with
  | [] => Some []
  | (r, j) :: sm' =>
      if j =? i then
        match words r, spellings sm' i with
        | Some w1, Some w2 => Some (w1 ++ w2)
        | _, _ => None
        end
      else spellings sm' i
  end.

(** The kinds of token with one fixed text, and that text. *)
Definition fixed_lexemes : list (Token * list ascii) :=
  [ (NEWLINE, [LF]); (LPAREN, chars "("); (RPAREN, chars ")");
    (RSPINE, chars ")>"); (COMMA, chars ","); (PIPE, chars "|");
    (COLOR, chars "Color"); (FONT, chars "Font");
    (GENERATED, chars "Generated"); (HIGH, chars "High");
    (INCOMPLETE, chars "Incomplete"); (LOW, chars "Low");
    (NORMAL, chars "Normal"); (MIDPOINT, chars "Midpoint");
    (ORIGIN, chars "Origin") ].

(** The words that make a section type, each with its type. *)
Definition section_words : list (list ascii * SectionType) :=
  [ (chars "axon", SECTION_AXON); (chars "Axon", SECTION_AXON);
    (chars "apical", SECTION_APICAL_DENDRITE);
    (chars "Apical", SECTION_APICAL_DENDRITE);
    (chars "dendrite", SECTION_DENDRITE); (chars "Dendrite", SECTION_DENDRITE) ].

(** *** Tokens made of a run of characters *)

Definition item_eqb (a b : item) : bool :=
  match a, b with
  | One c, One d => Ascii.eqb c d
  | Rng l h, Rng l' h' => Ascii.eqb l l' && Ascii.eqb h h'
  | _, _ => false
  end.

Fixpoint items_eqb (a b : list item) : bool :=
  match a, b with
  | [], [] => true
  | x :: a', y :: b' => item_eqb x y && items_eqb a' b'
  | _, _ => false
  end.

Fixpoint regex_eqb (a b : regex) : bool :=
  match a, b with
  | Nul, Nul => true
  | Eps, Eps => true
  | Sym n l, Sym n' l' => Bool.eqb n n' && items_eqb l l'
  | Cat a1 a2, Cat b1 b2 => regex_eqb a1 b1 && regex_eqb a2 b2
  | Alt a1 a2, Alt b1 b2 => regex_eqb a1 b1 && regex_eqb a2 b2
  | Star a1, Star b1 => regex_eqb a1 b1
  | _, _ => false
  end.

(** [f] holds of every character that [P] holds of. *)
Definition all_chars (P f : ascii -> bool) : bool :=
  forallb (fun c => implb (P c) (f c)) all_ascii.

(** The residual [R] of a rule matches here, stays as it is under the
    characters of [P], and dies at those of [Q]. *)
Definition grows (P Q : ascii -> bool) (R : regex) : bool :=
  nullable R &&
  all_chars P (fun c => regex_eqb (deriv c R) R) &&
  all_chars Q (fun c => is_Nul (deriv c R)).

(** The residual [R] dies at the characters of [P] and of [Q]. *)
Definition stops (P Q : ascii -> bool) (R : regex) : bool :=
  all_chars (fun c => P c || Q c) (fun c => is_Nul (deriv c R)).

(** The id of the first rule of [sm] that, after [w], grows; provided the
    rules before it stop without matching [w], and those after it grow or
    stop. *)
Fixpoint run_winner (P Q : ascii -> bool) (w : list ascii) (sm : state_machine)
  : option N :=
  match sm with
  | [] => None
  | (r, i) :: sm' =>
      if grows P Q (derivs w r) then
        if forallb (fun ri => grows P Q (derivs w (fst ri)) ||
                              stops P Q (derivs w (fst ri))) sm'
        then Some i else None
      else if stops P Q (derivs w r) && negb (nullable (derivs w r))
           then run_winner P Q w sm'
           else None
  end.

Definition is_Some_id (o : option N) (i : N) : bool :=
  match o with Some j => j =? i | None => false end.

Definition is_digit (c : ascii) : bool := sym_mem c false [Rng "0" "9"].
Definition is_blank (c : ascii) : bool :=
  sym_mem c false [One " "; One TAB; One CR].
Definition not_alnum (c : ascii) : bool := negb (is_alnum c).
Definition not_LF (c : ascii) : bool := negb (Ascii.eqb c LF).
Definition is_LF (c : ascii) : bool := Ascii.eqb c LF.
Definition not_blank (c : ascii) : bool := negb (is_blank c).
(** What may follow an integer: no letter, digit or point. *)
Definition ends_integer (c : ascii) : bool :=
  negb (is_alnum c) && negb (Ascii.eqb c ".").

(** The text after a run: nothing, or something that starts with a
    character of [Q]. *)
Definition followed_by (Q : ascii -> bool) (rest : list ascii) : Prop :=
  match rest with
  | [] => True
  | c :: _ => Q c = true
  end.

(** The names of the markers, as [build_lexer] pushes them. *)
Definition marker_names : list string :=
  [ "Dot"; "Plus"; "Cross"; "Splat"; "Flower"; "Circle"; "Flower"; "TriStar";
    "OpenStar"; "Asterisk"; "SnowFlake"; "OpenCircle"; "ShadedStar";
    "FilledStar"; "TexacoStar"; "MoneyGreen"; "DarkYellow"; "OpenSquare";
    "OpenDiamond"; "CircleArrow"; "CircleCross"; "OpenQuadStar";
    "DoubleCircle"; "FilledSquare"; "MalteseCross"; "FilledCircle";
    "FilledDiamond"; "FilledQuadStar"; "OpenUpTriangle"; "FilledUpTriangle";
    "OpenDownTriangle"; "FilledDownTriangle" ]%string.

(** An integer begins with a digit, or with a sign and a digit. *)
Definition integer_head (w : list ascii) : bool :=
  match w with
  | [d] => is_digit d
  | [s; d] => (Ascii.eqb s "+" || Ascii.eqb s "-") && is_digit d
  | _ => false
  end.

(** *** The text of words, strings and lines *)

(** The patterns of the rules of [sm] with the id [i]. *)
Definition rules_with_id (sm : state_machine) (i : N) : list regex :=
  map fst (filter (fun ri => snd ri =? i) sm).

(** No string that [r] matches holds the character [c]. *)
Fixpoint never_has (c : ascii) (r : regex) : bool :=
  match r with
  | Nul | Eps => true
  | Sym n l => negb (sym_mem c n l)
  | Cat r1 r2 | Alt r1 r2 => never_has c r1 && never_has c r2
  | Star r1 => never_has c r1
  end.

(** The number of line feeds in a text. *)
Definition count_LF (s : list ascii) : nat :=
  List.length (filter (Ascii.eqb LF) s).

Definition not_DQUOTE (c : ascii) : bool := negb (Ascii.eqb c DQUOTE).

(** The reserved words, each with its kind. *)
Definition reserved_words : list (list ascii * Token) :=
  [ (chars "Color", COLOR); (chars "Font", FONT);
    (chars "Generated", GENERATED); (chars "High", HIGH);
    (chars "Incomplete", INCOMPLETE); (chars "Low", LOW);
    (chars "Normal", NORMAL); (chars "Midpoint", MIDPOINT);
    (chars "Origin", ORIGIN) ].

(** The characters some pattern of the table begins with. *)
Definition starts_token (c : ascii) : bool :=
  is_alnum c ||
  existsb (Ascii.eqb c)
          [LF; " "%char; TAB; CR; ";"%char; "("%char; ")"%char; "<"%char;
           ","%char; "|"%char; DQUOTE; "+"%char; "-"%char].

(** *** A parse as a client of the lexer *)

(** The [ErrorMessages] and the line a diagnostic was asked for with. *)
Definition diagnostic_err (d : diagnostic) : ErrorMessages :=
  match d with
  | ERROR_EOF_REACHED err _ => err
  | ERROR_UNEXPECTED_TOKEN err _ _ _ _ => err
  | ERROR_EOF_UNBALANCED_PARENS err _ => err
  end.

Definition diagnostic_line (d : diagnostic) : N :=
  match d with
  | ERROR_EOF_REACHED _ line => line
  | ERROR_UNEXPECTED_TOKEN _ line _ _ _ => line
  | ERROR_EOF_UNBALANCED_PARENS _ line => line
  end.

Definition returned {A : Type} (r : exn + A) : exn + unit :=
  match r with
  | inl e => inl e
  | inr _ => inr tt
  end.

(** What a call of an operation hands to its caller: a normal return or
    the exception thrown ([None]: the loop of the model ran out of fuel).
    The lexer after the call is that of [run_operation]. *)
Definition outcome (p : process) (o : operation) : option (exn + unit) :=
  match o with
  | op_build_lexer => Some (inr tt)
  | op_start_parse input =>
      Some (fst (fst (start_parse input (static_sm p) (lexer p))))
  | op_consume => Some (returned (fst (consume (lexer p))))
  | op_consume_token t msg => Some (returned (fst (consume_token t msg (lexer p))))
  | op_expect t msg => Some (fst (expect t msg (lexer p)))
  | op_consume_until t => option_map fst (consume_until t (lexer p))
  | op_consume_until_balanced_paren =>
      option_map fst (consume_until_balanced_paren (lexer p))
  end.

(** The exception [e] is a RawDataError made by the [ErrorMessages] of the
    lexer [l], for the line the lexer [l'] is on. *)
Definition raised_by (l l' : NeurolucidaLexer) (e : exn) : Prop :=
  exn_class e = RawDataError /\
  diagnostic_err (what e) = err_ l /\
  diagnostic_line (what e) = line_num l'.

(** Where the exception of a failed parse was thrown: in an operation of
    the lexer, in [TokenToSectionType], or in the parser and the section
    builder themselves. *)
Inductive failure : Set :=
| cursor_failure (e : exn)
| conversion_failure (c : exception_class) (msg : string)
| parser_failure (c : exception_class) (msg : string).

Definition failure_class (f : failure) : exception_class :=
  match f with
  | cursor_failure e => exn_class e
  | conversion_failure c _ => c
  | parser_failure c _ => c
  end.

(** Modelled from the spec: the ASC parser and the section builder are
    not part of these sources.  By the specification a parse is one
    blocking call that drives the cursor through its operations; the first
    error detected is fatal to it (no retry, no partial tree); it ends in a
    Canonical Properties value or in one error of the taxonomy.  A parser
    is kept here as the tree of what it does: it returns its value, throws
    an error of its own, calls an operation of the lexer and goes on from
    the lexer it then sees, or converts a kind of token with
    [TokenToSectionType] and goes on from the section type. *)
Inductive parse_program (CanonicalProperties : Type) : Type :=
| finish (cp : CanonicalProperties)
| fail (c : exception_class) (msg : string)
| call (o : operation)
       (next : NeurolucidaLexer -> parse_program CanonicalProperties)
| convert (t : Token) (next : SectionType -> parse_program CanonicalProperties).

Arguments finish {CanonicalProperties} cp.
Arguments fail {CanonicalProperties} c msg.
Arguments call {CanonicalProperties} o next.
Arguments convert {CanonicalProperties} t next.

(** Modelled from the spec: running a parser in a process.  An exception
    of the lexer or of [TokenToSectionType] is not caught: it ends the
    parse.  The result comes with the process as the parse leaves it. *)
Fixpoint run_parse {CanonicalProperties : Type}
    (prog : parse_program CanonicalProperties) (p : process)
  : option ((failure + CanonicalProperties) * process) :=
  match prog with
  | finish cp => Some (inr cp, p)
  | fail c msg => Some (inl (parser_failure c msg), p)
  | call o next =>
      match outcome p o with
      | None => None
      | Some (inl e) => Some (inl (cursor_failure e), run_operation p o)
      | Some (inr _) =>
          run_parse (next (lexer (run_operation p o))) (run_operation p o)
      end
  | convert t next =>
      match TokenToSectionType t with
      | inl (c, msg) => Some (inl (conversion_failure c msg), p)
      | inr st => run_parse (next st) p
      end
  end.

(** [Token(id)]: the kind of token with an id, when there is one. *)
Definition token_of_id (i : N) : option Token :=
  find (fun t => to_id t =? i) all_tokens.

(** A small parser, for the instances: it starts on the input, skips one
    block in parentheses and gives the section type of the token that
    opens the next block. *)
Definition first_section_type (input : list ascii) : parse_program SectionType :=
  call (op_start_parse input) (fun _ =>
  call (op_consume_token LPAREN "") (fun _ =>
  call op_consume_until_balanced_paren (fun _ =>
  call (op_consume_token LPAREN "") (fun l =>
  match token_of_id (id (deref (current l))) with
  | Some t => convert t (fun st => finish st)
  | None => fail RawDataError "Unknown token"
  end)))).

(** Every base named in a registration is a class registered before it:
    the call needs the Python object of the base. *)
Fixpoint bases_first (seen : list exception_class)
    (reg : list (exception_class * option exception_class)) : bool :=
  match reg with
  | [] => true
  | (c, b) :: reg' =>
      match b with
      | None => true
      | Some b' => existsb (exception_class_eqb b') seen
      end && bases_first (c :: seen) reg'
  end.

(** * Properties *)

(** ** The matcher *)

Section MatcherFacts.

Lemma in_all_ascii (c : ascii) : In c all_ascii.
Proof.
  unfold all_ascii. rewrite <- (ascii_nat_embedding c).
  apply in_map, in_seq. pose proof (nat_ascii_bounded c). lia.
Qed.

Lemma longest_Nul (s : list ascii) : longest Nul s = None.
Proof. induction s as [|c s IH]; simpl; [reflexivity | now rewrite IH]. Qed.

(** Once the residual of [r] is [Nul], what follows cannot lengthen the
    match. *)
Lemma longest_dead (w : list ascii) :
  forall (r : regex) (c : ascii) (rest : list ascii),
    derivs (w ++ [c]) r = Nul ->
    longest r (w ++ c :: rest) = longest r w.
Proof.
  induction w as [|a w IH]; intros r c rest H.
  - simpl in *. unfold derivs in H. simpl in H. rewrite H.
    now rewrite longest_Nul.
  - simpl. simpl in H. rewrite (IH (deriv a r) c rest); [reflexivity|exact H].
Qed.

Lemma longest_bound (s : list ascii) :
  forall r n, longest r s = Some n -> (n <= List.length s)%nat.
Proof.
  induction s as [|c s IH]; intros r n; simpl.
  - destruct (nullable r); intros H; inversion H; lia.
  - destruct (longest (deriv c r) s) as [m|] eqn:E.
    + intros H; inversion H; subst. apply IH in E. lia.
    + destruct (nullable r); intros H; inversion H; lia.
Qed.

Lemma best_match_ext (sm : state_machine) (s s' : list ascii) :
  (forall r i, In (r, i) sm -> longest r s = longest r s') ->
  best_match sm s = best_match sm s'.
Proof.
  induction sm as [|[r i] sm IH]; intros H; simpl; [reflexivity|].
  rewrite (H r i (or_introl eq_refl)).
  rewrite IH; [reflexivity|].
  intros r' i' Hin. apply (H r' i'). now right.
Qed.

Lemma best_match_bound (sm : state_machine) (s : list ascii) :
  forall n i, best_match sm s = Some (n, i) ->
              (0 < n <= List.length s)%nat.
Proof.
  induction sm as [|[r j] sm IH]; intros n i; simpl; [discriminate|].
  destruct (longest r s) as [[|k]|] eqn:E.
  - apply IH.
  - apply longest_bound in E.
    destruct (best_match sm s) as [[m j']|] eqn:B.
    + destruct (S k <? m)%nat; intros H; inversion H; subst.
      * now apply (IH n i).
      * lia.
    + intros H; inversion H; subst. lia.
  - apply IH.
Qed.

End MatcherFacts.

(** ** The matcher against the language of a pattern *)

Section RegexSemantics.

Lemma matches_Nul (s : list ascii) : ~ matches Nul s.
Proof. intros H. inversion H. Qed.

Lemma matches_Cat_inv (r1 r2 : regex) (s : list ascii) :
  matches (Cat r1 r2) s ->
  exists s1 s2, s = s1 ++ s2 /\ matches r1 s1 /\ matches r2 s2.
Proof. intros H. inversion H; subst. now exists s1, s2. Qed.

Lemma matches_Alt_inv (r1 r2 : regex) (s : list ascii) :
  matches (Alt r1 r2) s -> matches r1 s \/ matches r2 s.
Proof. intros H. inversion H; subst; [now left | now right]. Qed.

Lemma cat_spec (a b : regex) (s : list ascii) :
  matches (cat a b) s <-> matches (Cat a b) s.
Proof.
  assert (HN1 : forall r, matches Nul s <-> matches (Cat Nul r) s).
  { intros r. split; intros H; [now apply matches_Nul in H|].
    apply matches_Cat_inv in H. destruct H as (s1 & s2 & _ & H & _).
    now apply matches_Nul in H. }
  assert (HN2 : forall r, matches Nul s <-> matches (Cat r Nul) s).
  { intros r. split; intros H; [now apply matches_Nul in H|].
    apply matches_Cat_inv in H. destruct H as (s1 & s2 & _ & _ & H).
    now apply matches_Nul in H. }
  assert (HE : forall r, matches r s <-> matches (Cat Eps r) s).
  { intros r. split; intros H.
    - change s with ([] ++ s). apply m_cat; [constructor | exact H].
    - apply matches_Cat_inv in H. destruct H as (s1 & s2 & Hs & H1 & H2).
      inversion H1; subst. exact H2. }
  destruct a; destruct b; cbn [cat];
    try apply HN1; try apply HN2; try apply HE; reflexivity.
Qed.

Lemma alt_spec (a b : regex) (s : list ascii) :
  matches (alt a b) s <-> matches (Alt a b) s.
Proof.
  assert (HL : forall r, matches r s <-> matches (Alt Nul r) s).
  { intros r. split; intros H; [now apply m_alt_r|].
    apply matches_Alt_inv in H. destruct H as [H|H]; [now apply matches_Nul in H | exact H]. }
  assert (HR : forall r, matches r s <-> matches (Alt r Nul) s).
  { intros r. split; intros H; [now apply m_alt_l|].
    apply matches_Alt_inv in H. destruct H as [H|H]; [exact H | now apply matches_Nul in H]. }
  destruct a; destruct b; cbn [alt];
    try apply HL; try apply HR; reflexivity.
Qed.

Lemma nullable_spec (r : regex) : nullable r = true <-> matches r [].
Proof.
  induction r as [| |n l|r1 IH1 r2 IH2|r1 IH1 r2 IH2|r IH]; cbn [nullable].
  - split; [discriminate | intros H; inversion H].
  - split; [constructor | reflexivity].
  - split; [discriminate | intros H; inversion H].
  - rewrite andb_true_iff, IH1, IH2. split.
    + intros [H1 H2]. change (@nil ascii) with (@nil ascii ++ []). now apply m_cat.
    + intros H. apply matches_Cat_inv in H. destruct H as (s1 & s2 & Hs & H1 & H2).
      symmetry in Hs. apply app_eq_nil in Hs. destruct Hs; subst. now split.
  - rewrite orb_true_iff, IH1, IH2. split.
    + intros [H|H]; [now apply m_alt_l | now apply m_alt_r].
    + apply matches_Alt_inv.
  - split; [constructor | reflexivity].
Qed.

Lemma star_cons_inv (r : regex) (c : ascii) (s : list ascii) :
  matches (Star r) (c :: s) ->
  exists s1 s2, s = s1 ++ s2 /\ matches r (c :: s1) /\ matches (Star r) s2.
Proof.
  intros H. remember (Star r) as r0 eqn:Er. remember (c :: s) as s0 eqn:Es.
  revert s Es.
  induction H as [| | | | | |r' s1 s2 H1 _ H2 IH2]; intros t Et; try discriminate.
  inversion Er; subst r'.
  destruct s1 as [|c1 s1].
  - cbn [app] in Et. now apply IH2.
  - cbn [app] in Et. inversion Et; subst. now exists s1, s2.
Qed.

Lemma deriv_spec (c : ascii) (r : regex) :
  forall s, matches (deriv c r) s <-> matches r (c :: s).
Proof.
  induction r as [| |n l|r1 IH1 r2 IH2|r1 IH1 r2 IH2|r IH]; intros s; cbn [deriv].
  - split; intros H; inversion H.
  - split; intros H; inversion H.
  - destruct (sym_mem c n l) eqn:E; split; intros H.
    + inversion H; subst. now constructor.
    + inversion H; subst. constructor.
    + inversion H.
    + inversion H; subst. congruence.
  - rewrite alt_spec. split; intros H.
    + apply matches_Alt_inv in H. destruct H as [H|H].
      * apply cat_spec, matches_Cat_inv in H. destruct H as (s1 & s2 & Hs & H1 & H2).
        subst s. apply IH1 in H1. change (c :: s1 ++ s2) with ((c :: s1) ++ s2).
        now apply m_cat.
      * destruct (nullable r1) eqn:N; [|now apply matches_Nul in H].
        apply nullable_spec in N. apply IH2 in H.
        change (c :: s) with ([] ++ c :: s). now apply m_cat.
    + apply matches_Cat_inv in H. destruct H as (s1 & s2 & Hs & H1 & H2).
      destruct s1 as [|c1 s1].
      * cbn [app] in Hs. subst s2. apply m_alt_r.
        apply nullable_spec in H1. rewrite H1. now apply IH2.
      * cbn [app] in Hs. inversion Hs; subst. apply m_alt_l, cat_spec.
        apply m_cat; [now apply IH1 | exact H2].
  - rewrite alt_spec. split; intros H.
    + apply matches_Alt_inv in H. destruct H as [H|H];
        [apply m_alt_l; now apply IH1 | apply m_alt_r; now apply IH2].
    + apply matches_Alt_inv in H. destruct H as [H|H];
        [apply m_alt_l; now apply IH1 | apply m_alt_r; now apply IH2].
  - rewrite cat_spec. split; intros H.
    + apply matches_Cat_inv in H. destruct H as (s1 & s2 & Hs & H1 & H2).
      subst s. apply IH in H1. change (c :: s1 ++ s2) with ((c :: s1) ++ s2).
      now apply m_star_cons.
    + apply star_cons_inv in H. destruct H as (s1 & s2 & Hs & H1 & H2).
      subst s. apply m_cat; [now apply IH | exact H2].
Qed.

(** [longest] finds the longest prefix in the language of the pattern. *)
Lemma longest_spec (s : list ascii) :
  forall r,
    match longest r s with
    | Some n =>
        (n <= List.length s)%nat /\ matches r (firstn n s) /\
        forall m, (n < m <= List.length s)%nat -> ~ matches r (firstn m s)
    | None => forall m, (m <= List.length s)%nat -> ~ matches r (firstn m s)
    end.
Proof.
  induction s as [|c s IH]; intros r; cbn [longest].
  - destruct (nullable r) eqn:N.
    + split; [cbn; lia|]. split; [now apply nullable_spec|]. cbn. intros m Hm. lia.
    + intros m Hm. rewrite firstn_nil. intros H. apply nullable_spec in H. congruence.
  - specialize (IH (deriv c r)).
    destruct (longest (deriv c r) s) as [n|].
    + destruct IH as (Hn & Hm & Hmax). split; [cbn; lia|]. split.
      * cbn [firstn]. now apply deriv_spec.
      * intros m Hlt. destruct m as [|m]; [lia|]. cbn [firstn].
        intros H. apply deriv_spec in H. apply (Hmax m); [cbn in Hlt; lia | exact H].
    + destruct (nullable r) eqn:N.
      * split; [cbn; lia|]. split; [now apply nullable_spec|].
        intros m Hlt. destruct m as [|m]; [lia|]. cbn [firstn].
        intros H. apply deriv_spec in H. apply (IH m); [cbn in Hlt; lia | exact H].
      * intros m Hle. destruct m as [|m].
        -- cbn [firstn]. intros H. apply nullable_spec in H. congruence.
        -- cbn [firstn]. intros H. apply deriv_spec in H.
           apply (IH m); [cbn in Hle; lia | exact H].
Qed.

(** A rule whose [longest] is not positive matches no prefix that is not
    empty. *)
Lemma longest_not_positive (r : regex) (s : list ascii) :
  match longest r s with Some (S _) => False | _ => True end ->
  forall m, (0 < m <= List.length s)%nat -> ~ matches r (firstn m s).
Proof.
  intros H m Hm. pose proof (longest_spec s r) as L.
  destruct (longest r s) as [[|k]|].
  - destruct L as (_ & _ & L). apply L. lia.
  - destruct H.
  - apply L. lia.
Qed.

Lemma best_match_None_spec (sm : state_machine) (s : list ascii) :
  best_match sm s = None ->
  forall r i m, In (r, i) sm -> (0 < m <= List.length s)%nat ->
                ~ matches r (firstn m s).
Proof.
  induction sm as [|[r0 i0] sm IH]; intros B r i m Hin Hm; [destruct Hin|].
  cbn [best_match] in B.
  destruct (longest r0 s) as [[|k]|] eqn:E.
  - destruct Hin as [Heq|Hin]; [|now apply (IH B r i)].
    inversion Heq; subst. apply longest_not_positive; [now rewrite E | exact Hm].
  - destruct (best_match sm s) as [[m' j]|]; [|discriminate].
    destruct (S k <? m')%nat; discriminate.
  - destruct Hin as [Heq|Hin]; [|now apply (IH B r i)].
    inversion Heq; subst. apply longest_not_positive; [now rewrite E | exact Hm].
Qed.

(** [best_match] is the longest match, and among the rules that match
    that much, the one pushed first. *)
Lemma best_match_spec (sm : state_machine) (s : list ascii) :
  forall n i,
    best_match sm s = Some (n, i) ->
    (0 < n <= List.length s)%nat /\
    exists earlier r later,
      sm = earlier ++ (r, i) :: later /\
      matches r (firstn n s) /\
      (forall r' i', In (r', i') earlier -> ~ matches r' (firstn n s)) /\
      (forall r' i' m, In (r', i') sm -> (n < m <= List.length s)%nat ->
                       ~ matches r' (firstn m s)).
Proof.
  induction sm as [|[r0 i0] sm IH]; intros n i B; [discriminate|].
  split; [now apply (best_match_bound _ _ _ _ B)|].
  cbn [best_match] in B.
  pose proof (longest_spec s r0) as L.
  assert (Hrest : forall n' j,
             best_match sm s = Some (n', j) ->
             (forall m, (n' <= m <= List.length s)%nat -> ~ matches r0 (firstn m s)) ->
             exists earlier r later,
               (r0, i0) :: sm = earlier ++ (r, j) :: later /\
               matches r (firstn n' s) /\
               (forall r' i', In (r', i') earlier -> ~ matches r' (firstn n' s)) /\
               (forall r' i' m, In (r', i') ((r0, i0) :: sm) ->
                                (n' < m <= List.length s)%nat ->
                                ~ matches r' (firstn m s))).
  { intros n' j B' Hr0.
    destruct (IH n' j B') as (Hn & earlier & r & later & Hsm & Hm & He & Hl).
    exists ((r0, i0) :: earlier), r, later. repeat split.
    - now rewrite Hsm.
    - exact Hm.
    - intros r' i' [Heq|Hin]; [|now apply (He r' i')].
      inversion Heq; subst. apply Hr0. lia.
    - intros r' i' m [Heq|Hin] Hlt; [|now apply (Hl r' i' m)].
      inversion Heq; subst. apply Hr0. lia. }
  destruct (longest r0 s) as [[|k]|] eqn:E.
  - apply Hrest; [exact B|]. intros m Hm.
    destruct (IH n i B) as ((Hn & _) & _).
    destruct L as (_ & _ & L). apply L. lia.
  - destruct L as (Hk & Hmk & Lmax).
    destruct (best_match sm s) as [[m' j]|] eqn:B'.
    + destruct (S k <? m')%nat eqn:Lt.
      * apply Nat.ltb_lt in Lt. inversion B; subst.
        apply Hrest; [reflexivity|]. intros m Hm. apply Lmax. lia.
      * apply Nat.ltb_ge in Lt. inversion B; subst.
        exists [], r0, sm. repeat split.
        -- exact Hmk.
        -- intros r' i' [].
        -- intros r' i' m [Heq|Hin] Hlt.
           ++ inversion Heq; subst. now apply Lmax.
           ++ destruct (IH m' j eq_refl) as (_ & _ & _ & _ & _ & _ & _ & Hl).
              apply (Hl r' i' m Hin). lia.
    + inversion B; subst. exists [], r0, sm. repeat split.
      * exact Hmk.
      * intros r' i' [].
      * intros r' i' m [Heq|Hin] Hlt.
        -- inversion Heq; subst. now apply Lmax.
        -- apply (best_match_None_spec sm s B' r' i' m Hin). lia.
  - apply Hrest; [exact B|]. intros m Hm.
    destruct (IH n i B) as ((Hn & _) & _). apply L. lia.
Qed.

End RegexSemantics.

(** ** The token stream *)

Section TokenStream.

Variable sm : state_machine.

Lemma lookup_split (s : list ascii) :
  s <> [] ->
  str (fst (lookup sm s)) ++ snd (lookup sm s) = s /\
  (List.length (snd (lookup sm s)) < List.length s)%nat.
Proof.
  destruct s as [|c s']; [congruence|]. intros _. unfold lookup.
  destruct (best_match sm (c :: s')) as [[n i]|] eqn:B.
  - apply best_match_bound in B. cbn [fst snd str]. split.
    + apply firstn_skipn.
    + rewrite length_skipn. lia.
  - cbn [fst snd str]. split; [reflexivity | simpl; lia].
Qed.

(** The fuel [siterator_begin] gives is enough: the lexemes of the tokens,
    put together, are the whole input. *)
Lemma tokens_from_concat (fuel : nat) :
  forall s, (List.length s <= fuel)%nat ->
            List.concat (map str (tokens_from fuel sm s)) = s.
Proof.
  induction fuel as [|f IH]; intros s Hlen.
  - destruct s; [reflexivity | simpl in Hlen; lia].
  - destruct s as [|c s']; [reflexivity|].
    cbn [tokens_from].
    destruct (lookup sm (c :: s')) as [t rest] eqn:L.
    assert (Hne : c :: s' <> []) by discriminate.
    destruct (lookup_split (c :: s') Hne) as [Hs Hl].
    rewrite L in Hs, Hl. cbn [fst snd] in Hs, Hl.
    cbn [map List.concat]. rewrite IH; [exact Hs|]. simpl in Hlen, Hl. lia.
Qed.

Lemma siterator_begin_concat (input : list ascii) :
  List.concat (map str (siterator_begin sm input)) = input.
Proof. apply tokens_from_concat. lia. Qed.

Lemma siterator_begin_head (c : ascii) (s : list ascii) :
  hd_error (siterator_begin sm (c :: s)) = Some (fst (lookup sm (c :: s))).
Proof.
  unfold siterator_begin. cbn [List.length tokens_from].
  now destruct (lookup sm (c :: s)).
Qed.

(** A character after which every rule is dead ends the first token. *)
Lemma first_token_delimited (w : list ascii) (c : ascii) (rest : list ascii) :
  w <> [] ->
  (forall r i, In (r, i) sm -> derivs (w ++ [c]) r = Nul) ->
  hd_error (siterator_begin sm (w ++ c :: rest)) = hd_error (siterator_begin sm w).
Proof.
  intros Hne Hdead. destruct w as [|a w]; [congruence|].
  change ((a :: w) ++ c :: rest) with (a :: (w ++ c :: rest)).
  rewrite !siterator_begin_head. f_equal.
  unfold lookup.
  change (a :: w ++ c :: rest) with ((a :: w) ++ c :: rest).
  rewrite (best_match_ext sm ((a :: w) ++ c :: rest) (a :: w)).
  - destruct (best_match sm (a :: w)) as [[n i]|] eqn:B; [|reflexivity].
    apply best_match_bound in B. cbn [fst]. f_equal.
    rewrite firstn_app.
    replace (n - List.length (a :: w))%nat with O by lia.
    now rewrite firstn_O, app_nil_r.
  - intros r i Hin. apply longest_dead. now apply (Hdead r i).
Qed.

Lemma best_match_None (s : list ascii) :
  best_match sm s = None ->
  forall r i n, In (r, i) sm -> longest r s <> Some (S n).
Proof.
  induction sm as [|[r0 i0] sm' IH]; intros B r i n Hin; [destruct Hin|].
  simpl in B. destruct (longest r0 s) as [[|k]|] eqn:E.
  - destruct Hin as [Heq|Hin].
    + inversion Heq; subst. rewrite E. discriminate.
    + now apply (IH B r i).
  - destruct (best_match sm' s) as [[m j]|]; [|discriminate].
    destruct (S k <? m)%nat; discriminate.
  - destruct Hin as [Heq|Hin].
    + inversion Heq; subst. rewrite E. discriminate.
    + now apply (IH B r i).
Qed.

Lemma best_match_delimited (w : list ascii) (c : ascii) (rest : list ascii) :
  (forall r i, In (r, i) sm -> derivs (w ++ [c]) r = Nul) ->
  best_match sm (w ++ c :: rest) = best_match sm w.
Proof.
  intros Hdead. apply best_match_ext.
  intros r i Hin. apply longest_dead. now apply (Hdead r i).
Qed.

Lemma unmatched_head (c : ascii) (rest : list ascii) :
  best_match sm (c :: rest) = None ->
  hd_error (siterator_begin sm (c :: rest)) = Some {| id := npos; str := [c] |}.
Proof.
  intros B. rewrite siterator_begin_head. unfold lookup. now rewrite B.
Qed.

End TokenStream.

Lemma implb_elim (a b : bool) : implb a b = true -> a = true -> b = true.
Proof. destruct a, b; simpl; intros; congruence. Qed.

Lemma orb_false_elim_l (a b : bool) : a || b = true -> a = false -> b = true.
Proof. destruct a, b; simpl; intros; congruence. Qed.

Lemma is_None_true {A : Type} (o : option A) : is_None o = true -> o = None.
Proof. destruct o; [discriminate | reflexivity]. Qed.

Lemma npos_is_no_token (t : Token) : npos <> to_id t.
Proof. destruct t; vm_compute; discriminate. Qed.

Lemma dead_after_spec (w : list ascii) (c : ascii) :
  dead_after w c = true ->
  forall r i, In (r, i) compiled_table -> derivs (w ++ [c]) r = Nul.
Proof.
  unfold dead_after. rewrite forallb_forall. intros H r i Hin.
  specialize (H (r, i) Hin). cbn [fst] in H.
  destruct (derivs (w ++ [c]) r); try discriminate. reflexivity.
Qed.

Lemma first_token_of_word (w : list ascii) (rest : list ascii) :
  w <> [] ->
  forallb (fun c => is_alnum c || dead_after w c) all_ascii = true ->
  delimited rest ->
  hd_error (tokenize (w ++ rest)) = hd_error (tokenize w).
Proof.
  intros Hne Hall Hd. destruct rest as [|c rest].
  - now rewrite app_nil_r.
  - simpl in Hd. rewrite forallb_forall in Hall.
    pose proof (orb_false_elim_l _ _ (Hall c (in_all_ascii c)) Hd) as Hdead.
    apply first_token_delimited; [exact Hne|].
    exact (dead_after_spec w c Hdead).
Qed.

(** ** Neurite-type words *)

(** No pattern of the table matches the empty string, so every token
    [lookup] yields takes at least one character. *)
Lemma rules_not_nullable :
  forallb (fun ri => negb (nullable (fst ri))) rules_ = true.
Proof. vm_compute. reflexivity. Qed.

Lemma neurite_spellings_check :
  forallb (fun wt =>
             forallb (fun c => is_alnum c || dead_after (fst wt) c) all_ascii)
          neurite_spellings = true.
Proof. vm_compute. reflexivity. Qed.

(** C1, as stated, fails: AXON in capitals differs from axon in case only,
    and is tokenized as a WORD. *)
Lemma AXON_in_capitals_is_a_WORD :
  map to_lower (chars "AXON") = chars "axon" /\
  tokenize (chars "AXON") = [ {| id := to_id WORD; str := chars "AXON" |} ] /\
  ~ recognised_ignoring_case (chars "axon") AXON.
Proof.
  split; [reflexivity|]. split; [vm_compute; reflexivity|].
  intros H. specialize (H (chars "AXON") eq_refl).
  vm_compute in H. discriminate.
Qed.

(** C1, amended: the words axon, apical, dendrite and cell body, with the
    first letter (and the b of body) in either case and every other letter
    in lower case, and with no space or one space inside cell body, are
    tokenized as AXON, APICAL, DENDRITE and CELLBODY when nothing or a
    character other than a letter or digit follows. *)
Theorem neurite_words_first_letter_case :
  forall (w : list ascii) (t : Token) (rest : list ascii),
    In (w, t) neurite_spellings ->
    delimited rest ->
    hd_error (tokenize (w ++ rest)) = Some {| id := to_id t; str := w |}.
Proof.
  intros w t rest Hin Hd.
  pose proof neurite_spellings_check as C. rewrite forallb_forall in C.
  specialize (C (w, t) Hin). cbn [fst] in C.
  assert (Hw : w <> [] /\ hd_error (tokenize w) = Some {| id := to_id t; str := w |}).
  { clear C Hd. unfold neurite_spellings in Hin. simpl in Hin.
    repeat (destruct Hin as [Heq|Hin];
            [inversion Heq; subst; split; [discriminate | vm_compute; reflexivity]|]).
    destruct Hin. }
  destruct Hw as [Hne Hw].
  rewrite (first_token_of_word w rest Hne C Hd). exact Hw.
Qed.

Lemma neurite_words_first_letter_case_witness :
  hd_error (tokenize (chars "Cell Body" ++ chars " (0 0 0 2)")) =
  Some {| id := to_id CELLBODY; str := chars "Cell Body" |}.
Proof.
  apply (neurite_words_first_letter_case (chars "Cell Body") CELLBODY).
  - unfold neurite_spellings. simpl. tauto.
  - reflexivity.
Defined.

(** Two spaces inside cell body are one too many. *)
Example cell_body_two_spaces :
  map id (tokenize (chars "Cell  Body")) = [to_id WORD; to_id WS; to_id WORD].
Proof. vm_compute. reflexivity. Qed.

(** ** Single letters *)

Lemma single_letter_check :
  forallb (fun c =>
             implb (is_alpha c)
                   (is_None (best_match compiled_table [c]) &&
                    forallb (fun d => is_alnum d || dead_after [c] d) all_ascii))
          all_ascii = true.
Proof. vm_compute. reflexivity. Qed.

(** C10: the rule for WORD needs two characters, so a letter standing alone
    (nothing, or no letter or digit, after it) is matched by no rule of the
    table; it comes out as a token with id [npos], which is not WORD. *)
Theorem single_letter_is_no_token :
  forall (c : ascii) (rest : list ascii),
    is_alpha c = true ->
    delimited rest ->
    (forall r i n, In (r, i) rules_ -> longest r (c :: rest) <> Some (S n)) /\
    hd_error (tokenize (c :: rest)) = Some {| id := npos; str := [c] |} /\
    npos <> to_id WORD.
Proof.
  intros c rest Ha Hd.
  pose proof single_letter_check as C. rewrite forallb_forall in C.
  pose proof (implb_elim _ _ (C c (in_all_ascii c)) Ha) as C1.
  destruct (andb_prop _ _ C1) as [Hnone Hdead].
  apply is_None_true in Hnone.
  assert (Hb : best_match compiled_table ([c] ++ rest) = None).
  { destruct rest as [|d rest].
    - exact Hnone.
    - cbn [delimited] in Hd. rewrite forallb_forall in Hdead.
      pose proof (orb_false_elim_l _ _ (Hdead d (in_all_ascii d)) Hd) as Hdd.
      rewrite (best_match_delimited compiled_table [c] d rest
                 (dead_after_spec [c] d Hdd)).
      exact Hnone. }
  cbn [app] in Hb.
  split; [|split].
  - intros r i n Hin.
    exact (best_match_None compiled_table (c :: rest) Hb r i n Hin).
  - exact (unmatched_head compiled_table c rest Hb).
  - apply npos_is_no_token.
Qed.

Lemma single_letter_is_no_token_witness :
  hd_error (tokenize (chars "a (0 0 0 1)")) =
  Some {| id := npos; str := chars "a" |}.
Proof.
  apply (single_letter_is_no_token "a"%char (chars " (0 0 0 1)")); reflexivity.
Defined.

(** ** The cursor *)

Section CursorFacts.

Lemma wrap_small (n : N) : n < size_modulus -> wrap n = n.
Proof. intros H. unfold wrap. now apply N.mod_small. Qed.

Lemma wrap_lt (n : N) : wrap n < size_modulus.
Proof. unfold wrap. apply N.mod_upper_bound. discriminate. Qed.

Lemma wrap_add_wrap_r (a b : N) : wrap (a + wrap b) = wrap (a + b).
Proof.
  unfold wrap. rewrite N.Div0.add_mod_idemp_r. reflexivity.
Qed.

Lemma wrap_add_wrap_l (a b : N) : wrap (wrap a + b) = wrap (a + b).
Proof.
  unfold wrap. rewrite N.Div0.add_mod_idemp_l. reflexivity.
Qed.

Lemma leading_drop (it : siterator) : leading_trivia it ++ drop_trivia it = it.
Proof.
  induction it as [|t it IH]; [reflexivity|]. simpl.
  destruct (is_trivia t); [simpl; now rewrite IH | reflexivity].
Qed.

Lemma leading_all_trivia (it : siterator) :
  forallb is_trivia (leading_trivia it) = true.
Proof.
  induction it as [|t it IH]; [reflexivity|]. simpl.
  destruct (is_trivia t) eqn:E; [simpl; now rewrite E | reflexivity].
Qed.

Lemma drop_trivia_head (it : siterator) : is_trivia (deref (drop_trivia it)) = false.
Proof.
  induction it as [|t it IH]; [reflexivity|]. simpl.
  destruct (is_trivia t) eqn:E; [exact IH | exact E].
Qed.

Lemma drop_trivia_length (it : siterator) :
  (List.length (drop_trivia it) <= List.length it)%nat.
Proof.
  induction it as [|t it IH]; [simpl; lia|]. simpl.
  destruct (is_trivia t); simpl; lia.
Qed.

(** The loop of [skip_whitespace] against [drop_trivia] and
    [count_newlines]. *)
Lemma skip_whitespace_loop_iter (it : siterator) :
  forall endlines, snd (skip_whitespace_loop it endlines) = drop_trivia it.
Proof.
  induction it as [|t it IH]; intros e; [reflexivity|].
  cbn [skip_whitespace_loop drop_trivia]. unfold is_trivia.
  destruct (id t =? to_id NEWLINE); cbn [orb]; [apply IH|].
  destruct ((id t =? to_id WS) || (id t =? to_id COMMENT)); [apply IH|].
  reflexivity.
Qed.

Lemma skip_whitespace_loop_count (it : siterator) :
  forall endlines,
    endlines < size_modulus ->
    fst (skip_whitespace_loop it endlines) =
    wrap (endlines + N.of_nat (count_newlines (leading_trivia it))).
Proof.
  induction it as [|t it IH]; intros e He.
  - cbn. rewrite N.add_0_r. symmetry. now apply wrap_small.
  - cbn [skip_whitespace_loop leading_trivia]. unfold is_trivia.
    destruct (id t =? to_id NEWLINE) eqn:En; cbn [orb].
    + rewrite (IH (wrap (e + 1)) (wrap_lt _)).
      unfold count_newlines. cbn [filter]. unfold is_newline at 2.
      rewrite En. cbn [List.length]. rewrite wrap_add_wrap_l. f_equal. lia.
    + destruct ((id t =? to_id WS) || (id t =? to_id COMMENT)).
      * rewrite (IH e He).
        unfold count_newlines. cbn [filter]. unfold is_newline at 2.
        rewrite En. reflexivity.
      * cbn. rewrite N.add_0_r. symmetry. now apply wrap_small.
Qed.

Lemma skip_whitespace_iter (it : siterator) :
  snd (skip_whitespace it) = drop_trivia it.
Proof. apply skip_whitespace_loop_iter. Qed.

Lemma skip_whitespace_count (it : siterator) :
  fst (skip_whitespace it) = wrap (N.of_nat (count_newlines (leading_trivia it))).
Proof.
  unfold skip_whitespace. rewrite skip_whitespace_loop_count; [reflexivity|].
  reflexivity.
Qed.

Lemma consume_not_ended (l : NeurolucidaLexer) :
  ended l = false -> consume l = (inr (next_ l), consumed l).
Proof.
  intros H. unfold consume, consumed. rewrite H.
  destruct (next_ l) as [|t nx] eqn:Enx.
  - cbn [is_end tl drop_trivia debug_]. destruct (debug_ l); reflexivity.
  - pose proof (skip_whitespace_iter nx) as Hi.
    pose proof (skip_whitespace_count nx) as Hc.
    destruct (skip_whitespace nx) as [n it]. cbn [fst snd] in Hi, Hc. subst n it.
    cbn [is_end tl debug_]. rewrite wrap_add_wrap_r.
    destruct (debug_ l); reflexivity.
Qed.

Lemma consume_ended (l : NeurolucidaLexer) :
  ended l = true ->
  consume l = (inl (throw RawDataError (ERROR_EOF_REACHED (err_ l) (line_num l))), l).
Proof. intros H. unfold consume. now rewrite H. Qed.

Lemma consumed_current (l : NeurolucidaLexer) : current_ (consumed l) = next_ l.
Proof. unfold consumed. now destruct (debug_ l). Qed.

Lemma consumed_next (l : NeurolucidaLexer) :
  next_ (consumed l) = drop_trivia (tl (next_ l)).
Proof. unfold consumed. now destruct (debug_ l). Qed.

Lemma consumed_err (l : NeurolucidaLexer) : err_ (consumed l) = err_ l.
Proof. unfold consumed. now destruct (debug_ l). Qed.

Lemma consumed_line (l : NeurolucidaLexer) :
  current_line_num_ (consumed l) = next_line_num_ l.
Proof. unfold consumed. now destruct (debug_ l). Qed.

Lemma consumed_next_line (l : NeurolucidaLexer) :
  next_line_num_ (consumed l) =
  if is_end (next_ l) then next_line_num_ l
  else wrap (next_line_num_ l +
             N.of_nat (count_newlines (leading_trivia (tl (next_ l))))).
Proof. unfold consumed. now destruct (debug_ l). Qed.

Lemma consumed_ended (l : NeurolucidaLexer) :
  ended (consumed l) = is_end (next_ l).
Proof. unfold ended, current. now rewrite consumed_current. Qed.

End CursorFacts.

(** C3: [consume()] throws exactly when the cursor has ended, and then a
    RawDataError with the end-of-input diagnostic at the current line,
    leaving the cursor as it was.  Otherwise the lookahead becomes the
    current token (with its line), and the new lookahead is the first
    token after the old one that is not whitespace, a newline or a
    comment (or the end, when there is none): [skipped] is what was passed
    over, and its newlines are added to the lookahead's line. *)
Theorem consume_advances (l : NeurolucidaLexer) :
  ((exists e, fst (consume l) = inl e) <-> ended l = true) /\
  if ended l then
    consume l =
    (inl (throw RawDataError (ERROR_EOF_REACHED (err_ l) (line_num l))), l)
  else
    exists (skipped : list match_results) (l' : NeurolucidaLexer),
      consume l = (inr (next_ l), l') /\
      current_ l' = next_ l /\
      tl (next_ l) = skipped ++ next_ l' /\
      forallb is_trivia skipped = true /\
      is_trivia (deref (next_ l')) = false /\
      current_line_num_ l' = next_line_num_ l /\
      next_line_num_ l' =
        (if is_end (next_ l) then next_line_num_ l
         else wrap (next_line_num_ l + N.of_nat (count_newlines skipped))).
Proof.
  destruct (ended l) eqn:E.
  - split.
    + split; [reflexivity|]. intros _. rewrite (consume_ended l E). now eexists.
    + now apply consume_ended.
  - split.
    + rewrite (consume_not_ended l E). cbn [fst]. split.
      * intros [e He]. discriminate.
      * discriminate.
    + exists (leading_trivia (tl (next_ l))), (consumed l).
      rewrite consumed_current, consumed_next, consumed_line, consumed_next_line.
      repeat split.
      * now apply consume_not_ended.
      * now rewrite leading_drop.
      * apply leading_all_trivia.
      * apply drop_trivia_head.
Qed.

(** C4: [expect(t, msg)] throws exactly when the id of the current token
    is not that of [t]; what it throws is a RawDataError whose diagnostic
    carries the current line, the name of [t], the text of the current
    token and [msg]; and whether it throws or not, the lexer is as it was
    before the call. *)
Theorem expect_checks_without_advancing (t : Token) (msg : string)
    (l : NeurolucidaLexer) :
  snd (expect t msg l) = l /\
  ((exists e, fst (expect t msg l) = inl e) <->
   id (deref (current l)) <> to_id t) /\
  fst (expect t msg l) =
    (if id (deref (current l)) =? to_id t then inr tt
     else inl (throw RawDataError
                 (ERROR_UNEXPECTED_TOKEN (err_ l) (line_num l) (to_string t)
                                         (str (deref (current l))) msg))).
Proof.
  unfold expect. destruct (id (deref (current l)) =? to_id t) eqn:E; cbn.
  - apply N.eqb_eq in E. repeat split.
    + intros [e He]. discriminate.
    + intros H. now elim H.
  - apply N.eqb_neq in E. repeat split.
    + intros _. exact E.
    + intros _. now eexists.
Qed.

(** ** Balanced parentheses *)

Section BalancedParens.

Lemma size_modulus_val : size_modulus = 18446744073709551616.
Proof. reflexivity. Qed.

Lemma npos_val : npos = 18446744073709551615.
Proof. reflexivity. Qed.

Lemma decr_spec (n : N) : 0 < n -> n < size_modulus -> decr n = n - 1.
Proof.
  intros H0 H1. unfold decr, wrap.
  replace (n + (size_modulus - 1)) with ((n - 1) + 1 * size_modulus)
    by (rewrite size_modulus_val in *; lia).
  rewrite N.Div0.mod_add. apply N.mod_small. lia.
Qed.

Lemma incr_spec (n : N) : n + 1 < size_modulus -> incr n = n + 1.
Proof. intros H. unfold incr. now apply wrap_small. Qed.

Lemma filter_drop_trivia (r : siterator) :
  match drop_trivia r with
  | [] => []
  | t :: rest => t :: filter (fun t => negb (is_trivia t)) rest
  end = filter (fun t => negb (is_trivia t)) r.
Proof.
  induction r as [|t r IH]; [reflexivity|]. simpl.
  destruct (is_trivia t); simpl; [exact IH | reflexivity].
Qed.

Lemma surfaced_consumed (l : NeurolucidaLexer) :
  surfaced (consumed l) = tl (surfaced l).
Proof.
  unfold surfaced. rewrite consumed_next.
  destruct (next_ l) as [|t r]; [reflexivity|].
  cbn [tl]. apply filter_drop_trivia.
Qed.

Lemma surfaced_length (l : NeurolucidaLexer) :
  (List.length (surfaced l) <= List.length (next_ l))%nat.
Proof.
  unfold surfaced. destruct (next_ l) as [|t r]; [simpl; lia|].
  cbn [List.length]. pose proof (filter_length_le (fun t => negb (is_trivia t)) r).
  lia.
Qed.

Lemma deref_next (l : NeurolucidaLexer) :
  deref (next_ l) = hd eoi_results (surfaced l).
Proof. unfold surfaced. now destruct (next_ l). Qed.

Lemma is_end_next (l : NeurolucidaLexer) :
  is_end (next_ l) = match surfaced l with [] => true | _ :: _ => false end.
Proof. unfold surfaced. now destruct (next_ l). Qed.

Lemma advance_ended (n : nat) (l : NeurolucidaLexer) :
  ended l = true -> advance n l = l.
Proof.
  induction n as [|n IH]; intros H; [reflexivity|].
  cbn [advance]. rewrite (consume_ended l H). cbn [snd]. now apply IH.
Qed.

Lemma advance_S (n : nat) (l : NeurolucidaLexer) :
  ended l = false -> advance (S n) l = advance n (consumed l).
Proof. intros H. cbn [advance]. now rewrite (consume_not_ended l H). Qed.

Lemma advance_S_r (n : nat) :
  forall l, advance (S n) l = snd (consume (advance n l)).
Proof.
  induction n as [|n IH]; intros l; [reflexivity|].
  change (advance (S (S n)) l) with (advance (S n) (snd (consume l))).
  rewrite IH. reflexivity.
Qed.

Lemma nth_tl {A : Type} (k : nat) (s : list A) (d : A) :
  nth k (tl s) d = nth (S k) s d.
Proof. destruct s; [now destruct k | reflexivity]. Qed.

(** After [S k] calls of [consume()] the current token is the [k]-th
    surfaced one, or the end when there are not that many. *)
Lemma current_after_advance (k : nat) :
  forall l, ended l = false ->
            deref (current (advance (S k) l)) = nth k (surfaced l) eoi_results.
Proof.
  induction k as [|k IH]; intros l H.
  - rewrite (advance_S 0 l H). cbn [advance]. unfold current.
    rewrite consumed_current, deref_next. now destruct (surfaced l).
  - rewrite (advance_S (S k) l H).
    destruct (ended (consumed l)) eqn:E.
    + rewrite (advance_ended (S k) _ E).
      rewrite consumed_ended in E. unfold current. rewrite consumed_current.
      unfold surfaced. destruct (next_ l); [reflexivity | discriminate].
    + rewrite (IH _ E), surfaced_consumed. apply nth_tl.
Qed.

Lemma paren_step_zero (d : nat) (i : N) :
  (0 < d)%nat -> paren_step d i = O -> i = to_id RPAREN.
Proof.
  unfold paren_step. intros Hd.
  destruct (i =? to_id RPAREN) eqn:E; [intros _; now apply N.eqb_eq|].
  destruct (i =? to_id LPAREN); intros H; lia.
Qed.

Lemma closing_paren_is_RPAREN (ids : list N) :
  forall d k, (0 < d)%nat -> closing_paren d ids = Some k ->
              (k < List.length ids)%nat /\ nth k ids 0 = to_id RPAREN.
Proof.
  induction ids as [|i ids IH]; intros d k Hd; cbn [closing_paren]; [discriminate|].
  destruct (paren_step d i =? 0)%nat eqn:E.
  - intros H. inversion H; subst. apply Nat.eqb_eq in E.
    split; [simpl; lia | now apply (paren_step_zero d)].
  - apply Nat.eqb_neq in E.
    destruct (closing_paren (paren_step d i) ids) as [k'|] eqn:C; [|discriminate].
    cbn [option_map]. intros H. inversion H; subst.
    destruct (IH (paren_step d i) k') as [Hk Hn]; [lia | exact C |].
    split; [simpl; lia | exact Hn].
Qed.

Lemma balanced_paren_loop_zero (fuel : nat) (l : NeurolucidaLexer) :
  balanced_paren_loop fuel 0 l = Some (inr tt, l).
Proof. destruct fuel; reflexivity. Qed.

Lemma balanced_paren_loop_step (fuel : nat) (count : N) (l : NeurolucidaLexer) :
  count <> 0 -> ended l = false ->
  balanced_paren_loop (S fuel) count l =
  let i := id (deref (next_ l)) in
  let count' := if i =? to_id RPAREN then decr count
                else if i =? to_id LPAREN then incr count
                else count in
  if is_end (next_ l) then
    Some (inl (throw RawDataError
                 (ERROR_EOF_UNBALANCED_PARENS (err_ l) (line_num (consumed l)))),
          consumed l)
  else balanced_paren_loop fuel count' (consumed l).
Proof.
  intros Hc He. cbn [balanced_paren_loop].
  apply N.eqb_neq in Hc. rewrite Hc.
  rewrite (consume_not_ended l He), consumed_ended, consumed_err.
  reflexivity.
Qed.

(** How the counter of the loop follows [paren_step] as long as it does
    not wrap. *)
Lemma count_step (d : nat) (i : N) :
  (0 < d)%nat -> N.of_nat d + 1 < size_modulus ->
  (if i =? to_id RPAREN then decr (N.of_nat d)
   else if i =? to_id LPAREN then incr (N.of_nat d)
   else N.of_nat d) = N.of_nat (paren_step d i).
Proof.
  intros Hd Hb. unfold paren_step.
  destruct (i =? to_id RPAREN).
  - rewrite decr_spec; lia.
  - destruct (i =? to_id LPAREN); [|reflexivity].
    rewrite incr_spec; lia.
Qed.

(** The loop against [closing_paren]. *)
Lemma balanced_paren_loop_spec (fuel : nat) :
  forall (l : NeurolucidaLexer) (d : nat),
    ended l = false ->
    (0 < d)%nat ->
    N.of_nat d + N.of_nat (List.length (surfaced l)) < size_modulus ->
    (List.length (surfaced l) < fuel)%nat ->
    balanced_paren_loop fuel (N.of_nat d) l =
    match closing_paren d (map id (surfaced l)) with
    | Some k => Some (inr tt, advance (S k) l)
    | None =>
        let l' := advance (S (List.length (surfaced l))) l in
        Some (inl (throw RawDataError
                     (ERROR_EOF_UNBALANCED_PARENS (err_ l) (line_num l'))), l')
    end.
Proof.
  induction fuel as [|fuel IH]; intros l d He Hd Hb Hf; [lia|].
  rewrite balanced_paren_loop_step; [|lia|exact He].
  cbv zeta. rewrite is_end_next, deref_next.
  destruct (surfaced l) as [|t s] eqn:Es.
  - cbn [map closing_paren List.length]. cbv zeta.
    rewrite (advance_S 0 l He). reflexivity.
  - cbn [hd map closing_paren List.length] in *.
    rewrite count_step; [|exact Hd|lia].
    assert (Hs : surfaced (consumed l) = s)
      by (rewrite surfaced_consumed, Es; reflexivity).
    assert (He' : ended (consumed l) = false)
      by (rewrite consumed_ended, is_end_next, Es; reflexivity).
    destruct (paren_step d (id t) =? 0)%nat eqn:Ez.
    + apply Nat.eqb_eq in Ez. rewrite Ez. cbn [N.of_nat].
      rewrite balanced_paren_loop_zero, (advance_S 0 l He). reflexivity.
    + apply Nat.eqb_neq in Ez.
      assert (Hstep : (paren_step d (id t) <= S d)%nat).
      { unfold paren_step. destruct (id t =? to_id RPAREN); [lia|].
        destruct (id t =? to_id LPAREN); lia. }
      rewrite (IH (consumed l) (paren_step d (id t)) He');
        [|lia|rewrite Hs; lia|rewrite Hs; lia].
      rewrite Hs, consumed_err.
      destruct (closing_paren (paren_step d (id t)) (map id s)) as [k|].
      * cbn [option_map]. now rewrite (advance_S (S k) l He).
      * cbv zeta. now rewrite (advance_S (S (List.length s)) l He).
Qed.

(** The counter can only reach 0 on an [RPAREN] when it cannot wrap. *)
Lemma balanced_paren_loop_ends_on_RPAREN (fuel : nat) :
  forall (count : N) (l l1 : NeurolucidaLexer),
    0 < count ->
    count + N.of_nat (List.length (next_ l)) < size_modulus ->
    balanced_paren_loop fuel count l = Some (inr tt, l1) ->
    id (deref (current l1)) = to_id RPAREN.
Proof.
  induction fuel as [|fuel IH]; intros count l l1 Hc Hb.
  - cbn [balanced_paren_loop].
    destruct (count =? 0) eqn:E; [apply N.eqb_eq in E; lia | discriminate].
  - destruct (ended l) eqn:He.
    + cbn [balanced_paren_loop].
      destruct (count =? 0) eqn:E; [apply N.eqb_eq in E; lia|].
      rewrite (consume_ended l He). discriminate.
    + rewrite balanced_paren_loop_step; [|lia|exact He]. cbv zeta.
      destruct (next_ l) as [|t r] eqn:En; cbn [is_end]; [discriminate|].
      cbn [deref]. cbn [List.length] in Hb.
      assert (Hlen : (List.length (next_ (consumed l)) <= List.length r)%nat).
      { rewrite consumed_next, En. cbn [tl]. apply drop_trivia_length. }
      assert (Hcur : deref (current (consumed l)) = t).
      { unfold current. rewrite consumed_current, En. reflexivity. }
      destruct (id t =? to_id RPAREN) eqn:Er.
      * rewrite decr_spec; [|lia|lia].
        destruct (N.eq_dec (count - 1) 0) as [Hz|Hz].
        -- rewrite Hz, balanced_paren_loop_zero. intros H.
           inversion H as [Hl1]. rewrite Hcur. now apply N.eqb_eq.
        -- apply IH; lia.
      * destruct (id t =? to_id LPAREN).
        -- rewrite incr_spec; [|lia]. apply IH; lia.
        -- apply IH; lia.
Qed.

End BalancedParens.

Section BalancedParensResults.

Lemma ended_after_all (n : nat) :
  forall l, ended l = false -> List.length (surfaced l) = n ->
            ended (advance (S n) l) = true.
Proof.
  induction n as [|n IH]; intros l He Hn.
  - rewrite (advance_S 0 l He). cbn [advance].
    rewrite consumed_ended, is_end_next.
    destruct (surfaced l); [reflexivity | discriminate].
  - rewrite (advance_S (S n) l He).
    destruct (surfaced l) as [|t s] eqn:Es; [discriminate|].
    apply IH.
    + rewrite consumed_ended, is_end_next, Es. reflexivity.
    + rewrite surfaced_consumed, Es. cbn [tl]. simpl in Hn. lia.
Qed.

Lemma balanced_paren_msg_not_empty : String.eqb balanced_paren_msg "" = false.
Proof. reflexivity. Qed.

Lemma consume_token_on_RPAREN (l : NeurolucidaLexer) :
  id (deref (current l)) = to_id RPAREN ->
  expect RPAREN balanced_paren_msg l = (inr tt, l) /\
  consume_token RPAREN balanced_paren_msg l = (inr (next_ l), consumed l).
Proof.
  intros H.
  assert (Hx : expect RPAREN balanced_paren_msg l = (inr tt, l)).
  { unfold expect. rewrite H, N.eqb_refl. reflexivity. }
  split; [exact Hx|].
  unfold consume_token. rewrite balanced_paren_msg_not_empty. cbn [negb].
  rewrite Hx. apply consume_not_ended.
  unfold ended. destruct (current l); [|reflexivity].
  cbn in H. discriminate.
Qed.

(** The loop throws only the two end-of-input diagnostics. *)
Lemma balanced_paren_loop_errors (fuel : nat) :
  forall (count : N) (l l1 : NeurolucidaLexer) (e : exn),
    balanced_paren_loop fuel count l = Some (inl e, l1) ->
    exists err line,
      what e = ERROR_EOF_REACHED err line \/
      what e = ERROR_EOF_UNBALANCED_PARENS err line.
Proof.
  induction fuel as [|fuel IH]; intros count l l1 e; cbn [balanced_paren_loop].
  - destruct (count =? 0); discriminate.
  - destruct (count =? 0); [discriminate|].
    destruct (ended l) eqn:He.
    + rewrite (consume_ended l He). intros H. inversion H; subst.
      eexists _, _. left. reflexivity.
    + rewrite (consume_not_ended l He).
      destruct (ended (consumed l)).
      * intros H. inversion H; subst. eexists _, _. right. reflexivity.
      * apply IH.
Qed.

Lemma consumed_next_length (l : NeurolucidaLexer) :
  next_ l <> [] ->
  (List.length (next_ (consumed l)) < List.length (next_ l))%nat.
Proof.
  intros H. rewrite consumed_next. destruct (next_ l) as [|t r]; [congruence|].
  cbn [tl List.length]. pose proof (drop_trivia_length r). lia.
Qed.

Lemma balanced_paren_loop_returns (fuel : nat) :
  forall (count : N) (l : NeurolucidaLexer),
    (List.length (next_ l) < fuel)%nat ->
    balanced_paren_loop fuel count l <> None.
Proof.
  induction fuel as [|fuel IH]; intros count l Hf; [lia|].
  cbn [balanced_paren_loop]. destruct (count =? 0); [discriminate|].
  destruct (ended l) eqn:He.
  - rewrite (consume_ended l He). discriminate.
  - rewrite (consume_not_ended l He), consumed_ended.
    destruct (next_ l) as [|t r] eqn:En; cbn [is_end]; [discriminate|].
    apply IH. pose proof (consumed_next_length l) as Hl.
    rewrite En in Hl. specialize (Hl ltac:(discriminate)).
    cbn [List.length] in Hf, Hl. lia.
Qed.

(** [consume_until_balanced_paren] always returns or throws. *)
Lemma consume_until_balanced_paren_returns (l : NeurolucidaLexer) :
  consume_until_balanced_paren l <> None.
Proof.
  unfold consume_until_balanced_paren.
  pose proof (balanced_paren_loop_returns (loop_fuel l) 1 l) as H.
  destruct (balanced_paren_loop (loop_fuel l) 1 l) as [[[e|u] l1]|].
  - discriminate.
  - destruct (consume_token RPAREN balanced_paren_msg l1) as [[e|it] l2]; discriminate.
  - exfalso. apply H; [unfold loop_fuel; lia | reflexivity].
Qed.

Lemma consume_until_loop_returns (fuel : nat) (endpoint : Token) :
  forall l : NeurolucidaLexer,
    (S (List.length (next_ l)) < fuel)%nat ->
    consume_until_loop fuel endpoint l <> None.
Proof.
  induction fuel as [|fuel IH]; intros l Hf; [lia|].
  cbn [consume_until_loop].
  destruct (ended l) eqn:He.
  - rewrite (consume_ended l He). discriminate.
  - rewrite (consume_not_ended l He).
    destruct (negb (id (deref (next_ l)) =? to_id endpoint)); [|discriminate].
    destruct (next_ l) as [|t r] eqn:En; rewrite ?En in Hf.
    + destruct fuel as [|fuel]; [simpl in Hf; lia|].
      cbn [consume_until_loop].
      assert (E : ended (consumed l) = true)
        by (rewrite consumed_ended, En; reflexivity).
      rewrite (consume_ended _ E). discriminate.
    + apply IH. pose proof (consumed_next_length l) as Hl.
      rewrite En in Hl. specialize (Hl ltac:(discriminate)).
      cbn [List.length] in Hf, Hl. lia.
Qed.

(** [consume_until] always returns or throws. *)
Lemma consume_until_returns (endpoint : Token) (l : NeurolucidaLexer) :
  consume_until endpoint l <> None.
Proof.
  unfold consume_until. apply consume_until_loop_returns.
  unfold loop_fuel. lia.
Qed.

End BalancedParensResults.

(** C2: called with the cursor on a token (the opening parenthesis just
    consumed), [consume_until_balanced_paren] walks the tokens that
    follow with a depth that starts at 1, goes up on LPAREN and down on
    RPAREN ([closing_paren]).  If the tokens end before the depth is 0 it
    throws a RawDataError with the diagnostic for unbalanced parentheses
    at the end of input; if the depth reaches 0 at token [k], that token
    is an RPAREN and the call returns with the cursor on the token after
    it. *)
Theorem consume_until_balanced_paren_spec (l : NeurolucidaLexer) :
  ended l = false ->
  N.of_nat (List.length (next_ l)) < npos ->
  match closing_paren 1 (map id (surfaced l)) with
  | None =>
      let l' := advance (S (List.length (surfaced l))) l in
      consume_until_balanced_paren l =
      Some (inl (throw RawDataError
                   (ERROR_EOF_UNBALANCED_PARENS (err_ l) (line_num l'))), l') /\
      ended l' = true
  | Some k =>
      id (nth k (surfaced l) eoi_results) = to_id RPAREN /\
      consume_until_balanced_paren l = Some (inr tt, advance (S (S k)) l) /\
      deref (current (advance (S k) l)) = nth k (surfaced l) eoi_results /\
      deref (current (advance (S (S k)) l)) = nth (S k) (surfaced l) eoi_results
  end.
Proof.
  intros He Hb. rewrite npos_val in Hb.
  pose proof (surfaced_length l) as Hlen.
  assert (Hloop := balanced_paren_loop_spec (loop_fuel l) l 1 He).
  rewrite size_modulus_val in Hloop. unfold loop_fuel in Hloop.
  specialize (Hloop ltac:(lia) ltac:(lia) ltac:(lia)).
  unfold consume_until_balanced_paren. fold (loop_fuel l) in Hloop.
  change (N.of_nat 1) with 1 in Hloop. rewrite Hloop.
  destruct (closing_paren 1 (map id (surfaced l))) as [k|] eqn:C.
  - destruct (closing_paren_is_RPAREN _ 1 k ltac:(lia) C) as [Hk Hn].
    change 0 with (id eoi_results) in Hn. rewrite map_nth in Hn.
    pose proof (current_after_advance k l He) as Hcur.
    assert (Hid : id (deref (current (advance (S k) l))) = to_id RPAREN)
      by (rewrite Hcur; exact Hn).
    destruct (consume_token_on_RPAREN _ Hid) as [_ Hct].
    rewrite Hct. repeat split.
    + exact Hn.
    + rewrite (advance_S_r (S k) l).
      rewrite consume_not_ended; [reflexivity|].
      unfold ended.
      destruct (current (advance (S k) l)); [cbn in Hid; discriminate | reflexivity].
    + exact Hcur.
    + apply (current_after_advance (S k) l He).
  - cbv zeta. split; [reflexivity|].
    now apply ended_after_all.
Qed.

Lemma consume_until_balanced_paren_spec_witness :
  match closing_paren 1 (map id (surfaced lexer_on_block)) with
  | None =>
      let l' := advance (S (List.length (surfaced lexer_on_block))) lexer_on_block in
      consume_until_balanced_paren lexer_on_block =
      Some (inl (throw RawDataError
                   (ERROR_EOF_UNBALANCED_PARENS (err_ lexer_on_block) (line_num l'))), l') /\
      ended l' = true
  | Some k =>
      id (nth k (surfaced lexer_on_block) eoi_results) = to_id RPAREN /\
      consume_until_balanced_paren lexer_on_block =
      Some (inr tt, advance (S (S k)) lexer_on_block) /\
      deref (current (advance (S k) lexer_on_block)) =
      nth k (surfaced lexer_on_block) eoi_results /\
      deref (current (advance (S (S k)) lexer_on_block)) =
      nth (S k) (surfaced lexer_on_block) eoi_results
  end.
Proof.
  apply (consume_until_balanced_paren_spec lexer_on_block);
    vm_compute; reflexivity.
Defined.

Example skips_the_block :
  closing_paren 1 (map id (surfaced lexer_on_block)) = Some 10%nat /\
  option_map (fun r => (fst r, map id (current (snd r))))
             (consume_until_balanced_paren lexer_on_block) =
  Some (inr tt, [to_id LPAREN; to_id AXON; to_id RPAREN]).
Proof. vm_compute. split; reflexivity. Qed.

(** C9: when the loop of [consume_until_balanced_paren] ends normally the
    current token is an RPAREN, so the [expect] of the final
    [consume(Token::RPAREN, ...)] succeeds; no call of
    [consume_until_balanced_paren] throws the token-mismatch
    diagnostic.  (The input has fewer than [npos] tokens, so the counter
    does not wrap.) *)
Theorem final_expect_never_fails (l : NeurolucidaLexer) :
  N.of_nat (List.length (next_ l)) < npos ->
  (forall fuel l1,
      balanced_paren_loop fuel 1 l = Some (inr tt, l1) ->
      id (deref (current l1)) = to_id RPAREN /\
      expect RPAREN balanced_paren_msg l1 = (inr tt, l1)) /\
  (forall e l',
      consume_until_balanced_paren l = Some (inl e, l') ->
      forall err line expected got msg,
        what e <> ERROR_UNEXPECTED_TOKEN err line expected got msg).
Proof.
  intros Hb. rewrite npos_val in Hb.
  assert (Hloop : forall fuel l1,
             balanced_paren_loop fuel 1 l = Some (inr tt, l1) ->
             id (deref (current l1)) = to_id RPAREN).
  { intros fuel l1 H.
    apply (balanced_paren_loop_ends_on_RPAREN fuel 1 l l1); [lia| |exact H].
    rewrite size_modulus_val. lia. }
  split.
  - intros fuel l1 H. split; [now apply (Hloop fuel)|].
    now apply consume_token_on_RPAREN, (Hloop fuel).
  - intros e l'. unfold consume_until_balanced_paren.
    destruct (balanced_paren_loop (loop_fuel l) 1 l) as [[[e1|[]] l1]|] eqn:L;
      [| |discriminate].
    + intros H. inversion H; subst.
      destruct (balanced_paren_loop_errors _ _ _ _ _ L) as (err0 & line0 & [W|W]);
        intros; rewrite W; discriminate.
    + destruct (consume_token_on_RPAREN l1 (Hloop _ _ L)) as [_ Hct].
      rewrite Hct. discriminate.
Qed.

Lemma final_expect_never_fails_witness :
  (forall fuel l1,
      balanced_paren_loop fuel 1 lexer_on_block = Some (inr tt, l1) ->
      id (deref (current l1)) = to_id RPAREN /\
      expect RPAREN balanced_paren_msg l1 = (inr tt, l1)) /\
  (forall e l',
      consume_until_balanced_paren lexer_on_block = Some (inl e, l') ->
      forall err line expected got msg,
        what e <> ERROR_UNEXPECTED_TOKEN err line expected got msg).
Proof.
  apply (final_expect_never_fails lexer_on_block). vm_compute. reflexivity.
Defined.

(** ** Line numbers *)

Section LineNumbers.

Lemma count_newlines_app (a b : list match_results) :
  count_newlines (a ++ b) = (count_newlines a + count_newlines b)%nat.
Proof. unfold count_newlines. now rewrite filter_app, length_app. Qed.

Lemma not_trivia_not_newline (t : match_results) :
  is_trivia t = false -> is_newline t = false.
Proof.
  unfold is_trivia, is_newline.
  destruct (id t =? to_id NEWLINE); [discriminate | reflexivity].
Qed.

Lemma tokens_before_app (pre it : siterator) :
  tokens_before (pre ++ it) it = pre.
Proof.
  unfold tokens_before. rewrite length_app.
  replace (List.length pre + List.length it - List.length it)%nat
    with (List.length pre) by lia.
  rewrite firstn_app, firstn_all, Nat.sub_diag. cbn. apply app_nil_r.
Qed.

Lemma consume_keeps_lines_in_step (all : siterator) (l : NeurolucidaLexer) :
  lines_in_step all l -> lines_in_step all (snd (consume l)).
Proof.
  intros (pre_c & pre_n & Hc & Hn & Lc & Ln & Ht).
  destruct (ended l) eqn:He.
  - rewrite (consume_ended l He). cbn [snd]. now exists pre_c, pre_n.
  - rewrite (consume_not_ended l He). cbn [snd].
    destruct (next_ l) as [|t r] eqn:En.
    + exists pre_n, pre_n.
      rewrite consumed_current, consumed_next, consumed_line, consumed_next_line, En.
      cbn [tl drop_trivia is_end]. repeat split; assumption.
    + exists pre_n, (pre_n ++ t :: leading_trivia r).
      rewrite consumed_current, consumed_next, consumed_line, consumed_next_line, En.
      cbn [tl is_end]. repeat split.
      * exact Hn.
      * rewrite <- app_assoc. cbn [app]. now rewrite leading_drop.
      * exact Ln.
      * rewrite Ln, wrap_add_wrap_l. f_equal.
        rewrite count_newlines_app.
        change (t :: leading_trivia r) with ([t] ++ leading_trivia r).
        rewrite count_newlines_app.
        assert (Hone : count_newlines [t] = O).
        { unfold count_newlines. cbn [filter]. cbn [deref] in Ht.
          now rewrite (not_trivia_not_newline t Ht). }
        rewrite Hone. lia.
      * apply drop_trivia_head.
Qed.

Lemma drop_trivia_none (it : siterator) :
  is_trivia (deref it) = false -> drop_trivia it = it /\ leading_trivia it = [].
Proof.
  destruct it as [|t it]; [now split|]. cbn. intros H. now rewrite H.
Qed.

Lemma started_lines_in_step (path : string) (debug : bool) (input : list ascii) :
  is_trivia (deref (tokenize input)) = false ->
  lines_in_step (tokenize input) (started path debug input).
Proof.
  intros H. unfold started, start_parse.
  change (build_lexer []) with (compiled_table, compiled_table, true).
  cbv iota beta. fold (tokenize input).
  pose proof (skip_whitespace_iter (tokenize input)) as Hi.
  pose proof (skip_whitespace_count (tokenize input)) as Hk.
  destruct (skip_whitespace (tokenize input)) as [n it]. cbn [fst snd] in Hi, Hk.
  destruct (drop_trivia_none _ H) as [Hd Hl]. rewrite Hd in Hi. rewrite Hl in Hk.
  subst n it.
  match goal with
  | |- lines_in_step _ (snd (fst (let '(r, l2) := consume ?l1 in _))) =>
      assert (Hinv : lines_in_step (tokenize input) l1);
      [| apply consume_keeps_lines_in_step in Hinv;
         destruct (consume l1) as [r l2]; exact Hinv]
  end.
  exists [], []. cbn [app current_ next_ current_line_num_ next_line_num_ new_lexer].
  repeat split; try reflexivity. exact H.
Qed.

Lemma advance_keeps_lines_in_step (all : siterator) (n : nat) :
  forall l, lines_in_step all l -> lines_in_step all (advance n l).
Proof.
  induction n as [|n IH]; intros l H; [exact H|].
  cbn [advance]. now apply IH, consume_keeps_lines_in_step.
Qed.

(** When the input does not begin with whitespace, a newline or a comment,
    the line counter follows the current token through every number of
    [consume()] calls. *)
Lemma line_num_without_leading_trivia
    (path : string) (debug : bool) (input : list ascii) (n : nat) :
  is_trivia (deref (tokenize input)) = false ->
  let l := advance n (started path debug input) in
  line_num l = wrap (line_of (tokenize input) (current l)).
Proof.
  intros H l.
  destruct (advance_keeps_lines_in_step (tokenize input) n _
              (started_lines_in_step path debug input H))
    as (pre_c & pre_n & Hc & _ & Lc & _).
  fold l in Hc, Lc. unfold line_num, line_of, current.
  rewrite Lc. f_equal. f_equal. f_equal.
  rewrite Hc at 1. now rewrite tokens_before_app.
Qed.

End LineNumbers.

(** C5 fails when the input begins with trivia.  [start_parse] skips
    the leading trivia on [current_] and adds its newlines to both
    counters, but [next_] still stands at the first token; the [consume()]
    that follows makes that first token the current one and counts the
    newlines after it once more.  For two newlines and a parenthesis: after
    [start_parse] the current token is the first NEWLINE with line 3, and
    after one [consume()] it is the parenthesis, with line 4 where it is on
    line 3. *)
Theorem line_num_after_leading_newlines :
  let input := [LF; LF] ++ chars "(" in
  let l := started "cell.asc" false input in
  let l' := snd (consume l) in
  map id (tokenize input) = [to_id NEWLINE; to_id NEWLINE; to_id LPAREN] /\
  map id (current l) = [to_id NEWLINE; to_id NEWLINE; to_id LPAREN] /\
  line_num l = 3 /\ line_of (tokenize input) (current l) = 1 /\
  map id (current l') = [to_id LPAREN] /\
  line_num l' = 4 /\ line_of (tokenize input) (current l') = 3.
Proof. vm_compute. repeat split; reflexivity. Qed.

(** The same with a comment line first, as files written by Neurolucida
    have: the comment itself is surfaced by [start_parse], and the
    parenthesis on line 2 is reported on line 3. *)
Example line_num_after_comment_line :
  let input := chars "; V3 text file" ++ [LF] ++ chars "(" in
  let l := started "cell.asc" false input in
  let l' := snd (consume l) in
  map id (current l) = [to_id COMMENT; to_id NEWLINE; to_id LPAREN] /\
  line_num l = 2 /\
  map id (current l') = [to_id LPAREN] /\
  line_num l' = 3 /\ line_of (tokenize input) (current l') = 2.
Proof. vm_compute. repeat split; reflexivity. Qed.

(** ** The rule table is built once *)

Section BuiltOnce.

Lemma build_lexer_result (sm : state_machine) :
  sm = [] \/ sm = compiled_table ->
  fst (fst (build_lexer sm)) = compiled_table /\
  snd (fst (build_lexer sm)) = compiled_table /\
  snd (build_lexer sm) = sm_empty sm.
Proof. intros [H|H]; subst sm; repeat split. Qed.

Lemma start_parse_static (input : list ascii) (sm : state_machine)
    (l : NeurolucidaLexer) :
  snd (start_parse input sm l) = snd (fst (build_lexer sm)).
Proof.
  unfold start_parse. destruct (build_lexer sm) as [[sm1 st] b].
  destruct (skip_whitespace (siterator_begin sm1 input)) as [n c].
  match goal with |- context [consume ?x] => destruct (consume x) end.
  reflexivity.
Qed.

Lemma run_operation_static (p : process) (o : operation) :
  (static_sm p = [] /\ builds p = O) \/
  (static_sm p = compiled_table /\ builds p = 1%nat) ->
  ((static_sm (run_operation p o) = [] /\ builds (run_operation p o) = O) \/
   (static_sm (run_operation p o) = compiled_table /\
    builds (run_operation p o) = 1%nat)) /\
  (static_sm p = compiled_table ->
   static_sm (run_operation p o) = static_sm p /\
   builds (run_operation p o) = builds p).
Proof.
  intros H.
  assert (Hb : static_sm (with_build p (lexer p)) = compiled_table /\
               builds (with_build p (lexer p)) = 1%nat /\
               (static_sm p = compiled_table ->
                builds (with_build p (lexer p)) = builds p)).
  { unfold with_build. cbn [static_sm builds].
    destruct H as [[Hs Hn]|[Hs Hn]]; rewrite Hs, Hn; repeat split.
    intros Habs. discriminate Habs. }
  destruct o; cbv zeta;
    cbn [run_operation with_lexer with_build static_sm builds];
    rewrite ?start_parse_static;
    try (split; [exact H | intros _; split; reflexivity]).
  - destruct Hb as (H1 & H2 & H3). unfold with_build in H1, H2, H3.
    cbn [static_sm builds] in H1, H2, H3.
    split; [right; now split|]. intros Hs. split; [now rewrite H1, Hs | now apply H3].
  - destruct Hb as (H1 & H2 & H3). unfold with_build in H1, H2, H3.
    cbn [static_sm builds] in H1, H2, H3.
    split; [right; now split|]. intros Hs. split; [now rewrite H1, Hs | now apply H3].
Qed.

Lemma run_operations_static (ops : list operation) :
  forall p,
    (static_sm p = [] /\ builds p = O) \/
    (static_sm p = compiled_table /\ builds p = 1%nat) ->
    ((static_sm (run_operations p ops) = [] /\ builds (run_operations p ops) = O) \/
     (static_sm (run_operations p ops) = compiled_table /\
      builds (run_operations p ops) = 1%nat)) /\
    (static_sm p = compiled_table ->
     static_sm (run_operations p ops) = static_sm p /\
     builds (run_operations p ops) = builds p).
Proof.
  induction ops as [|o ops IH]; intros p H.
  - cbn. split; [exact H | intros _; now split].
  - cbn [run_operations fold_left].
    destruct (run_operation_static p o H) as [H1 H2].
    destruct (IH (run_operation p o) H1) as [H3 H4].
    split; [exact H3|]. intros Hs. destruct (H2 Hs) as [H5 H6].
    rewrite <- H5 in Hs. destruct (H4 Hs) as [H7 H8].
    unfold run_operations in H7, H8. rewrite H7, H8. now split.
Qed.

Lemma fresh_static (path : string) (debug : bool) (ops : list operation) :
  static_sm (run_operations (fresh_process path debug) ops) = [] \/
  static_sm (run_operations (fresh_process path debug) ops) = compiled_table.
Proof.
  destruct (run_operations_static ops (fresh_process path debug)) as [[[H _]|[H _]] _];
    [left; now split | now left | now right].
Qed.

End BuiltOnce.

(** C7: [build_lexer] is idempotent: a call after any call returns the
    same machine, leaves the static as it is and does not run the
    generator.  In a process that starts with the static empty, whatever
    the operations on the lexer, the generator runs at most once, the
    static is empty (before the first [build_lexer]) or the compiled
    table, and once it is the table no operation changes it. *)
Theorem build_lexer_builds_once :
  (forall sm : state_machine,
      build_lexer (snd (fst (build_lexer sm))) =
      (fst (fst (build_lexer sm)), snd (fst (build_lexer sm)), false)) /\
  (forall path debug (ops : list operation),
      let p := run_operations (fresh_process path debug) ops in
      (builds p <= 1)%nat /\
      ((static_sm p = [] /\ builds p = O) \/
       (static_sm p = compiled_table /\ builds p = 1%nat))) /\
  (forall path debug (ops more : list operation),
      let p := run_operations (fresh_process path debug) ops in
      let p' := run_operations p more in
      static_sm p = [] \/
      (static_sm p' = static_sm p /\ builds p' = builds p /\
       build_lexer (static_sm p') = (compiled_table, compiled_table, false))).
Proof.
  split; [|split].
  - intros sm. unfold build_lexer at 2 3 4.
    destruct (sm_empty sm) eqn:E; cbn [negb fst snd].
    + reflexivity.
    + unfold build_lexer. now rewrite E.
  - intros path debug ops p.
    destruct (run_operations_static ops (fresh_process path debug)) as [H _];
      [left; now split|].
    fold p in H. split; [|exact H].
    destruct H as [[_ H]|[_ H]]; rewrite H; lia.
  - intros path debug ops more p p'.
    destruct (fresh_static path debug ops) as [H|H]; fold p in H; [now left|right].
    assert (Hp : (static_sm p = [] /\ builds p = O) \/
                 (static_sm p = compiled_table /\ builds p = 1%nat)).
    { destruct (run_operations_static ops (fresh_process path debug)) as [Hh _];
        [left; now split | exact Hh]. }
    destruct (run_operations_static more p Hp) as [_ Hk].
    destruct (Hk H) as [H1 H2]. fold p' in H1, H2.
    repeat split; [exact H1 | exact H2 |]. rewrite H1, H. reflexivity.
Qed.

(** ** Reading a file *)

Section Reading.

Variable CanonicalProperties : Type.

Variable parse : parser_and_builder CanonicalProperties.

Lemma start_parse_same_table (input : list ascii) (sm : state_machine)
    (l : NeurolucidaLexer) :
  sm = [] \/ sm = compiled_table ->
  start_parse input sm l = start_parse input [] l.
Proof. intros [H|H]; subst sm; reflexivity. Qed.

(** C6: reading the same bytes gives the same result, whatever the
    process has done with lexers before each of the two reads ([before1],
    [before2]): the static table handed to the iterator is the same, so
    the token sequence is the same, and so is the outcome (the Canonical
    Properties value with its section IDs, point order and ranges, or the
    error). *)
Theorem reading_is_deterministic
    (path : string) (input : list ascii) (debug1 debug2 : bool)
    (before1 before2 : list operation) :
  let s1 := static_sm (run_operations (fresh_process path debug1) before1) in
  let s2 := static_sm (run_operations (fresh_process path debug2) before2) in
  tokens_of_read s1 input = tokenize input /\
  tokens_of_read s2 input = tokenize input /\
  read parse s1 path input = read parse s2 path input /\
  fst (read parse (snd (read parse s1 path input)) path input) = fst (read parse s1 path input).
Proof.
  intros s1 s2.
  pose proof (fresh_static path debug1 before1) as H1. fold s1 in H1.
  pose proof (fresh_static path debug2 before2) as H2. fold s2 in H2.
  assert (Hr : forall s, s = [] \/ s = compiled_table ->
                         read parse s path input = read parse [] path input).
  { intros s Hs. unfold read. now rewrite (start_parse_same_table input s _ Hs). }
  repeat split.
  - unfold tokens_of_read. now rewrite (proj1 (build_lexer_result s1 H1)).
  - unfold tokens_of_read. now rewrite (proj1 (build_lexer_result s2 H2)).
  - now rewrite (Hr s1 H1), (Hr s2 H2).
  - rewrite (Hr (snd (read parse s1 path input))); [now rewrite (Hr s1 H1)|].
    right. unfold read. cbn [snd]. rewrite start_parse_static.
    apply (build_lexer_result s1 H1).
Qed.

End Reading.

(** ** Errors *)

Section OperationErrors.

Lemma consume_outcome (l : NeurolucidaLexer) :
  err_ (snd (consume l)) = err_ l /\
  forall e, fst (consume l) = inl e -> raised_by l (snd (consume l)) e.
Proof.
  destruct (ended l) eqn:He.
  - rewrite (consume_ended l He). cbn [fst snd]. split; [reflexivity|].
    intros e H. inversion H. repeat split.
  - rewrite (consume_not_ended l He). cbn [fst snd].
    split; [apply consumed_err | discriminate].
Qed.

Lemma expect_outcome (t : Token) (msg : string) (l : NeurolucidaLexer) :
  snd (expect t msg l) = l /\
  forall e, fst (expect t msg l) = inl e -> raised_by l l e.
Proof.
  unfold expect. destruct (negb (id (deref (current l)) =? to_id t));
    cbn [fst snd]; (split; [reflexivity|]).
  - intros e H. inversion H. repeat split.
  - discriminate.
Qed.

Lemma consume_token_outcome (t : Token) (msg : string) (l : NeurolucidaLexer) :
  err_ (snd (consume_token t msg l)) = err_ l /\
  forall e, fst (consume_token t msg l) = inl e ->
            raised_by l (snd (consume_token t msg l)) e.
Proof.
  unfold consume_token.
  set (x := if negb (String.eqb msg "") then expect t msg l
            else expect t "Consume" l).
  assert (Hx : snd x = l /\ forall e, fst x = inl e -> raised_by l l e)
    by (unfold x; destruct (negb (String.eqb msg "")); apply expect_outcome).
  destruct x as [[e|u] l1]; cbn [fst snd] in Hx; destruct Hx as [-> Hx].
  - cbn [fst snd]. split; [reflexivity|]. intros e' H. apply Hx.
    inversion H. reflexivity.
  - apply consume_outcome.
Qed.

Lemma raised_by_later (l l1 l' : NeurolucidaLexer) (e : exn) :
  err_ l1 = err_ l -> raised_by l1 l' e -> raised_by l l' e.
Proof. intros H (H1 & H2 & H3). repeat split; congruence. Qed.

Lemma consume_until_loop_outcome (fuel : nat) (t : Token) :
  forall l r l',
    consume_until_loop fuel t l = Some (r, l') ->
    err_ l' = err_ l /\ forall e, r = inl e -> raised_by l l' e.
Proof.
  induction fuel as [|fuel IH]; intros l r l'; cbn [consume_until_loop];
    [discriminate|].
  pose proof (consume_outcome l) as [Herr Hc].
  destruct (consume l) as [[e|it] l1]; cbn [fst snd] in Herr, Hc.
  - intros H. inversion H; subst. split; [exact Herr|].
    intros e' He'. apply Hc. inversion He'. reflexivity.
  - destruct (negb (id (deref it) =? to_id t)).
    + intros H. destruct (IH _ _ _ H) as [H1 H2]. split; [congruence|].
      intros e He. apply (raised_by_later l l1); [exact Herr | now apply H2].
    + intros H. inversion H; subst. split; [exact Herr | discriminate].
Qed.

Lemma balanced_paren_loop_outcome (fuel : nat) :
  forall count l r l',
    balanced_paren_loop fuel count l = Some (r, l') ->
    err_ l' = err_ l /\ forall e, r = inl e -> raised_by l l' e.
Proof.
  assert (Z : forall count l r l',
             (if count =? 0 then Some (inr tt, l) else None) = Some (r, l') ->
             err_ l' = err_ l /\ forall e : exn, r = inl e -> raised_by l l' e).
  { intros count l r l'. destruct (count =? 0); [|discriminate].
    intros H. inversion H; subst. split; [reflexivity | discriminate]. }
  induction fuel as [|fuel IH]; intros count l r l'; cbn [balanced_paren_loop];
    [apply Z|].
  destruct (count =? 0) eqn:E0.
  - intros H. apply (Z count). now rewrite E0.
  - pose proof (consume_outcome l) as [Herr Hc].
    destruct (consume l) as [[e|it] l1]; cbn [fst snd] in Herr, Hc.
    + intros H. inversion H; subst. split; [exact Herr|].
      intros e' He'. apply Hc. inversion He'. reflexivity.
    + destruct (ended l1).
      * intros H. inversion H; subst. split; [exact Herr|].
        intros e He. inversion He. repeat split. cbn [what diagnostic_err].
        exact Herr.
      * intros H. destruct (IH _ _ _ _ H) as [H1 H2]. split; [congruence|].
        intros e He. apply (raised_by_later l l1); [exact Herr | now apply H2].
Qed.

Lemma consume_until_balanced_paren_outcome (l : NeurolucidaLexer) r l' :
  consume_until_balanced_paren l = Some (r, l') ->
  err_ l' = err_ l /\ forall e, r = inl e -> raised_by l l' e.
Proof.
  unfold consume_until_balanced_paren.
  destruct (balanced_paren_loop (loop_fuel l) 1 l) as [[[e|u] l1]|] eqn:E;
    [| |discriminate].
  - intros H. inversion H; subst.
    apply (balanced_paren_loop_outcome _ _ _ _ _ E).
  - destruct (balanced_paren_loop_outcome _ _ _ _ _ E) as [Herr _].
    pose proof (consume_token_outcome RPAREN balanced_paren_msg l1) as [H1 H2].
    destruct (consume_token RPAREN balanced_paren_msg l1) as [[e|it] l2];
      cbn [fst snd] in H1, H2; intros H; inversion H; subst.
    + split; [congruence|]. intros e' He'.
      apply (raised_by_later l l1); [exact Herr|].
      apply H2. inversion He'. reflexivity.
    + split; [congruence | discriminate].
Qed.

Lemma start_parse_outcome (input : list ascii) (sm : state_machine)
    (l : NeurolucidaLexer) :
  err_ (snd (fst (start_parse input sm l))) = err_ l /\
  forall e, fst (fst (start_parse input sm l)) = inl e ->
            raised_by l (snd (fst (start_parse input sm l))) e.
Proof.
  unfold start_parse.
  destruct (build_lexer sm) as [[sm' st] b].
  destruct (skip_whitespace (siterator_begin sm' input)) as [n c].
  match goal with |- context [consume ?x] => set (l1 := x) end.
  pose proof (consume_outcome l1) as [Herr Hc].
  destruct (consume l1) as [[e|it] l2]; cbn [fst snd] in *.
  - split; [exact Herr|]. intros e' He'.
    apply (raised_by_later l l1); [reflexivity|].
    apply Hc. inversion He'. reflexivity.
  - split; [exact Herr | discriminate].
Qed.

(** Every operation returns or throws; it keeps the [ErrorMessages]; what
    it throws is a RawDataError made with them, for the line the lexer is
    on after the call. *)
Lemma operation_outcome (p : process) (o : operation) :
  exists r,
    outcome p o = Some r /\
    err_ (lexer (run_operation p o)) = err_ (lexer p) /\
    forall e, r = inl e -> raised_by (lexer p) (lexer (run_operation p o)) e.
Proof.
  destruct o; cbn [outcome run_operation with_lexer with_build lexer].
  - exists (inr tt). split; [reflexivity|]. split; [reflexivity | discriminate].
  - eexists. split; [reflexivity|]. apply start_parse_outcome.
  - eexists. split; [reflexivity|].
    pose proof (consume_outcome (lexer p)) as [H1 H2].
    split; [exact H1|]. intros e He. apply H2.
    destruct (fst (consume (lexer p))); inversion He. reflexivity.
  - eexists. split; [reflexivity|].
    pose proof (consume_token_outcome t msg (lexer p)) as [H1 H2].
    split; [exact H1|]. intros e He. apply H2.
    destruct (fst (consume_token t msg (lexer p))); inversion He. reflexivity.
  - eexists. split; [reflexivity|].
    pose proof (expect_outcome t msg (lexer p)) as [H1 H2].
    rewrite H1. split; [reflexivity|]. exact H2.
  - pose proof (consume_until_returns endpoint (lexer p)) as Hr.
    destruct (consume_until endpoint (lexer p)) as [[r l']|] eqn:E;
      [|congruence].
    exists r. split; [reflexivity|]. cbn [after].
    apply (consume_until_loop_outcome _ _ _ _ _ E).
  - pose proof (consume_until_balanced_paren_returns (lexer p)) as Hr.
    destruct (consume_until_balanced_paren (lexer p)) as [[r l']|] eqn:E;
      [|congruence].
    exists r. split; [reflexivity|]. cbn [after].
    now apply consume_until_balanced_paren_outcome.
Qed.

Lemma run_operations_err (ops : list operation) :
  forall p, err_ (lexer (run_operations p ops)) = err_ (lexer p).
Proof.
  induction ops as [|o ops IH]; intros p; [reflexivity|].
  cbn [run_operations fold_left]. fold (run_operations (run_operation p o) ops).
  rewrite IH. destruct (operation_outcome p o) as (r & _ & H & _). exact H.
Qed.

Lemma TokenToSectionType_throws (t : Token) (c : exception_class) (msg : string) :
  TokenToSectionType t = inl (c, msg) ->
  c = RawDataError /\ msg = "Could not convert token to sectin"%string.
Proof.
  unfold TokenToSectionType.
  destruct (to_id t =? to_id AXON); [discriminate|].
  destruct (to_id t =? to_id APICAL); [discriminate|].
  destruct (to_id t =? to_id DENDRITE); [discriminate|].
  intros H. inversion H. now split.
Qed.

End OperationErrors.

Section ParseOutcome.

Variable CanonicalProperties : Type.

(** A parse returns, with a value or with one failure; a failure that
    comes from the lexer is as [operation_outcome] says, one that comes
    from [TokenToSectionType] is a RawDataError. *)
Lemma run_parse_outcome (prog : parse_program CanonicalProperties) :
  forall p, exists r p',
    run_parse prog p = Some (r, p') /\
    err_ (lexer p') = err_ (lexer p) /\
    forall f, r = inl f ->
      match f with
      | cursor_failure e => raised_by (lexer p) (lexer p') e
      | conversion_failure c _ => c = RawDataError
      | parser_failure _ _ => True
      end.
Proof.
  induction prog as [cp | c msg | o next IH | t next IH]; intros p;
    cbn [run_parse].
  - exists (inr cp), p. repeat split. discriminate.
  - exists (inl (parser_failure c msg)), p. repeat split.
    intros f H. inversion H. exact I.
  - destruct (operation_outcome p o) as (r & Ho & Herr & Hr). rewrite Ho.
    destruct r as [e|u].
    + exists (inl (cursor_failure e)), (run_operation p o).
      split; [reflexivity|]. split; [exact Herr|].
      intros f H. inversion H. now apply Hr.
    + destruct (IH (lexer (run_operation p o)) (run_operation p o))
        as (r & p' & Hrun & Herr' & Hf).
      exists r, p'. split; [exact Hrun|]. split; [congruence|].
      intros f H. specialize (Hf f H). destruct f; try exact Hf.
      apply (raised_by_later (lexer p) (lexer (run_operation p o))); assumption.
  - destruct (TokenToSectionType t) as [[c msg]|st] eqn:E.
    + exists (inl (conversion_failure c msg)), p. repeat split.
      intros f H. inversion H. now apply (TokenToSectionType_throws t c msg).
    + apply IH.
Qed.

End ParseOutcome.

Lemma every_class_is_a_MorphioError (c : exception_class) :
  is_subclass c MorphioError = true.
Proof. now destruct c. Qed.

(** C8: a parse, whatever the parser does with the lexer, returns: with a
    Canonical Properties value or with one error, and nothing is done
    after the error.  The class of the error is in the hierarchy under
    MorphioError.  An error thrown by the code of the lexer is a
    RawDataError that carries the [ErrorMessages] of the lexer (made from
    the path of the file) and the line the lexer is on; the error of
    [TokenToSectionType] is a RawDataError too; the errors of the parser
    and of the section builder themselves are taken from the
    specification.  Every operation of the lexer returns or throws, and
    throws nothing but a RawDataError.  In the hierarchy the Python module
    exposes, IDSequenceError, MultipleTrees, MissingParentError and
    SectionBuilderError have RawDataError as base; RawDataError, SomaError
    and UnknownFileType have MorphioError as base; SomaError and
    UnknownFileType are not RawDataErrors. *)
Theorem errors_follow_the_taxonomy :
  (forall (CanonicalProperties : Type)
          (prog : parse_program CanonicalProperties) (p : process),
      exists r p',
        run_parse prog p = Some (r, p') /\
        err_ (lexer p') = err_ (lexer p) /\
        forall f, r = inl f ->
          is_subclass (failure_class f) MorphioError = true /\
          match f with
          | cursor_failure e => raised_by (lexer p) (lexer p') e
          | conversion_failure c _ => c = RawDataError
          | parser_failure _ _ => True
          end) /\
  (forall p o,
      outcome p o <> None /\
      forall e, outcome p o = Some (inl e) -> exn_class e = RawDataError) /\
  (forall static input l e,
      fst (fst (start_parse input static l)) = inl e ->
      exn_class e = RawDataError) /\
  (forall c, In c [IDSequenceError; MultipleTrees; MissingParentError;
                   SectionBuilderError] ->
             base_of c = Some RawDataError) /\
  (forall c, In c [RawDataError; SomaError; UnknownFileType] ->
             base_of c = Some MorphioError) /\
  base_of MorphioError = None /\
  (forall c, is_subclass c RawDataError = true <->
             In c [RawDataError; IDSequenceError; MultipleTrees;
                   MissingParentError; SectionBuilderError]) /\
  is_subclass SomaError RawDataError = false /\
  is_subclass UnknownFileType RawDataError = false.
Proof.
  split; [|split; [|split; [|split; [|split; [|split; [|split; [|split]]]]]]].
  - intros CP prog p.
    destruct (run_parse_outcome CP prog p) as (r & p' & Hrun & Herr & Hf).
    exists r, p'. split; [exact Hrun|]. split; [exact Herr|].
    intros f H. split; [apply every_class_is_a_MorphioError | now apply Hf].
  - intros p o. destruct (operation_outcome p o) as (r & Ho & _ & Hr).
    split; [now rewrite Ho|].
    intros e He. rewrite Ho in He. inversion He as [Hre].
    now destruct (Hr e Hre) as [Hc _].
  - intros static input l e H.
    now destruct (proj2 (start_parse_outcome input static l) e H).
  - intros c H. cbn in H. decompose [or] H; subst; try reflexivity. contradiction.
  - intros c H. cbn in H. decompose [or] H; subst; try reflexivity. contradiction.
  - reflexivity.
  - intros c. split.
    + destruct c; cbn; intros H; try discriminate; tauto.
    + destruct c; cbn; intros H; try reflexivity;
        decompose [or] H; try discriminate; contradiction.
  - reflexivity.
  - reflexivity.
Qed.

(** A parse of a file with a metadata block and a comment before its
    first neurite. *)
Example a_parse_that_completes :
  option_map fst
    (run_parse (first_section_type
                  (chars "(Color Red) ; soma" ++ [LF] ++ chars "(Axon (0 0 0 1))"))
               (fresh_process "cell.asc" false)) =
  Some (inr SECTION_AXON).
Proof. vm_compute. reflexivity. Qed.

(** Parses that fail: in the lexer on an empty file, on a block that is
    not closed and on a token that is not the one asked for; and in
    [TokenToSectionType]. *)
Example parses_that_fail :
  let err := {| uri := "cell.asc" |} in
  let run (input : list ascii) :=
    option_map fst (run_parse (first_section_type input)
                              (fresh_process "cell.asc" false)) in
  run [] = Some (inl (cursor_failure
                        (throw RawDataError (ERROR_EOF_REACHED err 1)))) /\
  run (chars "(Color Red" ++ [LF] ++ chars "(Axon") =
    Some (inl (cursor_failure
                 (throw RawDataError (ERROR_EOF_UNBALANCED_PARENS err 2)))) /\
  run (chars "(Color Red) Axon") =
    Some (inl (cursor_failure
                 (throw RawDataError
                    (ERROR_UNEXPECTED_TOKEN err 1 "LPAREN" (chars "Axon")
                                            "Consume")))) /\
  run (chars "(Color Red) (CellBody)") =
    Some (inl (conversion_failure RawDataError
                                  "Could not convert token to sectin")).
Proof. vm_compute. repeat split. Qed.

(** ** Further properties of the cursor *)

(** X1: [skip_whitespace] passes over a run of whitespace, newline and
    comment tokens and stops on the first token of another kind (or at the
    end); it returns the number of NEWLINE tokens in the run, and a second
    call from where it stopped skips nothing. *)
Theorem skip_whitespace_spec (it : siterator) :
  exists skipped : list match_results,
    it = skipped ++ snd (skip_whitespace it) /\
    forallb is_trivia skipped = true /\
    is_trivia (deref (snd (skip_whitespace it))) = false /\
    fst (skip_whitespace it) = wrap (N.of_nat (count_newlines skipped)) /\
    skip_whitespace (snd (skip_whitespace it)) = (0, snd (skip_whitespace it)).
Proof.
  exists (leading_trivia it).
  rewrite skip_whitespace_iter, skip_whitespace_count.
  repeat split.
  - symmetry. apply leading_drop.
  - apply leading_all_trivia.
  - apply drop_trivia_head.
  - pose proof (drop_trivia_head it) as H.
    destruct (drop_trivia_none _ H) as [Hd Hl].
    pose proof (skip_whitespace_iter (drop_trivia it)) as Hi.
    pose proof (skip_whitespace_count (drop_trivia it)) as Hc.
    destruct (skip_whitespace (drop_trivia it)) as [n it'].
    cbn [fst snd] in Hi, Hc. rewrite Hd in Hi. rewrite Hl in Hc.
    subst n it'. reflexivity.
Qed.

(** X2: [start_parse] on a lexer [l].  When the input has no token other than
    whitespace, newlines and comments (the empty input too), it throws the
    end-of-input RawDataError, at the line the counter had plus the
    newlines of the input.  Otherwise it succeeds: the current token is
    the very first token of the input (trivia or not), the lookahead is
    the first token after it that is not trivia, and both counters are
    the ones [l] had (they are not reset) plus the newlines skipped. *)
Theorem start_parse_spec (input : list ascii) (l : NeurolucidaLexer) :
  let toks := tokenize input in
  let n := N.of_nat (count_newlines (leading_trivia toks)) in
  let r := fst (start_parse input [] l) in
  if is_end (drop_trivia toks) then
    fst r = inl (throw RawDataError
                   (ERROR_EOF_REACHED (err_ l) (wrap (current_line_num_ l + n)))) /\
    current (snd r) = [] /\ peek (snd r) = toks
  else
    fst r = inr tt /\
    current (snd r) = toks /\
    peek (snd r) = drop_trivia (tl toks) /\
    line_num (snd r) = wrap (next_line_num_ l + n) /\
    next_line_num_ (snd r) =
      wrap (next_line_num_ l + n +
            (if is_end toks then 0
             else N.of_nat (count_newlines (leading_trivia (tl toks))))).
Proof.
  intros toks n r. subst r. unfold start_parse.
  change (build_lexer []) with (compiled_table, compiled_table, true).
  cbv iota beta. fold (tokenize input). fold toks.
  pose proof (skip_whitespace_iter toks) as Hi.
  pose proof (skip_whitespace_count toks) as Hk.
  destruct (skip_whitespace toks) as [k it]. cbn [fst snd] in Hi, Hk. subst k it.
  fold n.
  match goal with |- context [consume ?x] => set (l1 := x) end.
  destruct (is_end (drop_trivia toks)) eqn:E.
  - assert (He : ended l1 = true) by exact E.
    rewrite (consume_ended l1 He). cbn [fst snd].
    unfold line_num, current, peek, l1. cbn [err_ current_line_num_ current_ next_].
    rewrite wrap_add_wrap_r.
    destruct (drop_trivia toks); [|discriminate]. repeat split.
  - assert (He : ended l1 = false) by exact E.
    rewrite (consume_not_ended l1 He). cbn [fst snd].
    unfold line_num, current, peek.
    rewrite consumed_current, consumed_next, consumed_line, consumed_next_line.
    unfold l1. cbn [next_ next_line_num_].
    rewrite wrap_add_wrap_r. repeat split.
    destruct (is_end toks).
    + now rewrite N.add_0_r.
    + now rewrite wrap_add_wrap_l.
Qed.

Section CursorOperations.

Lemma advance_add (a : nat) :
  forall (b : nat) (l : NeurolucidaLexer),
    advance (a + b) l = advance b (advance a l).
Proof.
  induction a as [|a IH]; intros b l; [reflexivity|].
  cbn [Nat.add advance]. apply IH.
Qed.

Lemma consume_is_advance (l : NeurolucidaLexer) : snd (consume l) = advance 1 l.
Proof. reflexivity. Qed.

Lemma consume_until_loop_advance (fuel : nat) (t : Token) :
  forall l r l',
    consume_until_loop fuel t l = Some (r, l') -> exists k, l' = advance k l.
Proof.
  induction fuel as [|fuel IH]; intros l r l'; cbn [consume_until_loop];
    [discriminate|].
  destruct (consume l) as [[e|it] l1] eqn:C.
  - intros H. inversion H; subst. exists 1%nat.
    now rewrite <- consume_is_advance, C.
  - assert (Hl1 : l1 = advance 1 l) by now rewrite <- consume_is_advance, C.
    destruct (negb (id (deref it) =? to_id t)).
    + intros H. destruct (IH _ _ _ H) as [k Hk]. exists (1 + k)%nat.
      now rewrite advance_add, <- Hl1.
    + intros H. inversion H; subst. now exists 1%nat.
Qed.

Lemma balanced_paren_loop_advance (fuel : nat) :
  forall count l r l',
    balanced_paren_loop fuel count l = Some (r, l') -> exists k, l' = advance k l.
Proof.
  induction fuel as [|fuel IH]; intros count l r l'; cbn [balanced_paren_loop].
  - destruct (count =? 0); [|discriminate].
    intros H. inversion H; subst. now exists O.
  - destruct (count =? 0).
    + intros H. inversion H; subst. now exists O.
    + destruct (consume l) as [[e|it] l1] eqn:C.
      * intros H. inversion H; subst. exists 1%nat.
        now rewrite <- consume_is_advance, C.
      * assert (Hl1 : l1 = advance 1 l) by now rewrite <- consume_is_advance, C.
        destruct (ended l1).
        -- intros H. inversion H; subst. now exists 1%nat.
        -- intros H. destruct (IH _ _ _ _ H) as [k Hk]. exists (1 + k)%nat.
           now rewrite advance_add, <- Hl1.
Qed.

Lemma expect_keeps (t : Token) (msg : string) (l : NeurolucidaLexer) :
  snd (expect t msg l) = l.
Proof. unfold expect. now destruct (negb (id (deref (current l)) =? to_id t)). Qed.

Lemma consume_token_advance (t : Token) (msg : string) (l : NeurolucidaLexer) :
  exists k, snd (consume_token t msg l) = advance k l.
Proof.
  unfold consume_token.
  set (x := if negb (String.eqb msg "") then expect t msg l
            else expect t "Consume" l).
  assert (Hx : snd x = l)
    by (unfold x; destruct (negb (String.eqb msg "")); apply expect_keeps).
  destruct x as [[e|u] l1]; cbn [snd] in Hx; subst l1.
  - now exists O.
  - now exists 1%nat.
Qed.

(** Every operation on a started lexer moves the cursor by some number of
    [consume()] calls, and by nothing else. *)
Lemma cursor_op_advance (p : process) (o : operation) :
  cursor_op o = true ->
  static_sm (run_operation p o) = static_sm p /\
  exists k, lexer (run_operation p o) = advance k (lexer p).
Proof.
  destruct o; cbn [cursor_op]; try discriminate; intros _;
    cbn [run_operation with_lexer static_sm lexer]; (split; [reflexivity|]).
  - now exists 1%nat.
  - apply consume_token_advance.
  - exists O. apply expect_keeps.
  - unfold after, consume_until.
    destruct (consume_until_loop (loop_fuel (lexer p)) endpoint (lexer p))
      as [[r l']|] eqn:E; [|now exists O].
    now apply (consume_until_loop_advance _ _ _ _ _ E).
  - unfold after, consume_until_balanced_paren.
    destruct (balanced_paren_loop (loop_fuel (lexer p)) 1 (lexer p))
      as [[[e|u] l1]|] eqn:E; [| |now exists O].
    + now apply (balanced_paren_loop_advance _ _ _ _ _ E).
    + destruct (balanced_paren_loop_advance _ _ _ _ _ E) as [k Hk].
      destruct (consume_token_advance RPAREN balanced_paren_msg l1) as [k' Hk'].
      exists (k + k')%nat. rewrite advance_add, <- Hk, <- Hk'.
      now destruct (consume_token RPAREN balanced_paren_msg l1) as [[e|it] l2].
Qed.

Lemma cursor_ops_advance (ops : list operation) :
  forall p,
    forallb cursor_op ops = true ->
    exists k, lexer (run_operations p ops) = advance k (lexer p).
Proof.
  induction ops as [|o ops IH]; intros p H; [now exists O|].
  cbn [forallb] in H. apply andb_prop in H. destruct H as [Ho Hops].
  cbn [run_operations fold_left].
  destruct (cursor_op_advance p o Ho) as [_ [k Hk]].
  destruct (IH (run_operation p o) Hops) as [k' Hk'].
  exists (k + k')%nat. unfold run_operations in Hk'.
  now rewrite Hk', Hk, advance_add.
Qed.

Lemma started_process_lexer (path : string) (debug : bool) (input : list ascii)
    (ops : list operation) :
  forallb cursor_op ops = true ->
  exists k,
    lexer (run_operations (fresh_process path debug) (op_start_parse input :: ops)) =
    advance k (started path debug input).
Proof.
  intros H.
  exact (cursor_ops_advance ops
           (run_operation (fresh_process path debug) (op_start_parse input)) H).
Qed.

Lemma consume_keeps_trivia_only_first (toks : siterator) (l : NeurolucidaLexer) :
  trivia_only_first toks l -> trivia_only_first toks (snd (consume l)).
Proof.
  intros [Hn Hc]. destruct (ended l) eqn:He.
  - rewrite (consume_ended l He). now split.
  - rewrite (consume_not_ended l He). cbn [snd]. unfold trivia_only_first.
    unfold peek, current in *. rewrite consumed_current, consumed_next. split.
    + apply drop_trivia_head.
    + now left.
Qed.

Lemma advance_keeps_trivia_only_first (toks : siterator) (n : nat) :
  forall l, trivia_only_first toks l -> trivia_only_first toks (advance n l).
Proof.
  induction n as [|n IH]; intros l H; [exact H|].
  cbn [advance]. now apply IH, consume_keeps_trivia_only_first.
Qed.

End CursorOperations.

Section StartedCursor.

Lemma started_cursor (path : string) (debug : bool) (input : list ascii) :
  is_end (drop_trivia (tokenize input)) = false ->
  current (started path debug input) = tokenize input /\
  peek (started path debug input) = drop_trivia (tl (tokenize input)).
Proof.
  intros E. unfold started, start_parse.
  change (build_lexer []) with (compiled_table, compiled_table, true).
  cbv iota beta. fold (tokenize input).
  pose proof (skip_whitespace_iter (tokenize input)) as Hi.
  destruct (skip_whitespace (tokenize input)) as [k it]. cbn [snd] in Hi. subst it.
  match goal with |- context [consume ?x] => set (l1 := x) end.
  assert (He : ended l1 = false) by exact E.
  rewrite (consume_not_ended l1 He). cbn [fst snd]. unfold current, peek.
  now rewrite consumed_current, consumed_next.
Qed.

Lemma started_trivia_only_first (path : string) (debug : bool)
    (input : list ascii) :
  is_end (drop_trivia (tokenize input)) = false ->
  trivia_only_first (tokenize input) (started path debug input).
Proof.
  intros E. destruct (started_cursor path debug input E) as [Hc Hn].
  split; [rewrite Hn; apply drop_trivia_head | now right].
Qed.

End StartedCursor.

(** X3: After a [start_parse] that succeeds and any operations of the cursor,
    [peek()] is never on whitespace, a newline or a comment, and
    [current()] is on such a token only while it is still on the first
    token of the input (before the first [consume()] that succeeds). *)
Theorem trivia_is_surfaced_only_first
    (path : string) (debug : bool) (input : list ascii) (ops : list operation) :
  is_end (drop_trivia (tokenize input)) = false ->
  forallb cursor_op ops = true ->
  let l := lexer (run_operations (fresh_process path debug)
                                 (op_start_parse input :: ops)) in
  is_trivia (deref (peek l)) = false /\
  (is_trivia (deref (current l)) = true -> current l = tokenize input).
Proof.
  intros E Hops l.
  destruct (started_process_lexer path debug input ops Hops) as [k Hk].
  fold l in Hk.
  destruct (advance_keeps_trivia_only_first (tokenize input) k _
              (started_trivia_only_first path debug input E)) as [Hn Hc].
  rewrite <- Hk in Hn, Hc. split; [exact Hn|].
  intros Ht. destruct Hc as [Hc|Hc]; [congruence | exact Hc].
Qed.

Lemma trivia_is_surfaced_only_first_witness :
  let l := lexer (run_operations (fresh_process "cell.asc" false)
                    (op_start_parse ([LF] ++ chars "(Color Red) (Axon)")
                       :: [op_consume; op_consume_until_balanced_paren])) in
  is_trivia (deref (peek l)) = false /\
  (is_trivia (deref (current l)) = true ->
   current l = tokenize ([LF] ++ chars "(Color Red) (Axon)")).
Proof.
  apply (trivia_is_surfaced_only_first "cell.asc" false
           ([LF] ++ chars "(Color Red) (Axon)")
           [op_consume; op_consume_until_balanced_paren]);
    vm_compute; reflexivity.
Defined.

(** X4: When the input does not begin with whitespace, a newline or a comment,
    then after [start_parse] and any operations of the cursor the two line
    counters are the lines of the current token and of the lookahead (1
    plus the NEWLINE tokens before each, modulo the width of [size_t]),
    and the current token is not trivia. *)
Theorem line_counters_follow_the_cursor
    (path : string) (debug : bool) (input : list ascii) (ops : list operation) :
  is_trivia (deref (tokenize input)) = false ->
  forallb cursor_op ops = true ->
  let l := lexer (run_operations (fresh_process path debug)
                                 (op_start_parse input :: ops)) in
  line_num l = wrap (line_of (tokenize input) (current l)) /\
  next_line_num_ l = wrap (line_of (tokenize input) (peek l)) /\
  is_trivia (deref (current l)) = false.
Proof.
  intros H Hops l.
  destruct (started_process_lexer path debug input ops Hops) as [k Hk].
  fold l in Hk.
  destruct (advance_keeps_lines_in_step (tokenize input) k _
              (started_lines_in_step path debug input H))
    as (pre_c & pre_n & Hc & Hn & Lc & Ln & _).
  rewrite <- Hk in Hc, Hn, Lc, Ln.
  unfold line_num, line_of, current, peek. repeat split.
  - rewrite Lc. do 3 f_equal. rewrite Hc at 1. now rewrite tokens_before_app.
  - rewrite Ln. do 3 f_equal. rewrite Hn at 1. now rewrite tokens_before_app.
  - destruct (tokenize input) as [|t toks] eqn:Et.
    + (* no token at all: the current iterator is the end *)
      symmetry in Hc. apply app_eq_nil in Hc. destruct Hc as [_ Hc].
      fold (current l). unfold current. now rewrite Hc.
    + assert (E : is_end (drop_trivia (tokenize input)) = false).
      { rewrite Et. cbn [deref] in H. cbn [drop_trivia]. now rewrite H. }
      destruct (advance_keeps_trivia_only_first (tokenize input) k _
                  (started_trivia_only_first path debug input E)) as [_ Hcur].
      rewrite <- Hk in Hcur. unfold current in Hcur.
      destruct Hcur as [Hcur|Hcur]; [exact Hcur|].
      rewrite Hcur, Et. exact H.
Qed.

Lemma line_counters_follow_the_cursor_witness :
  let input := chars "(Color Red)" ++ [LF; LF] ++ chars "(Axon (1 2 3 4))" in
  let l := lexer (run_operations (fresh_process "cell.asc" true)
                    (op_start_parse input
                       :: [op_consume_until_balanced_paren;
                           op_consume_token LPAREN ""; op_expect AXON "type"])) in
  line_num l = wrap (line_of (tokenize input) (current l)) /\
  next_line_num_ l = wrap (line_of (tokenize input) (peek l)) /\
  is_trivia (deref (current l)) = false.
Proof.
  apply (line_counters_follow_the_cursor "cell.asc" true
           (chars "(Color Red)" ++ [LF; LF] ++ chars "(Axon (1 2 3 4))")
           [op_consume_until_balanced_paren;
            op_consume_token LPAREN ""; op_expect AXON "type"]);
    vm_compute; reflexivity.
Defined.

Section ConsumeUntil.

Lemma surfaced_nil_next (l : NeurolucidaLexer) :
  surfaced l = [] -> next_ l = [].
Proof. unfold surfaced. destruct (next_ l); [reflexivity | discriminate]. Qed.

Lemma consume_until_loop_spec (fuel : nat) (t : Token) :
  forall l : NeurolucidaLexer,
    ended l = false ->
    (S (List.length (surfaced l)) < fuel)%nat ->
    consume_until_loop fuel t l =
    match first_index (to_id t) (map id (surfaced l) ++ [to_id EOF_]) with
    | Some k => Some (inr tt, advance (S k) l)
    | None =>
        let l' := advance (S (List.length (surfaced l))) l in
        Some (inl (throw RawDataError (ERROR_EOF_REACHED (err_ l) (line_num l'))),
              l')
    end.
Proof.
  induction fuel as [|fuel IH]; intros l He Hf; [lia|].
  cbn [consume_until_loop]. rewrite (consume_not_ended l He), deref_next.
  destruct (surfaced l) as [|t0 s] eqn:Es.
  - cbn [hd map app first_index List.length]. change (id eoi_results) with (to_id EOF_).
    destruct (to_id EOF_ =? to_id t) eqn:E; cbn [negb].
    + now rewrite (advance_S 0 l He).
    + cbn [option_map]. cbv zeta. rewrite (advance_S 0 l He). cbn [advance].
      assert (E' : ended (consumed l) = true).
      { rewrite consumed_ended, (surfaced_nil_next l Es). reflexivity. }
      destruct fuel as [|fuel]; [cbn in Hf; lia|].
      cbn [consume_until_loop]. rewrite (consume_ended _ E'), consumed_err.
      reflexivity.
  - cbn [hd map app first_index List.length].
    destruct (id t0 =? to_id t) eqn:E; cbn [negb].
    + now rewrite (advance_S 0 l He).
    + assert (Hs : surfaced (consumed l) = s)
        by (rewrite surfaced_consumed, Es; reflexivity).
      assert (He' : ended (consumed l) = false)
        by (rewrite consumed_ended, is_end_next, Es; reflexivity).
      rewrite (IH (consumed l) He'); [|rewrite Hs; cbn [List.length] in Hf; lia].
      rewrite Hs, consumed_err.
      destruct (first_index (to_id t) (map id s ++ [to_id EOF_])) as [k|].
      * cbn [option_map]. now rewrite (advance_S (S k) l He).
      * cbn [option_map]. cbv zeta. now rewrite (advance_S (S (List.length s)) l He).
Qed.

End ConsumeUntil.

(** X5: [consume_until(endpoint)].  On a cursor that has ended it throws the
    end-of-input RawDataError at once.  Otherwise the ids [consume()]
    returns in turn are those of the tokens to be surfaced and then that of
    the end of the input, which is the id of EOF_: the call returns with
    the cursor on the first of these that is [endpoint], and when there is
    none it throws the end-of-input RawDataError with the cursor at the
    end.  (So [consume_until(Token::EOF_)] runs to the end and does not
    throw.) *)
Theorem consume_until_spec (endpoint : Token) (l : NeurolucidaLexer) :
  if ended l then
    consume_until endpoint l =
    Some (inl (throw RawDataError (ERROR_EOF_REACHED (err_ l) (line_num l))), l)
  else
    match first_index (to_id endpoint) (map id (surfaced l) ++ [to_id EOF_]) with
    | Some k =>
        consume_until endpoint l = Some (inr tt, advance (S k) l) /\
        id (deref (current (advance (S k) l))) = to_id endpoint
    | None =>
        let l' := advance (S (List.length (surfaced l))) l in
        consume_until endpoint l =
        Some (inl (throw RawDataError (ERROR_EOF_REACHED (err_ l) (line_num l'))),
              l') /\
        ended l' = true
    end.
Proof.
  destruct (ended l) eqn:He.
  - unfold consume_until, loop_fuel. cbn [Nat.add consume_until_loop].
    now rewrite (consume_ended l He).
  - pose proof (surfaced_length l) as Hlen.
    unfold consume_until.
    rewrite (consume_until_loop_spec (loop_fuel l) endpoint l He)
      by (unfold loop_fuel; lia).
    destruct (first_index (to_id endpoint) (map id (surfaced l) ++ [to_id EOF_]))
      as [k|] eqn:F.
    + split; [reflexivity|].
      rewrite (current_after_advance k l He).
      clear Hlen He. revert k F.
      induction (surfaced l) as [|t0 s IH]; intros k; cbn [map app first_index].
      * change (id eoi_results) with (to_id EOF_).
        destruct (to_id EOF_ =? to_id endpoint) eqn:E; [|discriminate].
        intros H. inversion H; subst. cbn. now apply N.eqb_eq in E.
      * destruct (id t0 =? to_id endpoint) eqn:E.
        -- intros H. inversion H; subst. cbn. now apply N.eqb_eq.
        -- destruct (first_index (to_id endpoint) (map id s ++ [to_id EOF_]))
             as [k'|]; [|discriminate].
           cbn [option_map]. intros H. inversion H; subst. cbn [nth].
           now apply IH.
    + cbv zeta. split; [reflexivity|]. now apply ended_after_all.
Qed.


Section ParenCounts.

Lemma count_id_cons (t : Token) (i : N) (ids : list N) :
  count_id t (i :: ids) =
  ((if (i =? to_id t)%N then 1 else 0) + count_id t ids)%nat.
Proof. unfold count_id. cbn [filter]. now destruct (i =? to_id t). Qed.

Lemma paren_step_cases (d : nat) (i : N) :
  (0 < d)%nat ->
  (paren_step d i + (if (i =? to_id RPAREN)%N then 1 else 0) =
   d + (if (i =? to_id LPAREN)%N then 1 else 0))%nat.
Proof.
  intros Hd. unfold paren_step.
  destruct (i =? to_id RPAREN) eqn:Er.
  - apply N.eqb_eq in Er. subst i. cbn. lia.
  - destruct (i =? to_id LPAREN); lia.
Qed.

(** [closing_paren] in terms of counts: [k] is the first position at
    which the RPARENs seen exceed the LPARENs seen by [d]. *)
Lemma closing_paren_counts (ids : list N) :
  forall (d k : nat),
    (0 < d)%nat ->
    (closing_paren d ids = Some k <->
     (k < List.length ids)%nat /\
     count_id RPAREN (firstn (S k) ids) =
       (d + count_id LPAREN (firstn (S k) ids))%nat /\
     forall j, (j <= k)%nat ->
               (count_id RPAREN (firstn j ids) <
                d + count_id LPAREN (firstn j ids))%nat).
Proof.
  assert (Hnil : forall t, count_id t [] = O) by reflexivity.
  induction ids as [|i ids IH]; intros d k Hd.
  - cbn [closing_paren List.length]. split; [discriminate | intros [H _]; lia].
  - cbn [closing_paren List.length]. rewrite firstn_cons, !count_id_cons.
    pose proof (paren_step_cases d i Hd) as Hs.
    destruct (paren_step d i =? 0)%nat eqn:Ez.
    + apply Nat.eqb_eq in Ez. split.
      * intros H. inversion H; subst k. rewrite firstn_O, !Hnil.
        repeat split; [lia | lia |].
        intros j Hj. assert (j = O) by lia. subst j.
        rewrite firstn_O, !Hnil. lia.
      * intros (Hk & Hc & Hj). destruct k as [|k]; [reflexivity|].
        specialize (Hj 1%nat ltac:(lia)).
        rewrite firstn_cons, firstn_O, !count_id_cons, !Hnil in Hj. lia.
    + apply Nat.eqb_neq in Ez. split.
      * destruct (closing_paren (paren_step d i) ids) as [k'|] eqn:C; [|discriminate].
        cbn [option_map]. intros H. inversion H; subst k.
        apply (IH (paren_step d i) k' ltac:(lia)) in C.
        destruct C as (Hk & Hc & Hj).
        repeat split; [lia | lia |].
        intros j Hle. destruct j as [|j]; [rewrite firstn_O, !Hnil; lia|].
        rewrite firstn_cons, !count_id_cons.
        specialize (Hj j ltac:(lia)). lia.
      * intros (Hk & Hc & Hj). destruct k as [|k].
        -- rewrite firstn_O, !Hnil in Hc. lia.
        -- assert (C : closing_paren (paren_step d i) ids = Some k).
           { apply (IH (paren_step d i) k ltac:(lia)).
             repeat split; [lia | lia |].
             intros j Hle. specialize (Hj (S j) ltac:(lia)).
             rewrite firstn_cons, !count_id_cons in Hj. lia. }
           now rewrite C.
Qed.

(** The result of [consume_until_balanced_paren] from [closing_paren]. *)
Lemma consume_until_balanced_paren_result (l : NeurolucidaLexer) :
  ended l = false ->
  N.of_nat (List.length (next_ l)) < npos ->
  consume_until_balanced_paren l =
  match closing_paren 1 (map id (surfaced l)) with
  | Some k => Some (inr tt, advance (S (S k)) l)
  | None =>
      let l' := advance (S (List.length (surfaced l))) l in
      Some (inl (throw RawDataError
                   (ERROR_EOF_UNBALANCED_PARENS (err_ l) (line_num l'))), l')
  end.
Proof.
  intros He Hb. rewrite npos_val in Hb.
  pose proof (surfaced_length l) as Hlen.
  assert (Hloop := balanced_paren_loop_spec (loop_fuel l) l 1 He).
  rewrite size_modulus_val in Hloop. unfold loop_fuel in Hloop.
  specialize (Hloop ltac:(lia) ltac:(lia) ltac:(lia)).
  unfold consume_until_balanced_paren. fold (loop_fuel l) in Hloop.
  change (N.of_nat 1) with 1 in Hloop. rewrite Hloop.
  destruct (closing_paren 1 (map id (surfaced l))) as [k|] eqn:C; [|reflexivity].
  destruct (closing_paren_is_RPAREN _ 1 k ltac:(lia) C) as [Hk Hn].
  change 0 with (id eoi_results) in Hn. rewrite map_nth in Hn.
  pose proof (current_after_advance k l He) as Hcur.
  assert (Hid : id (deref (current (advance (S k) l))) = to_id RPAREN)
    by (rewrite Hcur; exact Hn).
  destruct (consume_token_on_RPAREN _ Hid) as [_ Hct].
  rewrite Hct, (advance_S_r (S k) l).
  rewrite consume_not_ended; [reflexivity|].
  unfold ended.
  destruct (current (advance (S k) l)); [cbn in Hid; discriminate | reflexivity].
Qed.

End ParenCounts.

(** X7: [consume_until_balanced_paren] by counting.  Among the tokens that
    follow the current one, it stops after the shortest run that holds one
    RPAREN more than LPARENs and returns with the cursor behind it; when
    no run from the current token on holds more RPARENs than LPARENs, it
    throws the RawDataError for unbalanced parentheses.  (The input has
    fewer than [npos] tokens.) *)
Theorem consume_until_balanced_paren_counts (l : NeurolucidaLexer) :
  ended l = false ->
  N.of_nat (List.length (next_ l)) < npos ->
  let ids := map id (surfaced l) in
  (forall k,
      (k < List.length ids)%nat ->
      count_id RPAREN (firstn (S k) ids) = S (count_id LPAREN (firstn (S k) ids)) ->
      (forall j, (j <= k)%nat ->
                 (count_id RPAREN (firstn j ids) <= count_id LPAREN (firstn j ids))%nat) ->
      consume_until_balanced_paren l = Some (inr tt, advance (S (S k)) l)) /\
  ((forall j, (j <= List.length ids)%nat ->
              (count_id RPAREN (firstn j ids) <= count_id LPAREN (firstn j ids))%nat) ->
   exists l',
     consume_until_balanced_paren l =
     Some (inl (throw RawDataError
                  (ERROR_EOF_UNBALANCED_PARENS (err_ l) (line_num l'))), l') /\
     ended l' = true).
Proof.
  intros He Hb ids. rewrite (consume_until_balanced_paren_result l He Hb).
  fold ids. split.
  - intros k Hk Hc Hj.
    assert (C : closing_paren 1 ids = Some k).
    { apply (closing_paren_counts ids 1 k ltac:(lia)).
      repeat split; [exact Hk | rewrite Hc; lia |].
      intros j Hle. specialize (Hj j Hle). lia. }
    now rewrite C.
  - intros Hj. destruct (closing_paren 1 ids) as [k|] eqn:C.
    + apply (closing_paren_counts ids 1 k ltac:(lia)) in C.
      destruct C as (Hk & Hc & _). specialize (Hj (S k) ltac:(lia)). lia.
    + cbv zeta. eexists. split; [reflexivity|]. now apply ended_after_all.
Qed.

Lemma consume_until_balanced_paren_counts_witness :
  consume_until_balanced_paren lexer_on_block =
  Some (inr tt, advance 12 lexer_on_block).
Proof.
  apply (proj1 (consume_until_balanced_paren_counts lexer_on_block
                  ltac:(vm_compute; reflexivity) ltac:(vm_compute; reflexivity))
               10%nat).
  - vm_compute. lia.
  - vm_compute. reflexivity.
  - intros j Hj.
    do 11 (destruct j as [|j]; [vm_compute; lia|]). lia.
Defined.

Section DebugFlag.

Lemma same_cursor_refl (l : NeurolucidaLexer) : same_cursor l l.
Proof. now repeat split. Qed.

Lemma same_cursor_consumed (l1 l2 : NeurolucidaLexer) :
  same_cursor l1 l2 -> same_cursor (consumed l1) (consumed l2).
Proof.
  intros (He & Hc & Hn & Lc & Ln). unfold same_cursor.
  rewrite !consumed_err, !consumed_current, !consumed_next, !consumed_line,
    !consumed_next_line, He, Hn, Ln.
  now repeat split.
Qed.

Lemma same_cursor_ended (l1 l2 : NeurolucidaLexer) :
  same_cursor l1 l2 -> ended l1 = ended l2.
Proof. intros (_ & Hc & _). unfold ended, current. now rewrite Hc. Qed.

Lemma same_cursor_consume (l1 l2 : NeurolucidaLexer) :
  same_cursor l1 l2 ->
  fst (consume l1) = fst (consume l2) /\
  same_cursor (snd (consume l1)) (snd (consume l2)).
Proof.
  intros H. pose proof (same_cursor_ended l1 l2 H) as He.
  destruct (ended l1) eqn:E1; symmetry in He.
  - rewrite (consume_ended l1 E1), (consume_ended l2 He). cbn [fst snd].
    pose proof H as (Hr & _ & _ & Lc & _). unfold line_num.
    split; [now rewrite Hr, Lc | exact H].
  - rewrite (consume_not_ended l1 E1), (consume_not_ended l2 He). cbn [fst snd].
    split; [f_equal; apply H | now apply same_cursor_consumed].
Qed.

Lemma same_cursor_expect (t : Token) (msg : string) (l1 l2 : NeurolucidaLexer) :
  same_cursor l1 l2 ->
  fst (expect t msg l1) = fst (expect t msg l2) /\
  same_cursor (snd (expect t msg l1)) (snd (expect t msg l2)).
Proof.
  intros H. rewrite !expect_keeps. split; [|exact H].
  destruct H as (Hr & Hc & _ & Lc & _).
  unfold expect, current, line_num. rewrite Hr, Hc, Lc.
  now destruct (negb (id (deref (current_ l2)) =? to_id t)).
Qed.

Lemma same_cursor_consume_token (t : Token) (msg : string)
    (l1 l2 : NeurolucidaLexer) :
  same_cursor l1 l2 ->
  fst (consume_token t msg l1) = fst (consume_token t msg l2) /\
  same_cursor (snd (consume_token t msg l1)) (snd (consume_token t msg l2)).
Proof.
  intros H. unfold consume_token.
  set (m := if negb (String.eqb msg "") then msg else "Consume"%string).
  replace (if negb (String.eqb msg "") then expect t msg l1 else expect t "Consume" l1)
    with (expect t m l1) by (unfold m; now destruct (negb (String.eqb msg ""))).
  replace (if negb (String.eqb msg "") then expect t msg l2 else expect t "Consume" l2)
    with (expect t m l2) by (unfold m; now destruct (negb (String.eqb msg ""))).
  destruct (same_cursor_expect t m l1 l2 H) as [Hf Hs].
  pose proof (expect_keeps t m l1) as K1. pose proof (expect_keeps t m l2) as K2.
  destruct (expect t m l1) as [[e1|u1] a1]; destruct (expect t m l2) as [[e2|u2] a2];
    cbn [fst snd] in *; try discriminate.
  - inversion Hf. split; [reflexivity | exact Hs].
  - subst a1 a2. now apply same_cursor_consume.
Qed.

Lemma same_cursor_consume_until_loop (fuel : nat) (t : Token) :
  forall l1 l2,
    same_cursor l1 l2 ->
    same_run (consume_until_loop fuel t l1) (consume_until_loop fuel t l2).
Proof.
  induction fuel as [|fuel IH]; intros l1 l2 H; cbn [consume_until_loop];
    [exact I|].
  destruct (same_cursor_consume l1 l2 H) as [Hf Hs].
  destruct (consume l1) as [[e1|i1] a1]; destruct (consume l2) as [[e2|i2] a2];
    cbn [fst snd] in *; try discriminate.
  - inversion Hf. now split.
  - inversion Hf; subst i2.
    destruct (negb (id (deref i1) =? to_id t)); [now apply IH | now split].
Qed.

Lemma same_cursor_balanced_paren_loop (fuel : nat) :
  forall count l1 l2,
    same_cursor l1 l2 ->
    same_run (balanced_paren_loop fuel count l1) (balanced_paren_loop fuel count l2).
Proof.
  induction fuel as [|fuel IH]; intros count l1 l2 H; cbn [balanced_paren_loop].
  - destruct (count =? 0); [now split | exact I].
  - destruct (count =? 0); [now split|].
    destruct (same_cursor_consume l1 l2 H) as [Hf Hs].
    destruct (consume l1) as [[e1|i1] a1]; destruct (consume l2) as [[e2|i2] a2];
      cbn [fst snd] in *; try discriminate.
    + inversion Hf. now split.
    + inversion Hf; subst i2. rewrite (same_cursor_ended a1 a2 Hs).
      destruct (ended a2).
      * pose proof Hs as (Hr & Hc & Hn & Lc & Ln). unfold line_num.
        rewrite Hr, Lc. now split.
      * now apply IH.
Qed.

Lemma same_cursor_loop_fuel (l1 l2 : NeurolucidaLexer) :
  same_cursor l1 l2 -> loop_fuel l1 = loop_fuel l2.
Proof. intros (_ & _ & Hn & _). unfold loop_fuel. now rewrite Hn. Qed.

Lemma same_run_after {A : Type} (l1 l2 : NeurolucidaLexer)
    (r1 r2 : option ((exn + A) * NeurolucidaLexer)) :
  same_cursor l1 l2 -> same_run r1 r2 -> same_cursor (after l1 r1) (after l2 r2).
Proof.
  intros H R. destruct r1 as [[o1 a1]|]; destruct r2 as [[o2 a2]|];
    cbn in *; try contradiction; [apply R | exact H].
Qed.

Lemma same_cursor_balanced (l1 l2 : NeurolucidaLexer) :
  same_cursor l1 l2 ->
  same_run (consume_until_balanced_paren l1) (consume_until_balanced_paren l2).
Proof.
  intros H. unfold consume_until_balanced_paren.
  rewrite (same_cursor_loop_fuel l1 l2 H).
  pose proof (same_cursor_balanced_paren_loop (loop_fuel l2) 1 l1 l2 H) as R.
  destruct (balanced_paren_loop (loop_fuel l2) 1 l1) as [[[e1|u1] a1]|];
    destruct (balanced_paren_loop (loop_fuel l2) 1 l2) as [[[e2|u2] a2]|];
    cbn [same_run] in R; try contradiction; try (destruct R; discriminate);
    try exact R.
  destruct R as [_ Hs].
  destruct (same_cursor_consume_token RPAREN balanced_paren_msg a1 a2 Hs) as [Hf Hs'].
  destruct (consume_token RPAREN balanced_paren_msg a1) as [[e1|i1] b1];
    destruct (consume_token RPAREN balanced_paren_msg a2) as [[e2|i2] b2];
    cbn [fst snd same_run] in *; try discriminate;
    [inversion Hf; now split | now split].
Qed.

Lemma same_cursor_start_parse (input : list ascii) (sm : state_machine)
    (l1 l2 : NeurolucidaLexer) :
  same_cursor l1 l2 ->
  fst (fst (start_parse input sm l1)) = fst (fst (start_parse input sm l2)) /\
  same_cursor (snd (fst (start_parse input sm l1)))
              (snd (fst (start_parse input sm l2))) /\
  snd (start_parse input sm l1) = snd (start_parse input sm l2).
Proof.
  intros (Hr & Hc & Hn & Lc & Ln). unfold start_parse.
  destruct (build_lexer sm) as [[sm1 st] b].
  destruct (skip_whitespace (siterator_begin sm1 input)) as [n c].
  set (x := mkLexer (debug_ l1) (err_ l1) c (siterator_begin sm1 input)
                    (wrap (current_line_num_ l1 + n))
                    (wrap (next_line_num_ l1 + n)) (cout l1)).
  set (y := mkLexer (debug_ l2) (err_ l2) c (siterator_begin sm1 input)
                    (wrap (current_line_num_ l2 + n))
                    (wrap (next_line_num_ l2 + n)) (cout l2)).
  assert (S : same_cursor x y)
    by (unfold same_cursor, x, y; cbn; rewrite Hr, Lc, Ln; now repeat split).
  destruct (same_cursor_consume x y S) as [Hf Hs].
  destruct (consume x) as [[e1|i1] a1]; destruct (consume y) as [[e2|i2] a2];
    cbn [fst snd] in *; try discriminate.
  - inversion Hf. split; [reflexivity | split; [exact Hs | reflexivity]].
  - split; [reflexivity | split; [exact Hs | reflexivity]].
Qed.

Lemma same_cursor_run_operation (p1 p2 : process) (o : operation) :
  static_sm p1 = static_sm p2 ->
  same_cursor (lexer p1) (lexer p2) ->
  static_sm (run_operation p1 o) = static_sm (run_operation p2 o) /\
  same_cursor (lexer (run_operation p1 o)) (lexer (run_operation p2 o)).
Proof.
  intros Hs H.
  destruct o; cbv zeta;
    cbn [run_operation with_lexer with_build static_sm lexer]; rewrite ?Hs.
  - now split.
  - destruct (same_cursor_start_parse input (static_sm p2) _ _ H) as (_ & H2 & H3).
    now split.
  - split; [reflexivity | now apply same_cursor_consume].
  - split; [reflexivity | now apply same_cursor_consume_token].
  - split; [reflexivity | now apply same_cursor_expect].
  - split; [reflexivity|]. apply same_run_after; [exact H|].
    unfold consume_until. rewrite (same_cursor_loop_fuel _ _ H).
    now apply same_cursor_consume_until_loop.
  - split; [reflexivity|]. apply same_run_after; [exact H|].
    now apply same_cursor_balanced.
Qed.

Lemma quiet_consume (l : NeurolucidaLexer) : quiet l -> quiet (snd (consume l)).
Proof.
  intros [Hd Hc]. unfold consume. destruct (ended l); [now split|].
  destruct (next_ l) as [|t r]; [|destruct (skip_whitespace r)];
    cbn [snd debug_]; rewrite Hd; now split.
Qed.

Lemma quiet_advance (n : nat) : forall l, quiet l -> quiet (advance n l).
Proof.
  induction n as [|n IH]; intros l H; [exact H|].
  cbn [advance]. now apply IH, quiet_consume.
Qed.

Lemma quiet_start_parse (input : list ascii) (sm : state_machine)
    (l : NeurolucidaLexer) :
  quiet l -> quiet (snd (fst (start_parse input sm l))).
Proof.
  intros [Hd Hc]. unfold start_parse.
  destruct (build_lexer sm) as [[sm1 st] b].
  destruct (skip_whitespace (siterator_begin sm1 input)) as [n c].
  match goal with
  | |- context [consume ?x] =>
      assert (Q : quiet x) by (now split);
      apply quiet_consume in Q; destruct (consume x) as [r a]
  end.
  exact Q.
Qed.

Lemma quiet_run_operation (p : process) (o : operation) :
  quiet (lexer p) -> quiet (lexer (run_operation p o)).
Proof.
  intros H. destruct o.
  - exact H.
  - cbv zeta. cbn [run_operation lexer]. now apply quiet_start_parse.
  - destruct (cursor_op_advance p op_consume eq_refl) as [_ [k Hk]].
    rewrite Hk. now apply quiet_advance.
  - destruct (cursor_op_advance p (op_consume_token t msg) eq_refl) as [_ [k Hk]].
    rewrite Hk. now apply quiet_advance.
  - destruct (cursor_op_advance p (op_expect t msg) eq_refl) as [_ [k Hk]].
    rewrite Hk. now apply quiet_advance.
  - destruct (cursor_op_advance p (op_consume_until endpoint) eq_refl) as [_ [k Hk]].
    rewrite Hk. now apply quiet_advance.
  - destruct (cursor_op_advance p op_consume_until_balanced_paren eq_refl)
      as [_ [k Hk]].
    rewrite Hk. now apply quiet_advance.
Qed.

End DebugFlag.

(** X8: The debug flag changes nothing but what is printed: two processes that
    run the same operations, one with the flag on and one with it off,
    have the same cursor (iterators and line counters) after every
    operation, and the one with the flag off has printed nothing. *)
Theorem debug_only_prints (path : string) (ops : list operation) :
  let p1 := run_operations (fresh_process path true) ops in
  let p0 := run_operations (fresh_process path false) ops in
  static_sm p1 = static_sm p0 /\
  same_cursor (lexer p1) (lexer p0) /\
  cout (lexer p0) = [].
Proof.
  cbv zeta.
  assert (G : forall ops p1 p0,
             static_sm p1 = static_sm p0 ->
             same_cursor (lexer p1) (lexer p0) ->
             quiet (lexer p0) ->
             static_sm (run_operations p1 ops) = static_sm (run_operations p0 ops) /\
             same_cursor (lexer (run_operations p1 ops))
                         (lexer (run_operations p0 ops)) /\
             quiet (lexer (run_operations p0 ops))).
  { clear ops. induction ops as [|o ops IH]; intros p1 p0 Hs H Q.
    - split; [exact Hs | split; [exact H | exact Q]].
    - cbn [run_operations fold_left].
      destruct (same_cursor_run_operation p1 p0 o Hs H) as [Hs' H'].
      apply (IH _ _ Hs' H'). now apply quiet_run_operation. }
  destruct (G ops (fresh_process path true) (fresh_process path false))
    as (H1 & H2 & H3 & H4).
  - reflexivity.
  - repeat split.
  - split; reflexivity.
  - split; [exact H1 | split; [exact H2 | exact H4]].
Qed.

(** ** Further properties of errors *)

(** X23: every operation of the lexer returns or throws, whatever state
    the lexer is in; none changes the [ErrorMessages]; what an operation
    throws is a RawDataError whose diagnostic was made by the
    [ErrorMessages] of the lexer for the line [line_num()] gives after
    the call.  So in a lexer made for a path, every diagnostic carries
    that path, whatever has been done with the lexer before. *)
Theorem operations_throw_RawDataError :
  (forall p o,
      exists r,
        outcome p o = Some r /\
        err_ (lexer (run_operation p o)) = err_ (lexer p) /\
        forall e, r = inl e ->
                  raised_by (lexer p) (lexer (run_operation p o)) e) /\
  (forall path debug ops o e,
      outcome (run_operations (fresh_process path debug) ops) o = Some (inl e) ->
      exn_class e = RawDataError /\
      uri (diagnostic_err (what e)) = path).
Proof.
  split; [exact operation_outcome|].
  intros path debug ops o e H.
  destruct (operation_outcome (run_operations (fresh_process path debug) ops) o)
    as (r & Ho & _ & Hr).
  rewrite Ho in H. inversion H as [Hre].
  destruct (Hr e Hre) as (Hc & Hd & _). split; [exact Hc|].
  now rewrite Hd, run_operations_err.
Qed.

(** X24: the exception classes as the Python module registers them form
    a tree under MorphioError: no class is registered twice, every base
    named in a registration has been registered before, and being a
    subclass (what an except clause of Python tests) is reflexive,
    transitive and antisymmetric, holds of every class and MorphioError,
    and holds of two classes exactly when they are the same or the base
    of the first is a subclass of the second. *)
Theorem registered_classes_form_a_tree :
  NoDup (map fst registered) /\
  bases_first [] registered = true /\
  (forall c, is_subclass c c = true) /\
  (forall a b c, is_subclass a b = true -> is_subclass b c = true ->
                 is_subclass a c = true) /\
  (forall a b, is_subclass a b = true -> is_subclass b a = true -> a = b) /\
  (forall c, is_subclass c MorphioError = true) /\
  (forall c d, is_subclass c d = true <->
               c = d \/ exists b, base_of c = Some b /\ is_subclass b d = true).
Proof.
  split; [|split; [|split; [|split; [|split; [|split]]]]].
  - cbn [map fst registered].
    repeat (constructor; [cbn [In]; intuition discriminate|]). constructor.
  - reflexivity.
  - intros c. now destruct c.
  - intros a b c. destruct a, b; intros H; try discriminate H;
      destruct c; intros H'; try discriminate H'; reflexivity.
  - intros a b. destruct a, b; intros H H'; try reflexivity;
      try discriminate H; discriminate H'.
  - exact every_class_is_a_MorphioError.
  - intros c d. split.
    + destruct c, d; intros H; try discriminate H;
        try (left; reflexivity); right; eexists; split; reflexivity.
    + intros [->|(b & Hb & Hs)]; [now destruct d|].
      destruct c; vm_compute in Hb; inversion Hb; subst b;
        destruct d; try reflexivity; discriminate Hs.
Qed.

(** ** Further properties of the token stream *)

Section TokenText.

Lemma tokens_from_In (sm : state_machine) (fuel : nat) :
  forall (s : list ascii) (t : match_results),
    In t (tokens_from fuel sm s) ->
    exists s', s' <> [] /\ t = fst (lookup sm s').
Proof.
  induction fuel as [|fuel IH]; intros s t; cbn [tokens_from]; [intros []|].
  destruct s as [|c s]; [intros []|].
  destruct (lookup sm (c :: s)) as [t0 rest] eqn:L.
  intros [H|H].
  - exists (c :: s). split; [discriminate|]. now rewrite L.
  - now apply (IH rest).
Qed.

(** What [lookup] yields on an input that is not empty. *)
Lemma lookup_sound (sm : state_machine) (s : list ascii) :
  s <> [] ->
  str (fst (lookup sm s)) <> [] /\
  ((id (fst (lookup sm s)) = npos /\ List.length (str (fst (lookup sm s))) = 1%nat) \/
   exists r, In (r, id (fst (lookup sm s))) sm /\ matches r (str (fst (lookup sm s)))).
Proof.
  destruct s as [|c s]; [congruence|]. intros _. unfold lookup.
  destruct (best_match sm (c :: s)) as [[n i]|] eqn:B; cbn [fst id str].
  - destruct (best_match_spec sm (c :: s) n i B)
      as (Hn & earlier & r & later & Hsm & Hm & _).
    split.
    + destruct n as [|n]; [lia | discriminate].
    + right. exists r. split; [|exact Hm].
      rewrite Hsm. apply in_or_app. right. now left.
  - split; [discriminate | left; now split].
Qed.

Lemma words_complete (r : regex) :
  forall ws w, words r = Some ws -> matches r w -> In w ws.
Proof.
  induction r as [| |n l|r1 IH1 r2 IH2|r1 IH1 r2 IH2|r IH]; intros ws w Hw Hm;
    cbn [words] in Hw.
  - inversion Hm.
  - inversion Hw; subst. inversion Hm; subst. now left.
  - destruct n; [discriminate|].
    destruct (forallb _ l) eqn:F; [|discriminate].
    inversion Hw; subst ws. inversion Hm as [|? ? c Hmem| | | | |]; subst.
    unfold sym_mem in Hmem. rewrite Bool.xorb_false_l in Hmem.
    apply existsb_exists in Hmem. destruct Hmem as (i & Hi & Hc).
    apply in_flat_map. exists i. split; [exact Hi|].
    rewrite forallb_forall in F. specialize (F i Hi).
    destruct i as [d|lo hi]; [|discriminate].
    cbn [item_mem] in Hc. apply Ascii.eqb_eq in Hc. subst d. now left.
  - destruct (words r1) as [w1|]; [|discriminate].
    destruct (words r2) as [w2|]; [|discriminate].
    inversion Hw; subst ws. apply matches_Cat_inv in Hm.
    destruct Hm as (s1 & s2 & Hs & H1 & H2). subst w.
    apply in_flat_map. exists s1. split; [now apply IH1|].
    apply in_map. now apply IH2.
  - destruct (words r1) as [w1|]; [|discriminate].
    destruct (words r2) as [w2|]; [|discriminate].
    inversion Hw; subst ws. apply in_or_app.
    apply matches_Alt_inv in Hm. destruct Hm as [H|H];
      [left; now apply IH1 | right; now apply IH2].
  - discriminate.
Qed.

Lemma spellings_complete (sm : state_machine) (i : N) :
  forall ws r w,
    spellings sm i = Some ws -> In (r, i) sm -> matches r w -> In w ws.
Proof.
  induction sm as [|[r0 j] sm IH]; intros ws r w Hs Hin Hm; [destruct Hin|].
  cbn [spellings] in Hs. destruct (j =? i) eqn:E.
  - destruct (words r0) as [w1|] eqn:W; [|discriminate].
    destruct (spellings sm i) as [w2|]; [|discriminate].
    inversion Hs; subst ws. apply in_or_app.
    destruct Hin as [Heq|Hin].
    + inversion Heq; subst. left. now apply (words_complete r w1 w W).
    + right. now apply (IH w2 r w eq_refl).
  - destruct Hin as [Heq|Hin].
    + inversion Heq; subst. rewrite N.eqb_refl in E. discriminate.
    + now apply (IH ws r w).
Qed.

(** A token of the stream whose id has rules with finitely many strings
    has one of those strings as its text. *)
Lemma token_spelling (input : list ascii) (t : match_results) (k : Token)
    (ws : list (list ascii)) :
  In t (tokenize input) ->
  id t = to_id k ->
  spellings compiled_table (to_id k) = Some ws ->
  In (str t) ws.
Proof.
  intros Hin Hid Hs.
  destruct (tokens_from_In _ _ _ _ Hin) as (s' & Hne & Ht).
  destruct (lookup_sound compiled_table s' Hne) as [_ [[Hn _]|(r & Hr & Hm)]];
    rewrite <- Ht in *.
  - exfalso. apply (npos_is_no_token k). congruence.
  - rewrite Hid in Hr. now apply (spellings_complete compiled_table (to_id k) ws r).
Qed.

Lemma rule_ids_check :
  forallb (fun ri => negb (snd ri =? to_id EOF_) && negb (snd ri =? to_id RGB))
          compiled_table = true.
Proof. vm_compute. reflexivity. Qed.

End TokenText.

(** X9: The tokens of an input.  Their texts, put together in order, are the
    input, and no text is empty.  Every token either has the id [npos] and
    is one character that no rule matches, or has the id of a rule whose
    pattern its text matches.  No token has the id of EOF_, and none has
    the id of RGB (for which there is no rule). *)
Theorem token_stream_sound (input : list ascii) :
  List.concat (map str (tokenize input)) = input /\
  forall t, In t (tokenize input) ->
            str t <> [] /\
            ((id t = npos /\ List.length (str t) = 1%nat) \/
             exists r, In (r, id t) rules_ /\ matches r (str t)) /\
            id t <> to_id EOF_ /\ id t <> to_id RGB.
Proof.
  split; [apply siterator_begin_concat|].
  intros t Hin.
  destruct (tokens_from_In _ _ _ _ Hin) as (s' & Hne & Ht).
  destruct (lookup_sound compiled_table s' Hne) as [Hs Hc]. rewrite <- Ht in *.
  split; [exact Hs|]. split; [exact Hc|].
  destruct Hc as [[Hn _]|(r & Hr & _)].
  - rewrite Hn. split; apply npos_is_no_token.
  - pose proof rule_ids_check as C. rewrite forallb_forall in C.
    specialize (C (r, id t) Hr). cbn [snd] in C.
    apply andb_prop in C. destruct C as [C1 C2].
    apply negb_true_iff in C1, C2. apply N.eqb_neq in C1, C2. now split.
Qed.

(** X10: Conversely to the tokenizing of the neurite words: a token of kind
    AXON, APICAL, DENDRITE or CELLBODY, wherever it stands in the stream,
    is spelled in one of the ways of [neurite_spellings]. *)
Theorem neurite_tokens_are_spelled_so
    (input : list ascii) (t : match_results) (k : Token) :
  In t (tokenize input) ->
  In k [AXON; APICAL; DENDRITE; CELLBODY] ->
  id t = to_id k ->
  In (str t, k) neurite_spellings.
Proof.
  intros Hin Hk Hid.
  assert (Hsp : forall ws, spellings compiled_table (to_id k) = Some ws ->
                           In (str t) ws)
    by (intros ws; now apply (token_spelling input t k ws)).
  cbn [In] in Hk. decompose [or] Hk; try contradiction; subst k;
    match goal with
    | |- In (_, ?k) _ =>
        let ws := eval vm_compute in (spellings compiled_table (to_id k)) in
        match ws with
        | Some ?l =>
            assert (Hw : In (str t) l)
              by (apply Hsp; vm_compute; reflexivity)
        end
    end;
    cbn [In] in Hw; decompose [or] Hw; try contradiction;
    match goal with H : _ = str t |- _ => rewrite <- H end;
    unfold neurite_spellings; cbn [In]; tauto.
Qed.

Lemma neurite_tokens_are_spelled_so_witness :
  In (chars "Cell Body", CELLBODY) neurite_spellings.
Proof.
  apply (neurite_tokens_are_spelled_so
           (chars "(Cell Body (0 0 0 2))")
           {| id := to_id CELLBODY; str := chars "Cell Body" |} CELLBODY).
  - vm_compute. tauto.
  - cbn. tauto.
  - reflexivity.
Defined.

(** X11: The punctuation and the reserved words have one text each: a token
    of kind NEWLINE, LPAREN, RPAREN, RSPINE, COMMA, PIPE, COLOR, FONT,
    GENERATED, HIGH, INCOMPLETE, LOW, NORMAL, MIDPOINT or ORIGIN has
    exactly the text [fixed_lexemes] gives for its kind. *)
Theorem fixed_tokens_have_their_text
    (input : list ascii) (t : match_results) (k : Token) (w : list ascii) :
  In t (tokenize input) ->
  In (k, w) fixed_lexemes ->
  id t = to_id k ->
  str t = w.
Proof.
  intros Hin Hk Hid.
  assert (Hsp : forall ws, spellings compiled_table (to_id k) = Some ws ->
                           In (str t) ws)
    by (intros ws; now apply (token_spelling input t k ws)).
  unfold fixed_lexemes in Hk. cbn [In] in Hk.
  decompose [or] Hk; try contradiction;
    match goal with H : (_, _) = (k, w) |- _ => inversion H; subst k w end;
    match goal with
    | |- _ = ?w =>
        assert (Hw : In (str t) [w]) by (apply Hsp; vm_compute; reflexivity)
    end;
    destruct Hw as [Hw|[]]; now rewrite <- Hw.
Qed.

Lemma fixed_tokens_have_their_text_witness :
  str {| id := to_id RSPINE; str := chars ")>" |} = chars ")>".
Proof.
  apply (fixed_tokens_have_their_text
           (chars "<(1 2 3 4)>") {| id := to_id RSPINE; str := chars ")>" |} RSPINE).
  - vm_compute. tauto.
  - unfold fixed_lexemes. cbn. tauto.
  - reflexivity.
Defined.

(** ** Tokens made of a run of characters *)

Section Runs.

Lemma derivs_snoc (w : list ascii) (c : ascii) (r : regex) :
  derivs (w ++ [c]) r = deriv c (derivs w r).
Proof. unfold derivs. now rewrite fold_left_app. Qed.

Lemma item_eqb_eq (a b : item) : item_eqb a b = true -> a = b.
Proof.
  destruct a, b; cbn [item_eqb]; try discriminate.
  - intros H. apply Ascii.eqb_eq in H. now subst.
  - intros H. apply andb_prop in H. destruct H as [H1 H2].
    apply Ascii.eqb_eq in H1, H2. now subst.
Qed.

Lemma items_eqb_eq (a : list item) : forall b, items_eqb a b = true -> a = b.
Proof.
  induction a as [|x a IH]; intros [|y b]; cbn [items_eqb]; try discriminate.
  - reflexivity.
  - intros H. apply andb_prop in H. destruct H as [H1 H2].
    apply item_eqb_eq in H1. apply IH in H2. now subst.
Qed.

Lemma regex_eqb_eq (a : regex) : forall b, regex_eqb a b = true -> a = b.
Proof.
  induction a as [| |n l|a1 IH1 a2 IH2|a1 IH1 a2 IH2|a IH]; intros b;
    destruct b; cbn [regex_eqb]; try discriminate; intros H.
  - reflexivity.
  - reflexivity.
  - apply andb_prop in H. destruct H as [H1 H2].
    apply Bool.eqb_prop in H1. apply items_eqb_eq in H2. now subst.
  - apply andb_prop in H. destruct H as [H1 H2].
    apply IH1 in H1. apply IH2 in H2. now subst.
  - apply andb_prop in H. destruct H as [H1 H2].
    apply IH1 in H1. apply IH2 in H2. now subst.
  - apply IH in H. now subst.
Qed.

Lemma is_Nul_eq (r : regex) : is_Nul r = true -> r = Nul.
Proof. destruct r; try discriminate. reflexivity. Qed.

Lemma all_chars_spec (P f : ascii -> bool) :
  all_chars P f = true -> forall c, P c = true -> f c = true.
Proof.
  unfold all_chars. rewrite forallb_forall. intros H c Hc.
  exact (implb_elim _ _ (H c (in_all_ascii c)) Hc).
Qed.

Lemma longest_None_not_nullable (s : list ascii) :
  forall r, longest r s = None -> nullable r = false.
Proof.
  destruct s as [|c s]; intros r; cbn [longest].
  - destruct (nullable r); [discriminate | reflexivity].
  - destruct (longest (deriv c r) s); [discriminate|].
    destruct (nullable r); [discriminate | reflexivity].
Qed.

(** The longest match in [w ++ s], from the residual after [w]. *)
Lemma longest_app (w : list ascii) :
  forall (r : regex) (s : list ascii),
    longest r (w ++ s) =
    match longest (derivs w r) s with
    | Some n => Some (List.length w + n)%nat
    | None => longest r w
    end.
Proof.
  induction w as [|a w IH]; intros r s.
  - cbn [app derivs fold_left List.length Nat.add longest].
    destruct (longest r s) eqn:E; [reflexivity|].
    now rewrite (longest_None_not_nullable s r E).
  - cbn [app longest]. rewrite IH. cbn [derivs fold_left].
    fold (derivs w (deriv a r)).
    destruct (longest (derivs w (deriv a r)) s); reflexivity.
Qed.

Lemma longest_lt (w : list ascii) :
  forall r m,
    nullable (derivs w r) = false -> longest r w = Some m ->
    (m < List.length w)%nat.
Proof.
  induction w as [|a w IH]; intros r m Hn; cbn [longest].
  - cbn in Hn. rewrite Hn. discriminate.
  - destruct (longest (deriv a r) w) as [n|] eqn:E.
    + intros H. inversion H; subst. apply (IH (deriv a r) n Hn) in E.
      cbn [List.length]. lia.
    + destruct (nullable r); intros H; inversion H; cbn [List.length]; lia.
Qed.

Variable P Q : ascii -> bool.

Lemma longest_run (R : regex) (ds rest : list ascii) :
  grows P Q R = true ->
  forallb P ds = true ->
  followed_by Q rest ->
  longest R (ds ++ rest) = Some (List.length ds).
Proof.
  unfold grows. intros G.
  apply andb_prop in G. destruct G as [G HQ].
  apply andb_prop in G. destruct G as [Hnull HP].
  pose proof (all_chars_spec _ _ HP) as HP'.
  pose proof (all_chars_spec _ _ HQ) as HQ'. clear HP HQ.
  induction ds as [|d ds IH]; intros Hds Hrest.
  - cbn [app List.length]. destruct rest as [|c rest]; cbn [longest].
    + now rewrite Hnull.
    + cbn [followed_by] in Hrest.
      rewrite (is_Nul_eq _ (HQ' c Hrest)).
      now rewrite longest_Nul, Hnull.
  - cbn [forallb] in Hds. apply andb_prop in Hds. destruct Hds as [Hd Hds].
    cbn [app longest List.length].
    rewrite (regex_eqb_eq _ _ (HP' d Hd)), (IH Hds Hrest). reflexivity.
Qed.

Lemma longest_stop (w : list ascii) (r : regex) (ds rest : list ascii) :
  stops P Q (derivs w r) = true ->
  forallb P ds = true ->
  followed_by Q rest ->
  longest r (w ++ ds ++ rest) = longest r w.
Proof.
  unfold stops. intros S Hds Hrest.
  pose proof (all_chars_spec _ _ S) as S'. clear S.
  assert (Hc : forall c s, (P c || Q c = true) ->
                           longest r (w ++ c :: s) = longest r w).
  { intros c s Hc. apply longest_dead. rewrite derivs_snoc.
    exact (is_Nul_eq _ (S' c Hc)). }
  destruct ds as [|d ds].
  - destruct rest as [|c rest]; cbn [app].
    + now rewrite app_nil_r.
    + apply Hc. cbn [followed_by] in Hrest. rewrite Hrest. apply orb_true_r.
  - cbn [app]. apply Hc. cbn [forallb] in Hds.
    apply andb_prop in Hds. destruct Hds as [Hd _]. now rewrite Hd.
Qed.

Lemma best_match_In (sm : state_machine) (s : list ascii) :
  forall m j, best_match sm s = Some (m, j) ->
              exists r, In (r, j) sm /\ longest r s = Some m.
Proof.
  induction sm as [|[r0 i0] sm IH]; intros m j; cbn [best_match]; [discriminate|].
  assert (Hrest : best_match sm s = Some (m, j) ->
                  exists r, In (r, j) ((r0, i0) :: sm) /\ longest r s = Some m).
  { intros B. destruct (IH m j B) as (r & Hin & Hl). exists r. split; [now right | exact Hl]. }
  destruct (longest r0 s) as [[|k]|] eqn:E; [exact Hrest | | exact Hrest].
  destruct (best_match sm s) as [[m' j']|] eqn:B.
  - destruct (S k <? m')%nat.
    + intros H. inversion H; subst. now apply Hrest.
    + intros H. inversion H; subst. exists r0. split; [now left | exact E].
  - intros H. inversion H; subst. exists r0. split; [now left | exact E].
Qed.

Variable w : list ascii.
Hypothesis w_not_empty : w <> [].

Lemma run_winner_best (ds rest : list ascii) :
  forallb P ds = true ->
  followed_by Q rest ->
  forall (sm : state_machine) (i : N),
    run_winner P Q w sm = Some i ->
    best_match sm (w ++ ds ++ rest) = Some ((List.length w + List.length ds)%nat, i).
Proof.
  intros Hds Hrest.
  assert (Hpos : exists n, (List.length w + List.length ds)%nat = S n).
  { destruct w as [|a w']; [congruence|]. cbn [List.length Nat.add]. now eexists. }
  induction sm as [|[r j] sm IH]; intros i; cbn [run_winner]; [discriminate|].
  cbn [best_match].
  destruct (grows P Q (derivs w r)) eqn:G.
  - destruct (forallb _ sm) eqn:F; [|discriminate].
    intros H. inversion H; subst j. clear H.
    rewrite longest_app, (longest_run _ ds rest G Hds Hrest).
    destruct Hpos as [n Hn]. rewrite Hn.
    destruct (best_match sm (w ++ ds ++ rest)) as [[m j']|] eqn:B; [|reflexivity].
    destruct (best_match_In sm _ m j' B) as (r' & Hin & Hl).
    rewrite forallb_forall in F. specialize (F (r', j') Hin). cbn [fst] in F.
    assert (Hle : (m <= S n)%nat).
    { apply orb_prop in F. destruct F as [F|F].
      - rewrite longest_app, (longest_run _ ds rest F Hds Hrest) in Hl.
        inversion Hl. lia.
      - rewrite (longest_stop w r' ds rest F Hds Hrest) in Hl.
        apply longest_bound in Hl. lia. }
    apply Nat.ltb_ge in Hle. now rewrite Hle.
  - destruct (stops P Q (derivs w r) && negb (nullable (derivs w r))) eqn:St;
      [|discriminate].
    apply andb_prop in St. destruct St as [St Nn]. apply negb_true_iff in Nn.
    intros H. rewrite (IH i H), (longest_stop w r ds rest St Hds Hrest).
    destruct (longest r w) as [[|k]|] eqn:E; [reflexivity| |reflexivity].
    apply (longest_lt w r (S k) Nn) in E.
    assert (Hlt : (S k < List.length w + List.length ds)%nat) by lia.
    apply Nat.ltb_lt in Hlt. now rewrite Hlt.
Qed.

(** The first token of [w], a run [ds] of characters of [P], and a rest
    that starts with a character of [Q]. *)
Lemma run_token (ds rest : list ascii) (i : N) :
  is_Some_id (run_winner P Q w compiled_table) i = true ->
  forallb P ds = true ->
  followed_by Q rest ->
  hd_error (tokenize (w ++ ds ++ rest)) = Some {| id := i; str := w ++ ds |}.
Proof.
  intros Hw Hds Hrest.
  destruct (run_winner P Q w compiled_table) as [j|] eqn:W; [|discriminate].
  cbn [is_Some_id] in Hw. apply N.eqb_eq in Hw. subst j.
  pose proof (run_winner_best ds rest Hds Hrest compiled_table i W) as B.
  destruct w as [|a w'] eqn:Ew; [congruence|]. rewrite <- Ew in *.
  assert (Hs : w ++ ds ++ rest = a :: (w' ++ ds ++ rest)) by now rewrite Ew.
  unfold tokenize. rewrite Hs, siterator_begin_head, <- Hs. unfold lookup.
  rewrite Hs at 1. rewrite B. cbn [fst]. f_equal. f_equal.
  rewrite app_assoc, firstn_app, length_app, Nat.sub_diag, firstn_O, app_nil_r.
  rewrite <- length_app. apply firstn_all.
Qed.

End Runs.

Section RunChecks.

Lemma marker_names_check :
  forallb (fun name =>
             match chars name with
             | [] => false
             | _ :: _ =>
                 is_Some_id (run_winner is_digit not_alnum (chars name)
                                        compiled_table) (to_id MARKER)
             end) marker_names = true.
Proof. vm_compute. reflexivity. Qed.

Lemma comment_check :
  is_Some_id (run_winner not_LF is_LF [";"%char] compiled_table) (to_id COMMENT)
  = true.
Proof. vm_compute. reflexivity. Qed.

Lemma blank_check :
  forallb (fun b =>
             if is_blank b then
               is_Some_id (run_winner is_blank not_blank [b] compiled_table)
                          (to_id WS)
             else true) all_ascii = true.
Proof. vm_compute. reflexivity. Qed.

Lemma integer_check :
  forallb (fun d =>
             if is_digit d then
               is_Some_id (run_winner is_digit ends_integer [d] compiled_table)
                          (to_id NUMBER) &&
               is_Some_id (run_winner is_digit ends_integer ["+"%char; d]
                                      compiled_table) (to_id NUMBER) &&
               is_Some_id (run_winner is_digit ends_integer ["-"%char; d]
                                      compiled_table) (to_id NUMBER)
             else true) all_ascii = true.
Proof. vm_compute. reflexivity. Qed.

Lemma if_true_elim (a b : bool) :
  (if a then b else true) = true -> a = true -> b = true.
Proof. intros H Ha. now rewrite Ha in H. Qed.

Lemma nonempty_elim {A : Type} (l : list A) (b : bool) :
  match l with [] => false | _ :: _ => b end = true -> l <> [] /\ b = true.
Proof. destruct l; [discriminate|]. intros H. split; [discriminate | exact H]. Qed.

End RunChecks.

(** X12: A marker name, then any number of digits, then nothing or a character
    that is no letter and no digit, is one MARKER token: the name with
    its digits. *)
Theorem marker_tokens (name : string) (ds rest : list ascii) :
  In name marker_names ->
  forallb is_digit ds = true ->
  followed_by not_alnum rest ->
  hd_error (tokenize (chars name ++ ds ++ rest)) =
  Some {| id := to_id MARKER; str := chars name ++ ds |}.
Proof.
  intros Hin Hds Hrest.
  pose proof marker_names_check as C. rewrite forallb_forall in C.
  destruct (nonempty_elim _ _ (C name Hin)) as [Hne Hw].
  exact (run_token is_digit not_alnum (chars name) Hne ds rest (to_id MARKER)
                   Hw Hds Hrest).
Qed.

Lemma marker_tokens_witness :
  hd_error (tokenize (chars "FilledCircle" ++ chars "12" ++ chars " (1 2 3)")) =
  Some {| id := to_id MARKER; str := chars "FilledCircle" ++ chars "12" |}.
Proof.
  apply (marker_tokens "FilledCircle" (chars "12") (chars " (1 2 3)")).
  - unfold marker_names. cbn [In]. tauto.
  - reflexivity.
  - reflexivity.
Defined.

(** X13: A semicolon and all that follows it up to the end of the line (or of
    the input) is one COMMENT token; the newline is not part of it. *)
Theorem comment_tokens (text rest : list ascii) :
  forallb not_LF text = true ->
  followed_by is_LF rest ->
  hd_error (tokenize (";"%char :: text ++ rest)) =
  Some {| id := to_id COMMENT; str := ";"%char :: text |}.
Proof.
  intros Ht Hrest.
  assert (Hne : [";"%char] <> []) by discriminate.
  exact (run_token not_LF is_LF [";"%char] Hne text rest (to_id COMMENT)
                   comment_check Ht Hrest).
Qed.

Lemma comment_tokens_witness :
  hd_error (tokenize (";"%char :: chars " V3 text file (x)" ++ LF :: chars "(")) =
  Some {| id := to_id COMMENT; str := ";"%char :: chars " V3 text file (x)" |}.
Proof.
  apply (comment_tokens (chars " V3 text file (x)") (LF :: chars "("));
    reflexivity.
Defined.

(** X14: A run of blanks, tabs and carriage returns, as long as it goes, is one
    WS token. *)
Theorem whitespace_tokens (b : ascii) (bs rest : list ascii) :
  is_blank b = true ->
  forallb is_blank bs = true ->
  followed_by not_blank rest ->
  hd_error (tokenize (b :: bs ++ rest)) = Some {| id := to_id WS; str := b :: bs |}.
Proof.
  intros Hb Hbs Hrest.
  pose proof blank_check as C. rewrite forallb_forall in C.
  pose proof (if_true_elim _ _ (C b (in_all_ascii b)) Hb) as Hw.
  assert (Hne : [b] <> []) by discriminate.
  exact (run_token is_blank not_blank [b] Hne bs rest (to_id WS) Hw Hbs Hrest).
Qed.

Lemma whitespace_tokens_witness :
  hd_error (tokenize (" "%char :: [TAB; CR; " "%char] ++ LF :: chars "(")) =
  Some {| id := to_id WS; str := " "%char :: [TAB; CR; " "%char] |}.
Proof.
  apply (whitespace_tokens " "%char [TAB; CR; " "%char] (LF :: chars "("));
    reflexivity.
Defined.

(** X15: A digit, or a sign and a digit, then any number of digits, then
    nothing or a character that is no letter, no digit and no point, is
    one NUMBER token. *)
Theorem integer_tokens (w ds rest : list ascii) :
  integer_head w = true ->
  forallb is_digit ds = true ->
  followed_by ends_integer rest ->
  hd_error (tokenize (w ++ ds ++ rest)) =
  Some {| id := to_id NUMBER; str := w ++ ds |}.
Proof.
  intros Hw Hds Hrest.
  pose proof integer_check as C. rewrite forallb_forall in C.
  assert (Hrun : w <> [] /\
                 is_Some_id (run_winner is_digit ends_integer w compiled_table)
                            (to_id NUMBER) = true).
  { destruct w as [|a [|d [|x w]]]; cbn [integer_head] in Hw; try discriminate.
    - split; [discriminate|].
      pose proof (if_true_elim _ _ (C a (in_all_ascii a)) Hw) as H.
      apply andb_prop in H. destruct H as [H _].
      apply andb_prop in H. now destruct H as [H _].
    - split; [discriminate|].
      apply andb_prop in Hw. destruct Hw as [Hs Hd].
      pose proof (if_true_elim _ _ (C d (in_all_ascii d)) Hd) as H.
      apply andb_prop in H. destruct H as [H Hminus].
      apply andb_prop in H. destruct H as [_ Hplus].
      apply orb_prop in Hs. destruct Hs as [Hs|Hs];
        apply Ascii.eqb_eq in Hs; subst a; assumption. }
  destruct Hrun as [Hne Hr].
  exact (run_token is_digit ends_integer w Hne ds rest (to_id NUMBER) Hr Hds Hrest).
Qed.

Lemma integer_tokens_witness :
  hd_error (tokenize (chars "-1" ++ chars "250" ++ chars " 3.5)")) =
  Some {| id := to_id NUMBER; str := chars "-1" ++ chars "250" |}.
Proof.
  apply (integer_tokens (chars "-1") (chars "250") (chars " 3.5)")); reflexivity.
Defined.

(** ** Token kinds *)

Section Kinds.

Lemma all_tokens_complete (t : Token) : In t all_tokens.
Proof. destruct t; unfold all_tokens; cbn [In]; tauto. Qed.

End Kinds.

(** X16: No two kinds of token have the same id, and no two the same name; the
    name of no kind is the Unknown that [to_string] keeps for other
    values. *)
Theorem token_ids_and_names_are_distinct (t1 t2 : Token) :
  (to_id t1 = to_id t2 <-> t1 = t2) /\
  (to_string t1 = to_string t2 <-> t1 = t2) /\
  to_string t1 <> "Unknown"%string.
Proof.
  split; [|split].
  - split; [|now intros ->].
    destruct t1, t2; intros H; try reflexivity; vm_compute in H; discriminate.
  - split; [|now intros ->].
    destruct t1, t2; intros H; try reflexivity; vm_compute in H; discriminate.
  - destruct t1; discriminate.
Qed.

(** X17: From the text of a token to a section type.  [TokenToSectionType]
    gives a section type for the kinds AXON, APICAL and DENDRITE only:
    for every other kind, CELLBODY too, it throws a RawDataError with its
    one message.  So a token of the stream that has a section type is
    spelled axon, apical or dendrite, with either case of the first
    letter, and the type is the one of that word. *)
Theorem section_type_of_token :
  (forall k,
      In k [AXON; APICAL; DENDRITE] \/
      TokenToSectionType k =
        inl (RawDataError, "Could not convert token to sectin"%string)) /\
  TokenToSectionType CELLBODY =
    inl (RawDataError, "Could not convert token to sectin"%string) /\
  (forall k st,
      TokenToSectionType k = inr st <->
      In (k, st) [ (AXON, SECTION_AXON); (APICAL, SECTION_APICAL_DENDRITE);
                   (DENDRITE, SECTION_DENDRITE) ]) /\
  (forall (input : list ascii) (t : match_results) (k : Token) (st : SectionType),
      In t (tokenize input) ->
      id t = to_id k ->
      TokenToSectionType k = inr st ->
      In (str t, st) section_words).
Proof.
  split; [|split; [|split]].
  - intros k. destruct k; cbn [In]; try (right; reflexivity); tauto.
  - reflexivity.
  - intros k st. split.
    + destruct k; intros H; vm_compute in H; try discriminate;
        inversion H; cbn [In]; tauto.
    + cbn [In]. intros H. decompose [or] H; try contradiction;
        match goal with E : (_, _) = (k, st) |- _ => inversion E end;
        reflexivity.
  - intros input t k st Hin Hid Hst.
    assert (Hsp : forall ws, spellings compiled_table (to_id k) = Some ws ->
                             In (str t) ws)
      by (intros ws; now apply (token_spelling input t k ws)).
    destruct k; vm_compute in Hst; try discriminate; inversion Hst; subst st;
      match goal with
      | H : forall ws, spellings compiled_table (to_id ?k) = Some ws -> _ |- _ =>
          let ws := eval vm_compute in (spellings compiled_table (to_id k)) in
          match ws with
          | Some ?l => assert (Hw : In (str t) l) by (apply H; vm_compute; reflexivity)
          end
      end;
      cbn [In] in Hw; decompose [or] Hw; try contradiction;
      match goal with H : _ = str t |- _ => rewrite <- H end;
      unfold section_words; cbn [In]; tauto.
Qed.

Lemma section_type_of_token_witness :
  TokenToSectionType WORD =
    inl (RawDataError, "Could not convert token to sectin"%string) /\
  In (DENDRITE, SECTION_DENDRITE)
     [ (AXON, SECTION_AXON); (APICAL, SECTION_APICAL_DENDRITE);
       (DENDRITE, SECTION_DENDRITE) ] /\
  In (chars "Dendrite", SECTION_DENDRITE) section_words.
Proof.
  destruct section_type_of_token as (Hother & _ & Hconv & Hword).
  split; [|split].
  - destruct (Hother WORD) as [H|H]; [|exact H].
    cbn [In] in H. decompose [or] H; try discriminate; contradiction.
  - apply (proj1 (Hconv DENDRITE SECTION_DENDRITE)). reflexivity.
  - apply (Hword (chars "((Dendrite) (0 0 0 1))")
                 {| id := to_id DENDRITE; str := chars "Dendrite" |} DENDRITE).
    + vm_compute. tauto.
    + reflexivity.
    + reflexivity.
Defined.

(** ** The text of words, strings and lines *)

Section Shapes.

Lemma rules_with_id_In (sm : state_machine) (r : regex) (i : N) :
  In (r, i) sm -> In r (rules_with_id sm i).
Proof.
  intros H. unfold rules_with_id.
  apply (in_map fst _ (r, i)). apply filter_In. split; [exact H|].
  cbn [snd]. apply N.eqb_refl.
Qed.

Lemma matches_Sym_inv (n : bool) (l : list item) (w : list ascii) :
  matches (Sym n l) w -> exists c, w = [c] /\ sym_mem c n l = true.
Proof. intros H. inversion H; subst. now eexists. Qed.

Lemma matches_Star_Sym (n : bool) (l : list item) (w : list ascii) :
  matches (Star (Sym n l)) w -> forallb (fun c => sym_mem c n l) w = true.
Proof.
  intros H. remember (Star (Sym n l)) as r eqn:Er.
  induction H as [| | | | | |r' s1 s2 H1 _ H2 IH2]; try discriminate.
  - reflexivity.
  - inversion Er; subst r'.
    apply matches_Sym_inv in H1. destruct H1 as (c & Hs & Hc). subst s1.
    cbn [app forallb]. rewrite Hc. now apply IH2.
Qed.

(** The rule a token of the stream was made by. *)
Lemma token_rule (input : list ascii) (t : match_results) (k : Token) :
  In t (tokenize input) ->
  id t = to_id k ->
  exists r, In r (rules_with_id compiled_table (to_id k)) /\ matches r (str t).
Proof.
  intros Hin Hid.
  destruct (tokens_from_In _ _ _ _ Hin) as (s' & Hne & Ht).
  destruct (lookup_sound compiled_table s' Hne) as [_ [[Hn _]|(r & Hr & Hm)]];
    rewrite <- Ht in *.
  - exfalso. apply (npos_is_no_token k). congruence.
  - exists r. split; [|exact Hm]. rewrite Hid in Hr. now apply rules_with_id_In.
Qed.

Lemma never_has_sound (c : ascii) (r : regex) (w : list ascii) :
  never_has c r = true -> matches r w -> ~ In c w.
Proof.
  intros Hn Hm. induction Hm as [|n l d Hd|r1 r2 s1 s2 _ IH1 _ IH2
                                 |r1 r2 s _ IH|r1 r2 s _ IH| |r s1 s2 _ IH1 _ IH2];
    cbn [never_has] in Hn.
  - intros [].
  - intros [H|[]]. subst d. rewrite Hd in Hn. discriminate.
  - apply andb_prop in Hn. destruct Hn as [H1 H2].
    intros H. apply in_app_or in H. destruct H; [now apply IH1 | now apply IH2].
  - apply andb_prop in Hn. now apply IH.
  - apply andb_prop in Hn. now apply IH.
  - intros [].
  - intros H. apply in_app_or in H. destruct H; [now apply IH1 | now apply IH2].
Qed.

Lemma count_LF_app (a b : list ascii) :
  count_LF (a ++ b) = (count_LF a + count_LF b)%nat.
Proof. unfold count_LF. now rewrite filter_app, length_app. Qed.

Lemma count_LF_none (w : list ascii) : ~ In LF w -> count_LF w = O.
Proof.
  induction w as [|c w IH]; intros H; [reflexivity|].
  unfold count_LF. cbn [filter].
  destruct (Ascii.eqb LF c) eqn:E.
  - apply Ascii.eqb_eq in E. exfalso. apply H. now left.
  - apply IH. intros Hin. apply H. now right.
Qed.

Lemma no_LF_check :
  forallb (fun ri => (snd ri =? to_id NEWLINE) || (snd ri =? to_id STRING) ||
                     never_has LF (fst ri)) compiled_table = true.
Proof. vm_compute. reflexivity. Qed.

Lemma LF_is_matched (s : list ascii) : best_match compiled_table (LF :: s) <> None.
Proof.
  intros B.
  apply (best_match_None compiled_table (LF :: s) B (chr LF) (to_id NEWLINE) O).
  - now left.
  - cbn [longest]. replace (deriv LF (chr LF)) with Eps by reflexivity.
    destruct s as [|c s]; [reflexivity|].
    cbn [longest deriv]. now rewrite longest_Nul.
Qed.

Lemma lookup_token (sm : state_machine) (s : list ascii) :
  s <> [] ->
  (exists r, In (r, id (fst (lookup sm s))) sm /\
             matches r (str (fst (lookup sm s)))) \/
  (exists c s', s = c :: s' /\ str (fst (lookup sm s)) = [c] /\
                best_match sm s = None).
Proof.
  destruct s as [|c s]; [congruence|]. intros _. unfold lookup.
  destruct (best_match sm (c :: s)) as [[n i]|] eqn:B; cbn [fst id str].
  - left. destruct (best_match_spec sm (c :: s) n i B)
      as (_ & earlier & r & later & Hsm & Hm & _).
    exists r. split; [|exact Hm]. rewrite Hsm. apply in_or_app. right. now left.
  - right. now exists c, s.
Qed.

Lemma no_LF_elim (a b c : bool) :
  a || b || c = true -> a = false -> b = false -> c = true.
Proof. destruct a, b, c; cbn; intros; congruence. Qed.

(** The line feeds in the text of one token: one for a NEWLINE, none for
    any other kind but STRING. *)
Lemma token_count_LF (input : list ascii) (t : match_results) :
  In t (tokenize input) ->
  id t <> to_id STRING ->
  count_LF (str t) = if is_newline t then 1%nat else O.
Proof.
  intros Hin Hstr.
  destruct (tokens_from_In _ _ _ _ Hin) as (s' & Hne & Ht).
  unfold is_newline. destruct (id t =? to_id NEWLINE) eqn:En.
  - apply N.eqb_eq in En.
    assert (Hw : In (str t) [[LF]]).
    { apply (token_spelling input t NEWLINE); [exact Hin | exact En |].
      vm_compute. reflexivity. }
    destruct Hw as [Hw|[]]. now rewrite <- Hw.
  - apply count_LF_none.
    destruct (lookup_token compiled_table s' Hne)
      as [(r & Hr & Hm)|(c & s'' & Hs & Hc & B)]; rewrite <- Ht in *.
    + pose proof no_LF_check as C. rewrite forallb_forall in C.
      apply N.eqb_neq in Hstr.
      pose proof (no_LF_elim _ _ _ (C (r, id t) Hr) En Hstr) as Hnever.
      exact (never_has_sound LF r (str t) Hnever Hm).
    + rewrite Hc. intros [H|[]]. subst c s'. exact (LF_is_matched s'' B).
Qed.

Lemma tokens_count_LF (input : list ascii) (pre : list match_results) :
  (forall t, In t pre -> In t (tokenize input)) ->
  (forall t, In t pre -> id t = to_id STRING -> ~ In LF (str t)) ->
  count_LF (List.concat (map str pre)) = count_newlines pre.
Proof.
  induction pre as [|t pre IH]; intros Hin Hs; [reflexivity|].
  cbn [map List.concat]. rewrite count_LF_app.
  change (t :: pre) with ([t] ++ pre). rewrite count_newlines_app.
  rewrite IH; [|intros; apply Hin; now right|intros; apply Hs; [now right|assumption]].
  f_equal. unfold count_newlines. cbn [filter].
  destruct (N.eq_dec (id t) (to_id STRING)) as [E|E].
  - rewrite (count_LF_none _ (Hs t (or_introl eq_refl) E)).
    unfold is_newline. rewrite E. reflexivity.
  - rewrite (token_count_LF input t (Hin t (or_introl eq_refl)) E).
    now destruct (is_newline t).
Qed.

End Shapes.

(** X18: A WORD token has at least two characters: a letter, then letters and
    digits. *)
Theorem word_tokens_shape (input : list ascii) (t : match_results) :
  In t (tokenize input) ->
  id t = to_id WORD ->
  exists c d ds,
    str t = c :: d :: ds /\
    is_alpha c = true /\ forallb is_alnum (d :: ds) = true.
Proof.
  intros Hin Hid.
  destruct (token_rule input t WORD Hin Hid) as (r & Hr & Hm).
  assert (Hrs : rules_with_id compiled_table (to_id WORD) =
                [Cat (Sym false [Rng "a" "z"; Rng "A" "Z"])
                     (plus (Sym false [Rng "0" "9"; Rng "a" "z"; Rng "A" "Z"]))])
    by reflexivity.
  rewrite Hrs in Hr. destruct Hr as [Hr|[]]. subst r.
  apply matches_Cat_inv in Hm. destruct Hm as (s1 & s2 & Hs & H1 & H2).
  apply matches_Sym_inv in H1. destruct H1 as (c & Hc1 & Hc). subst s1.
  unfold plus in H2.
  apply matches_Cat_inv in H2. destruct H2 as (s3 & s4 & Hs2 & H3 & H4).
  apply matches_Sym_inv in H3. destruct H3 as (d & Hd1 & Hd). subst s3.
  apply matches_Star_Sym in H4.
  exists c, d, s4. subst s2. split; [exact Hs|]. split; [exact Hc|].
  cbn [forallb]. unfold is_alnum at 1. now rewrite Hd.
Qed.

Lemma word_tokens_shape_witness :
  exists c d ds,
    chars "Red" = c :: d :: ds /\
    is_alpha c = true /\ forallb is_alnum (d :: ds) = true.
Proof.
  apply (word_tokens_shape (chars "(Color Red)")
                           {| id := to_id WORD; str := chars "Red" |}).
  - vm_compute. tauto.
  - reflexivity.
Defined.

(** X19: A STRING token is a double quote, a text without double quotes, and
    a double quote. *)
Theorem string_tokens_shape (input : list ascii) (t : match_results) :
  In t (tokenize input) ->
  id t = to_id STRING ->
  exists body,
    str t = DQUOTE :: body ++ [DQUOTE] /\ forallb not_DQUOTE body = true.
Proof.
  intros Hin Hid.
  destruct (token_rule input t STRING Hin Hid) as (r & Hr & Hm).
  assert (Hrs : rules_with_id compiled_table (to_id STRING) =
                [seqs [chr DQUOTE; Star (Sym true [One DQUOTE]); chr DQUOTE]])
    by reflexivity.
  rewrite Hrs in Hr. destruct Hr as [Hr|[]]. subst r. cbn [seqs] in Hm.
  apply matches_Cat_inv in Hm. destruct Hm as (s1 & s2 & Hs & H1 & H2).
  apply matches_Sym_inv in H1. destruct H1 as (c & Hc1 & Hc). subst s1.
  apply matches_Cat_inv in H2. destruct H2 as (s3 & s4 & Hs2 & H3 & H4).
  apply matches_Star_Sym in H3.
  apply matches_Sym_inv in H4. destruct H4 as (d & Hd1 & Hd). subst s4 s2.
  assert (Hq : forall x, sym_mem x false [One DQUOTE] = true -> x = DQUOTE).
  { intros x Hx. unfold sym_mem in Hx. cbn in Hx.
    rewrite orb_false_r in Hx. now apply Ascii.eqb_eq in Hx. }
  apply Hq in Hc, Hd. subst c d.
  exists s3. split; [exact Hs|].
  rewrite forallb_forall in H3 |- *. intros x Hx. specialize (H3 x Hx).
  unfold sym_mem in H3. cbn in H3. rewrite orb_false_r in H3.
  exact H3.
Qed.

Lemma string_tokens_shape_witness :
  exists body,
    DQUOTE :: chars "Cell Body" ++ [DQUOTE] = DQUOTE :: body ++ [DQUOTE] /\
    forallb not_DQUOTE body = true.
Proof.
  apply (string_tokens_shape
           (chars "(" ++ DQUOTE :: chars "Cell Body" ++ [DQUOTE] ++ chars ")")
           {| id := to_id STRING; str := DQUOTE :: chars "Cell Body" ++ [DQUOTE] |}).
  - vm_compute. tauto.
  - reflexivity.
Defined.

(** X20: NEWLINE tokens count the lines of the text.  Split the tokens of an
    input at any position; if no STRING token before that position runs
    over a line end, then the line of the position, as counted in NEWLINE
    tokens, is 1 plus the number of line feeds in the text before it. *)
Theorem newline_tokens_count_lines
    (input : list ascii) (pre it : list match_results) :
  tokenize input = pre ++ it ->
  (forall t, In t pre -> id t = to_id STRING -> ~ In LF (str t)) ->
  input = List.concat (map str pre) ++ List.concat (map str it) /\
  line_of (tokenize input) it =
    1 + N.of_nat (count_LF (List.concat (map str pre))).
Proof.
  intros Hsplit Hs. split.
  - rewrite <- concat_app, <- map_app, <- Hsplit.
    symmetry. apply siterator_begin_concat.
  - unfold line_of. rewrite Hsplit, tokens_before_app.
    rewrite (tokens_count_LF input pre); [reflexivity| |exact Hs].
    intros t Ht. rewrite Hsplit. apply in_or_app. now left.
Qed.

Lemma newline_tokens_count_lines_witness :
  let input := chars "(Color Red)" ++ [LF] ++ chars "; x" ++ [LF] ++ chars "(Axon)" in
  let pre := firstn 7 (tokenize input) in
  let it := skipn 7 (tokenize input) in
  input = List.concat (map str pre) ++ List.concat (map str it) /\
  line_of (tokenize input) it =
    1 + N.of_nat (count_LF (List.concat (map str pre))).
Proof.
  apply (newline_tokens_count_lines
           (chars "(Color Red)" ++ [LF] ++ chars "; x" ++ [LF] ++ chars "(Axon)")).
  - symmetry. apply firstn_skipn.
  - intros t Ht Hid. vm_compute in Ht.
    decompose [or] Ht; try contradiction; subst t; vm_compute in Hid; discriminate.
Defined.

(** ** Reserved words and stray characters *)

Section ReservedWords.

Lemma reserved_words_check :
  forallb (fun wk =>
             forallb (fun c => is_alnum c || dead_after (fst wk) c) all_ascii)
          reserved_words = true.
Proof. vm_compute. reflexivity. Qed.

Lemma stray_check :
  forallb (fun c =>
             if starts_token c then true
             else forallb (fun ri => is_Nul (deriv c (fst ri))) compiled_table)
          all_ascii = true.
Proof. vm_compute. reflexivity. Qed.

Lemma if_false_elim (a b : bool) :
  (if a then true else b) = true -> a = false -> b = true.
Proof. intros H Ha. now rewrite Ha in H. Qed.

Lemma best_match_all_dead (sm : state_machine) (c : ascii) (rest : list ascii) :
  forallb (fun ri => is_Nul (deriv c (fst ri))) sm = true ->
  forallb (fun ri => negb (nullable (fst ri))) sm = true ->
  best_match sm (c :: rest) = None.
Proof.
  induction sm as [|[r i] sm IH]; intros Hd Hn; [reflexivity|].
  cbn [forallb fst] in Hd, Hn.
  apply andb_prop in Hd. destruct Hd as [Hd Hds].
  apply andb_prop in Hn. destruct Hn as [Hn Hns].
  cbn [best_match longest]. rewrite (is_Nul_eq _ Hd), longest_Nul.
  apply negb_true_iff in Hn. rewrite Hn. now apply IH.
Qed.

End ReservedWords.

(** X21: The reserved words Color, Font, Generated, High, Incomplete, Low,
    Normal, Midpoint and Origin, spelled exactly so and followed by nothing
    or by a character that is no letter and no digit, are tokens of their
    own kinds (and not WORDs, though the pattern of WORD matches them
    too). *)
Theorem reserved_word_tokens (w : list ascii) (k : Token) (rest : list ascii) :
  In (w, k) reserved_words ->
  delimited rest ->
  hd_error (tokenize (w ++ rest)) = Some {| id := to_id k; str := w |}.
Proof.
  intros Hin Hd.
  pose proof reserved_words_check as C. rewrite forallb_forall in C.
  pose proof (C (w, k) Hin) as Cw. cbn [fst] in Cw.
  assert (Hw : w <> [] /\ hd_error (tokenize w) = Some {| id := to_id k; str := w |}).
  { clear C Cw Hd. unfold reserved_words in Hin. cbn [In] in Hin.
    repeat (destruct Hin as [Heq|Hin];
            [inversion Heq; subst; split; [discriminate | vm_compute; reflexivity]|]).
    destruct Hin. }
  destruct Hw as [Hne Hw].
  rewrite (first_token_of_word w rest Hne Cw Hd). exact Hw.
Qed.

Lemma reserved_word_tokens_witness :
  hd_error (tokenize (chars "Incomplete" ++ chars ")")) =
  Some {| id := to_id INCOMPLETE; str := chars "Incomplete" |}.
Proof.
  apply (reserved_word_tokens (chars "Incomplete") INCOMPLETE (chars ")")).
  - unfold reserved_words. cbn [In]. tauto.
  - reflexivity.
Defined.

(** A longer word that begins with a reserved word is a WORD. *)
Example Colors_is_a_WORD :
  tokenize (chars "Colors") = [ {| id := to_id WORD; str := chars "Colors" |} ].
Proof. vm_compute. reflexivity. Qed.

(** X22: A character that no pattern begins with (any character other than a
    letter, a digit, a newline, a blank, a tab, a carriage return and
    [; ( ) < , | + -] and the double quote) is a token of its own with the
    id [npos], whatever follows it. *)
Theorem stray_characters (c : ascii) (rest : list ascii) :
  starts_token c = false ->
  hd_error (tokenize (c :: rest)) = Some {| id := npos; str := [c] |}.
Proof.
  intros Hc.
  pose proof stray_check as C. rewrite forallb_forall in C.
  pose proof (if_false_elim _ _ (C c (in_all_ascii c)) Hc) as Hdead.
  exact (unmatched_head compiled_table c rest
           (best_match_all_dead compiled_table c rest Hdead rules_not_nullable)).
Qed.

Lemma stray_characters_witness :
  hd_error (tokenize ("."%char :: chars "5 2)")) =
  Some {| id := npos; str := ["."%char] |}.
Proof.
  apply (stray_characters "."%char (chars "5 2)")). reflexivity.
Defined.
